(** * The preact host binding of ink: a shallow embedding of [src/preact.ts]

    The file embeds the host adapter ([PreactElement]), the style proxy,
    the static-subtree search, the output scheduler and the session
    registry of [render], and proves the properties the specification
    states about them.

    JavaScript objects are kept in explicit stores addressed by natural
    numbers (object identity is the address); calls to collaborators that
    are not part of [preact.ts] are recorded in a trace. *)

From Stdlib Require Import ZArith String Ascii List Lia DecimalString.
From stdpp Require Import base option list gmap strings.

Local Open Scope string_scope.
Set Warnings "-register-all".

(** ** JavaScript values

    A string is a sequence of bytes, the UTF-8 encoding of the JavaScript
    string. *)

Module JS.

(** Numbers.  Only the integers that a double holds exactly are
    interpreted; every other numeric literal is kept as its source text. *)
Inductive JSNumber :=
| Num (z : Z)
| NaN
| NumLiteral (lit : string).

Inductive Value :=
| VUndefined
| VNull
| VBool (b : bool)
| VNumber (n : JSNumber)
| VString (s : string)
| VObject (fields : list (string * Value))
| VFunction (id : nat).

(** ToBoolean. *)
Definition truthy (v : Value) : bool :=
  match v with
  | VUndefined | VNull => false
  | VBool b => b
  | VNumber (Num z) => negb (z =? 0)%Z
  | VNumber NaN => false
  | VNumber (NumLiteral _) => true
  | VString s => negb (String.eqb s "")
  | VObject _ | VFunction _ => true
  end.

Definition is_digit (c : ascii) : bool :=
  let n := nat_of_ascii c in (48 <=? n)%nat && (n <=? 57)%nat.

(** The longest run of digits is dropped from the front of [s]. *)
Fixpoint skip_digits (s : string) : string :=
  match s with
  | String c r => if is_digit c then skip_digits r else s
  | EmptyString => s
  end.

Fixpoint all_digits (s : string) : bool :=
  match s with
  | String c r => is_digit c && all_digits r
  | EmptyString => true
  end.

(** [/^\d+px/.test(s)]: the pattern is anchored at the start only. *)
Definition test_digits_px (s : string) : bool :=
  match s with
  | String c r => is_digit c && String.prefix "px" (skip_digits r)
  | EmptyString => false
  end.

Fixpoint drop_chars (n : nat) (s : string) : string :=
  match n, s with
  | S k, String _ r => drop_chars k r
  | _, _ => s
  end.

(** [s.replace(pat, rep)] with a string pattern: the first occurrence only. *)
Fixpoint replace (pat rep s : string) : string :=
  if String.prefix pat s then rep ++ drop_chars (String.length pat) s
  else match s with
       | String c r => String c (replace pat rep r)
       | EmptyString => EmptyString
       end.

(** White space of the ASCII range (TAB, LF, VT, FF, CR, SP). *)
Definition is_space (c : ascii) : bool :=
  let n := nat_of_ascii c in
  ((9 <=? n)%nat && (n <=? 13)%nat) || (n =? 32)%nat.

(** The white space and the line terminators outside the ASCII range, by
    their bytes: U+00A0 (two bytes); U+1680, U+2000 to U+200A, U+2028,
    U+2029, U+202F, U+205F, U+3000 and U+FEFF (three bytes). *)
Definition wide_space2 (a b : ascii) : bool :=
  (nat_of_ascii a =? 194)%nat && (nat_of_ascii b =? 160)%nat.

Definition wide_space3 (a b c : ascii) : bool :=
  let x := nat_of_ascii a in
  let y := nat_of_ascii b in
  let z := nat_of_ascii c in
  ((x =? 225) && (y =? 154) && (z =? 128))%nat
  || ((x =? 226) && (y =? 128)
      && (((128 <=? z) && (z <=? 138)) || (z =? 168) || (z =? 169) || (z =? 175)))%nat
  || ((x =? 226) && (y =? 129) && (z =? 159))%nat
  || ((x =? 227) && (y =? 128) && (z =? 128))%nat
  || ((x =? 239) && (y =? 187) && (z =? 191))%nat.

(** The white space at the front of [s] is dropped. *)
Fixpoint skip_spaces (s : string) : string :=
  match s with
  | String c r =>
      if is_space c then skip_spaces r
      else match r with
           | String d r2 =>
               if wide_space2 c d then skip_spaces r2
               else match r2 with
                    | String e r3 => if wide_space3 c d e then skip_spaces r3 else s
                    | EmptyString => s
                    end
           | EmptyString => s
           end
  | EmptyString => s
  end.

(** The same on a string that is read backwards: the bytes of a character
    come last byte first. *)
Fixpoint skip_spaces_back (s : string) : string :=
  match s with
  | String c r =>
      if is_space c then skip_spaces_back r
      else match r with
           | String d r2 =>
               if wide_space2 d c then skip_spaces_back r2
               else match r2 with
                    | String e r3 => if wide_space3 e d c then skip_spaces_back r3 else s
                    | EmptyString => s
                    end
           | EmptyString => s
           end
  | EmptyString => s
  end.

Fixpoint rev_string (acc s : string) : string :=
  match s with
  | String c r => rev_string (String c acc) r
  | EmptyString => acc
  end.

Definition trim (s : string) : string :=
  rev_string "" (skip_spaces_back (rev_string "" (skip_spaces s))).

Fixpoint digits_value (acc : Z) (s : string) : Z :=
  match s with
  | String c r => digits_value (10 * acc + Z.of_nat (nat_of_ascii c - 48)) r
  | EmptyString => acc
  end.

Definition strip_sign (s : string) : string :=
  match s with
  | String c r => if Ascii.eqb c "+" || Ascii.eqb c "-" then r else s
  | EmptyString => s
  end.

Definition nonempty_digits (s : string) : bool :=
  negb (String.eqb s "") && all_digits s.

(** ExponentPart, or nothing. *)
Definition exponent_ok (s : string) : bool :=
  match s with
  | EmptyString => true
  | String c r =>
      (Ascii.eqb c "e" || Ascii.eqb c "E") && nonempty_digits (strip_sign r)
  end.

(** StrUnsignedDecimalLiteral without [Infinity]. *)
Definition decimal_ok (s : string) : bool :=
  match s with
  | String c r =>
      if is_digit c then
        match skip_digits r with
        | String d r2 =>
            if Ascii.eqb d "." then exponent_ok (skip_digits r2)
            else exponent_ok (String d r2)
        | EmptyString => true
        end
      else if Ascii.eqb c "." then
        match r with
        | String d r2 => is_digit d && exponent_ok (skip_digits r2)
        | EmptyString => false
        end
      else false
  | EmptyString => false
  end.

Definition is_hex_digit (c : ascii) : bool :=
  let n := nat_of_ascii c in
  is_digit c || ((65 <=? n)%nat && (n <=? 70)%nat)
  || ((97 <=? n)%nat && (n <=? 102)%nat).

Fixpoint all_chars (p : ascii -> bool) (s : string) : bool :=
  match s with
  | String c r => p c && all_chars p r
  | EmptyString => true
  end.

(** NonDecimalIntegerLiteral: [0x], [0o] and [0b] forms. *)
Definition radix_ok (s : string) : bool :=
  match s with
  | String z (String x (String d r)) =>
      Ascii.eqb z "0" &&
      (((Ascii.eqb x "x" || Ascii.eqb x "X") && all_chars is_hex_digit (String d r))
       || ((Ascii.eqb x "o" || Ascii.eqb x "O")
           && all_chars (fun c => (48 <=? nat_of_ascii c)%nat && (nat_of_ascii c <=? 55)%nat) (String d r))
       || ((Ascii.eqb x "b" || Ascii.eqb x "B")
           && all_chars (fun c => (48 <=? nat_of_ascii c)%nat && (nat_of_ascii c <=? 49)%nat) (String d r)))
  | _ => false
  end.

Definition numeric_literal_ok (s : string) : bool :=
  radix_ok s || String.eqb (strip_sign s) "Infinity" || decimal_ok (strip_sign s).

(** Unary plus on a string (StringToNumber): white space is trimmed, the
    empty string is 0, a run of digits is its decimal value (exact up to
    2^53), any other StringNumericLiteral is kept as text, everything else
    is NaN. *)
Definition toNumber (s : string) : JSNumber :=
  let t := trim s in
  if String.eqb t "" then Num 0
  else if all_digits t then
    let v := digits_value 0 t in
    if (v <=? 2 ^ 53)%Z then Num v else NumLiteral t
  else if numeric_literal_ok t then NumLiteral t
  else NaN.

(** The value the style proxy stores for an assigned [value]
    (lines 88-96 of the set trap). *)
Definition normalise (value : Value) : Value :=
  match value with
  | VString s =>
      if test_digits_px s then VNumber (toNumber (replace "px" "" s))
      else value
  | _ => value
  end.

(** The decimal text of an integer. *)
Definition decimal (z : Z) : string := NilZero.string_of_int (Z.to_int z).

Definition has_field (key : string) (fields : list (string * Value)) : bool :=
  existsb (fun kv => String.eqb (fst kv) key) fields.

(** [String(v)].  The text of a primitive is computed (of an integer, as
    long as it is printed without an exponent); an object without a
    [toString] of its own is ['[object Object]'].  A value whose text the
    model does not determine (a number kept as its literal, a function, an
    object with its own [toString]) stands for its text. *)
Definition String_ (v : Value) : Value :=
  match v with
  | VUndefined => VString "undefined"
  | VNull => VString "null"
  | VBool true => VString "true"
  | VBool false => VString "false"
  | VNumber (Num z) => if (Z.abs z <? 10 ^ 21)%Z then VString (decimal z) else v
  | VNumber NaN => VString "NaN"
  | VNumber (NumLiteral _) => v
  | VString _ => v
  | VObject fields =>
      if has_field "toString" fields then v else VString "[object Object]"
  | VFunction _ => v
  end.

End JS.


Import JS.
Local Open Scope list_scope.

(** ** The target tree (the store of [dom.DOMNode] objects) *)

(** The node names of [NodeNames]; [Other] is any further name a caller of
    [createElementNS] passes. *)
Inductive NodeName := InkText | InkBox | InkRoot | HashText | Other (name : string).

#[global] Instance NodeName_eq_dec : EqDecision NodeName.
Proof. solve_decision. Defined.

(** A node of the target tree.  [style] is the address of the node's style
    object, [yogaNode] the node's layout handle, [childNodes] is empty
    where the JavaScript object has no such property, [staticNode] is the
    slot of a root element. *)
Record DOMNode := mkNode {
  nodeName : NodeName;
  attributes : gmap string Value;
  style : nat;
  parentNode : option nat;
  childNodes : list nat;
  yogaNode : option nat;
  internal_transform : Value;
  internal_static : Value;
  nodeValue : option Value;
  staticNode : option nat
}.

Definition set_attributes (f : gmap string Value -> gmap string Value) (d : DOMNode) : DOMNode :=
  mkNode (nodeName d) (f (attributes d)) (style d) (parentNode d) (childNodes d)
         (yogaNode d) (internal_transform d) (internal_static d) (nodeValue d) (staticNode d).
Definition set_style_ref (s : nat) (d : DOMNode) : DOMNode :=
  mkNode (nodeName d) (attributes d) s (parentNode d) (childNodes d)
         (yogaNode d) (internal_transform d) (internal_static d) (nodeValue d) (staticNode d).
Definition set_parentNode (p : option nat) (d : DOMNode) : DOMNode :=
  mkNode (nodeName d) (attributes d) (style d) p (childNodes d)
         (yogaNode d) (internal_transform d) (internal_static d) (nodeValue d) (staticNode d).
Definition set_childNodes (f : list nat -> list nat) (d : DOMNode) : DOMNode :=
  mkNode (nodeName d) (attributes d) (style d) (parentNode d) (f (childNodes d))
         (yogaNode d) (internal_transform d) (internal_static d) (nodeValue d) (staticNode d).
Definition set_internal_transform (v : Value) (d : DOMNode) : DOMNode :=
  mkNode (nodeName d) (attributes d) (style d) (parentNode d) (childNodes d)
         (yogaNode d) v (internal_static d) (nodeValue d) (staticNode d).
Definition set_internal_static (v : Value) (d : DOMNode) : DOMNode :=
  mkNode (nodeName d) (attributes d) (style d) (parentNode d) (childNodes d)
         (yogaNode d) (internal_transform d) v (nodeValue d) (staticNode d).
Definition set_nodeValue (v : option Value) (d : DOMNode) : DOMNode :=
  mkNode (nodeName d) (attributes d) (style d) (parentNode d) (childNodes d)
         (yogaNode d) (internal_transform d) (internal_static d) v (staticNode d).
Definition set_staticNode (s : option nat) (d : DOMNode) : DOMNode :=
  mkNode (nodeName d) (attributes d) (style d) (parentNode d) (childNodes d)
         (yogaNode d) (internal_transform d) (internal_static d) (nodeValue d) s.

(** The host adapter: the wrapped node, the node-type code fixed by the
    constructor, and the cached style proxy (the address of its target). *)
Record PreactElement := mkElement {
  node : nat;
  nodeType : option Z;
  _style : option nat
}.

Definition TEXT_NODE : Z := 1.
Definition BOX_NODE : Z := 3.
Definition ROOT_NODE : Z := 4.

(** The table of line 13; a name without an entry reads [undefined]. *)
Definition nodeTypes (n : NodeName) : option Z :=
  match n with
  | InkText => Some TEXT_NODE
  | InkBox => Some BOX_NODE
  | InkRoot => Some ROOT_NODE
  | HashText => Some TEXT_NODE
  | Other _ => None
  end.

Definition node_name (s : string) : NodeName :=
  if String.eqb s "ink-text" then InkText
  else if String.eqb s "ink-box" then InkBox
  else if String.eqb s "ink-root" then InkRoot
  else if String.eqb s "#text" then HashText
  else Other s.

(** The closure a [render] call binds to [PreactElement.scheduleOutput]:
    the session it captured and its own [flush] variable. *)
Record Closure := mkClosure {
  instance : nat;
  flush : option nat
}.

(** An [Ink] session: the root node it owns and the stream it writes to. *)
Record Ink := mkInk {
  rootNode : nat;
  output : nat
}.

Inductive VNode :=
| VText (text : string)
| VElement (type : string) (props : list (string * Value)) (children : list VNode).

(** Calls that leave [preact.ts]. *)
Inductive Event :=
| DomSetStyle (n : nat) (v : Value)
| DomSetAttribute (n : nat) (key : string) (v : Value)
| DomSetTextNodeValue (n : nat) (v : Value)
| DomAppendChildNode (parent child : nat)
| DomRemoveChildNode (parent child : nat)
| DomInsertBeforeNode (parent child : nat) (before : option nat)
| ApplyStyle (handle : nat) (s : gmap string Value)
| Free (handle : nat)
| SetTimeout (timer closure : nat)
| NewInk (i : nat) (out : nat)
| InkRender (i : nat) (v : VNode)
| CalculateLayout (i : nat)
| OnRender (i : nat).

Inductive Error :=
| NotAContainer      (* Error('This is not a container') *)
| NotImplemented     (* Error('Method not implemented.') *)
| TypeError          (* a property of undefined or null is read *)
| Dangling.          (* an address without an object; no well-formed store has one *)

#[global] Instance Error_eq_dec : EqDecision Error.
Proof. solve_decision. Defined.

(** ** The world: every store the module reads or writes

    [elements] holds the adapter objects, [domNode2PreactElement] is the
    side table of line 20, [bound_scheduleOutput] and [root] are the two
    static members of the class ([None] is the initial empty function,
    [Some c] the closure of a [render] call), [timers] is the queue of
    [setTimeout] callbacks that have not run yet, [instances] is the
    session registry, [next] the next unused address. *)
Record World := mkWorld {
  nodes : gmap nat DOMNode;
  styles : gmap nat (gmap string Value);
  elements : gmap nat PreactElement;
  domNode2PreactElement : gmap nat nat;
  bound_scheduleOutput : option nat;
  root : option nat;
  closures : gmap nat Closure;
  timers : list (nat * nat);
  instances : gmap nat nat;
  inks : gmap nat Ink;
  trace : list Event;
  next : nat
}.

Definition upd_nodes (f : gmap nat DOMNode -> gmap nat DOMNode) (w : World) : World :=
  mkWorld (f (nodes w)) (styles w) (elements w) (domNode2PreactElement w)
          (bound_scheduleOutput w) (root w) (closures w) (timers w)
          (instances w) (inks w) (trace w) (next w).
Definition upd_styles (f : gmap nat (gmap string Value) -> gmap nat (gmap string Value))
  (w : World) : World :=
  mkWorld (nodes w) (f (styles w)) (elements w) (domNode2PreactElement w)
          (bound_scheduleOutput w) (root w) (closures w) (timers w)
          (instances w) (inks w) (trace w) (next w).
Definition upd_elements (f : gmap nat PreactElement -> gmap nat PreactElement)
  (w : World) : World :=
  mkWorld (nodes w) (styles w) (f (elements w)) (domNode2PreactElement w)
          (bound_scheduleOutput w) (root w) (closures w) (timers w)
          (instances w) (inks w) (trace w) (next w).
Definition upd_table (f : gmap nat nat -> gmap nat nat) (w : World) : World :=
  mkWorld (nodes w) (styles w) (elements w) (f (domNode2PreactElement w))
          (bound_scheduleOutput w) (root w) (closures w) (timers w)
          (instances w) (inks w) (trace w) (next w).
Definition set_bound (c : option nat) (w : World) : World :=
  mkWorld (nodes w) (styles w) (elements w) (domNode2PreactElement w)
          c (root w) (closures w) (timers w)
          (instances w) (inks w) (trace w) (next w).
Definition set_root (r : option nat) (w : World) : World :=
  mkWorld (nodes w) (styles w) (elements w) (domNode2PreactElement w)
          (bound_scheduleOutput w) r (closures w) (timers w)
          (instances w) (inks w) (trace w) (next w).
Definition upd_closures (f : gmap nat Closure -> gmap nat Closure) (w : World) : World :=
  mkWorld (nodes w) (styles w) (elements w) (domNode2PreactElement w)
          (bound_scheduleOutput w) (root w) (f (closures w)) (timers w)
          (instances w) (inks w) (trace w) (next w).
Definition upd_timers (f : list (nat * nat) -> list (nat * nat)) (w : World) : World :=
  mkWorld (nodes w) (styles w) (elements w) (domNode2PreactElement w)
          (bound_scheduleOutput w) (root w) (closures w) (f (timers w))
          (instances w) (inks w) (trace w) (next w).
Definition upd_instances (f : gmap nat nat -> gmap nat nat) (w : World) : World :=
  mkWorld (nodes w) (styles w) (elements w) (domNode2PreactElement w)
          (bound_scheduleOutput w) (root w) (closures w) (timers w)
          (f (instances w)) (inks w) (trace w) (next w).
Definition upd_inks (f : gmap nat Ink -> gmap nat Ink) (w : World) : World :=
  mkWorld (nodes w) (styles w) (elements w) (domNode2PreactElement w)
          (bound_scheduleOutput w) (root w) (closures w) (timers w)
          (instances w) (f (inks w)) (trace w) (next w).
Definition emit (e : list Event) (w : World) : World :=
  mkWorld (nodes w) (styles w) (elements w) (domNode2PreactElement w)
          (bound_scheduleOutput w) (root w) (closures w) (timers w)
          (instances w) (inks w) ((trace w ++ e)%list) (next w).
Definition bump (w : World) : World :=
  mkWorld (nodes w) (styles w) (elements w) (domNode2PreactElement w)
          (bound_scheduleOutput w) (root w) (closures w) (timers w)
          (instances w) (inks w) (trace w) (S (next w)).

(** The world before the module is used: the side table and the registry
    are empty, [scheduleOutput] is the empty function, [root] is unset. *)
Definition initial : World :=
  mkWorld ∅ ∅ ∅ ∅ None None ∅ [] ∅ ∅ [] 1.

(** ** Computations: a state monad with exceptions

    [Throw] is a JavaScript exception leaving the call, [Diverge] a
    recursion that used up its fuel. *)
Inductive Result (A : Type) :=
| Ok (a : A)
| Throw (e : Error)
| Diverge.
Arguments Ok {A} a.
Arguments Throw {A} e.
Arguments Diverge {A}.

Definition M (A : Type) : Type := World -> Result A * World.

Definition ret {A} (a : A) : M A := fun w => (Ok a, w).
Definition throw {A} (e : Error) : M A := fun w => (Throw e, w).
Definition diverge {A} : M A := fun w => (Diverge, w).
Definition bind {A B} (c : M A) (k : A -> M B) : M B :=
  fun w =>
    match c w with
    | (Ok a, w') => k a w'
    | (Throw e, w') => (Throw e, w')
    | (Diverge, w') => (Diverge, w')
    end.
Definition modify (f : World -> World) : M unit := fun w => (Ok tt, f w).
Definition gets {A} (f : World -> A) : M A := fun w => (Ok (f w), w).
(** A reference is followed; an address without an object ends the call. *)
Definition deref {A} (o : World -> option A) : M A :=
  fun w => match o w with Some a => (Ok a, w) | None => (Throw Dangling, w) end.
Definition alloc : M nat := fun w => (Ok (next w), bump w).

Notation "'do' x <- c ; k" := (bind c (fun x => k))
  (at level 10, x name, c at level 100, k at level 200).
Notation "c ;; k" := (bind c (fun _ => k))
  (at level 100, k at level 200, right associativity).

Definition element (a : nat) : M PreactElement := deref (fun w => elements w !! a).
Definition dom_node (n : nat) : M DOMNode := deref (fun w => nodes w !! n).
Definition upd_node (n : nat) (f : DOMNode -> DOMNode) : M unit :=
  modify (upd_nodes (alter f n)).
Definition log (e : Event) : M unit := modify (emit [e]).

(** ** The target-tree collaborator [dom.js] *)

Module dom.

(** [l.indexOf(x)] followed by [l.splice(index, 1)]. *)
Fixpoint remove_first (x : nat) (l : list nat) : list nat :=
  match l with
  | [] => []
  | y :: r => if decide (y = x) then r else y :: remove_first x r
  end.

(** [x] is placed before the first [before], at the end when there is none. *)
Fixpoint insert_before (x before : nat) (l : list nat) : list nat :=
  match l with
  | [] => [x]
  | y :: r => if decide (y = before) then x :: y :: r else y :: insert_before x before r
  end.

Definition fresh_node (name : NodeName) (style_ref : nat) (text : option Value) : DOMNode :=
  mkNode name ∅ style_ref None [] None VUndefined VUndefined text None.

(** Modelled from the spec: [dom.createTextNode] is not in the sources.
    Node construction (section 6) yields a new text leaf with its own
    style mapping, no parent and no layout handle (section 3: a handle is
    present only once the node is placed under a layout-bearing ancestor). *)
Definition createTextNode (text : string) : M nat :=
  do n <- alloc;
  do s <- alloc;
  modify (upd_styles (<[s := ∅]>));;
  modify (upd_nodes (<[n := fresh_node HashText s (Some (VString text))]>));;
  ret n.

(** Modelled from the spec: [dom.createNode] is not in the sources.
    Node construction (section 6) yields a new node of the given kind with
    no parent, no children and no layout handle. *)
Definition createNode (name : NodeName) : M nat :=
  do n <- alloc;
  do s <- alloc;
  modify (upd_styles (<[s := ∅]>));;
  modify (upd_nodes (<[n := fresh_node name s None]>));;
  ret n.

(** Modelled from the spec: [dom.setAttribute] is not in the sources.  It
    is the generic attribute setter of the target tree (sections 3, 4.2):
    the key is bound to the value in the node's attribute mapping. *)
Definition setAttribute (n : nat) (key : string) (value : Value) : M unit :=
  log (DomSetAttribute n key value);;
  upd_node n (set_attributes (<[key := value]>)).

(** Modelled from the spec: [dom.setStyle] is not in the sources.  The
    node's style mapping becomes the given mapping: a new style object
    holding the fields of the value (none when it is not an object). *)
Definition setStyle (n : nat) (value : Value) : M unit :=
  log (DomSetStyle n value);;
  do s <- alloc;
  modify (upd_styles (<[s := match value with
                             | VObject fields => list_to_map fields
                             | _ => ∅
                             end]>));;
  upd_node n (set_style_ref s).

(** Modelled from the spec: [dom.setTextNodeValue] is not in the sources.
    It updates the node's textual value (section 4.2) to the text it is
    given. *)
Definition setTextNodeValue (n : nat) (text : Value) : M unit :=
  log (DomSetTextNodeValue n text);;
  upd_node n (set_nodeValue (Some text)).

(** The node leaves the child list of its parent, if it has one. *)
Definition detach (child : nat) (h : gmap nat DOMNode) : gmap nat DOMNode :=
  match h !! child with
  | Some c =>
      match parentNode c with
      | Some p =>
          alter (set_parentNode None) child
            (alter (set_childNodes (remove_first child)) p h)
      | None => h
      end
  | None => h
  end.

(** Modelled from the spec: [dom.removeChildNode] is not in the sources.
    It detaches the child from the children of the node (section 4.2). *)
Definition removeChildNode (n child : nat) : M unit :=
  log (DomRemoveChildNode n child);;
  modify (upd_nodes (fun h =>
    alter (set_parentNode None) child
      (alter (set_childNodes (remove_first child)) n h))).

(** Modelled from the spec: [dom.appendChildNode] is not in the sources.
    It moves the child into the node's child list, at the end
    (section 4.2). *)
Definition appendChildNode (n child : nat) : M unit :=
  log (DomAppendChildNode n child);;
  modify (upd_nodes (fun h =>
    alter (set_childNodes (fun l => (l ++ [child])%list)) n
      (alter (set_parentNode (Some n)) child (detach child h)))).

(** Modelled from the spec: [dom.insertBeforeNode] is not in the sources.
    As [appendChildNode], but the child is positioned before the reference
    node, or at the end if the reference is unset (section 4.2). *)
Definition insertBeforeNode (n child : nat) (before : option nat) : M unit :=
  log (DomInsertBeforeNode n child before);;
  modify (upd_nodes (fun h =>
    alter (set_childNodes (fun l =>
             match before with
             | Some b => insert_before child b l
             | None => (l ++ [child])%list
             end)) n
      (alter (set_parentNode (Some n)) child (detach child h)))).

End dom.

(** ** [preact.ts]: the node classification and the static search *)

Definition isContainer (d : DOMNode) : bool :=
  match nodeName d with
  | InkRoot | InkBox | InkText => true
  | _ => false
  end.

(** The [for ... of] loop of [searchStatic]: the first child with a result
    ends the loop; [None] is a recursion that ran out of fuel. *)
Fixpoint first_static (go : nat -> option (option nat)) (cs : list nat)
  : option (option nat) :=
  match cs with
  | [] => Some None
  | c :: r =>
      match go c with
      | None => None
      | Some (Some s) => Some (Some s)
      | Some None => first_static go r
      end
  end.

Fixpoint searchStatic (fuel : nat) (h : gmap nat DOMNode) (n : nat)
  : option (option nat) :=
  match fuel with
  | O => None
  | S f =>
      match h !! n with
      | None => Some None
      | Some d =>
          if truthy (internal_static d) then Some (Some n)
          else match nodeName d with
               | InkRoot | InkBox => first_static (searchStatic f h) (childNodes d)
               | _ => Some None
               end
      end
  end.

(** ** The output scheduler

    The function bound by [render] (lines 318-327): when the closure's
    [flush] is null a timer is started and kept in [flush]. *)
Definition scheduleOutput : M unit :=
  do b <- gets bound_scheduleOutput;
  match b with
  | None => ret tt
  | Some c =>
      do cl <- deref (fun w => closures w !! c);
      match flush cl with
      | None =>
          do t <- alloc;
          log (SetTimeout t c);;
          modify (upd_timers (fun q => (q ++ [(t, c)])%list));;
          modify (upd_closures (<[c := mkClosure (instance cl) (Some t)]>))
      | Some _ => ret tt
      end
  end.

Arguments scheduleOutput : simpl never.

(** The callback of the oldest pending timer runs (lines 320-325):
    [calculateLayout], [onRender], then [flush = null]. *)
Definition run_timer (w : World) : World :=
  match timers w with
  | [] => w
  | (t, c) :: rest =>
      let w1 := upd_timers (fun _ => rest) w in
      match closures w1 !! c with
      | Some cl =>
          upd_closures (<[c := mkClosure (instance cl) None]>)
            (emit [CalculateLayout (instance cl); OnRender (instance cl)] w1)
      | None => w1
      end
  end.

Fixpoint run_timers (k : nat) (w : World) : World :=
  match k with
  | O => w
  | S k' => run_timers k' (run_timer w)
  end.

(** The synchronous code has returned: every pending timer fires. *)
Definition tick (w : World) : World := run_timers (length (timers w)) w.

(** ** The style proxy *)

(** The getter [style] (lines 81-106): the proxy is made on the first read,
    over the style object the node has at that time, and cached. *)
Definition get_style (a : nat) : M nat :=
  do e <- element a;
  match _style e with
  | Some p => ret p
  | None =>
      do d <- dom_node (node e);
      modify (upd_elements (<[a := mkElement (node e) (nodeType e) (Some (style d))]>));;
      ret (style d)
  end.

(** Modelled from the spec: [applyStyle] of [styles.js] is not in the
    sources; it is the layout engine's style-application function
    (section 6) and receives the handle and the style mapping. *)
Definition applyStyle (handle obj : nat) : M unit :=
  do o <- deref (fun w => styles w !! obj);
  log (ApplyStyle handle o).

(** [Reflect.set(obj, prop, v)] and the forwarding that follows it in both
    branches of the trap. *)
Definition store_and_forward (n obj : nat) (prop : string) (v : Value) : M bool :=
  do o <- deref (fun w => styles w !! obj);
  modify (upd_styles (<[obj := <[prop := v]> o]>));;
  do d <- dom_node n;
  match yogaNode d with
  | Some y => applyStyle y obj;; scheduleOutput
  | None => ret tt
  end;;
  ret true.

(** The [set] trap (lines 87-102). *)
Definition style_set (n obj : nat) (prop : string) (value : Value) : M bool :=
  match value with
  | VString s =>
      if test_digits_px s
      then store_and_forward n obj prop (VNumber (toNumber (replace "px" "" s)))
      else store_and_forward n obj prop value
  | _ => store_and_forward n obj prop value
  end.

(** [element.style[prop] = value]. *)
Definition assign_style (a : nat) (prop : string) (value : Value) : M bool :=
  do obj <- get_style a;
  do e <- element a;
  style_set (node e) obj prop value.

(** ** The adapter's setters and container operations *)

Definition set_data (a : nat) (data : Value) : M unit :=
  do e <- element a;
  do d <- dom_node (node e);
  match nodeName d with
  | HashText => dom.setTextNodeValue (node e) (String_ data);; scheduleOutput
  | _ => ret tt
  end.

Definition assign_internal_transform (a : nat) (value : Value) : M unit :=
  do e <- element a;
  upd_node (node e) (set_internal_transform value);;
  scheduleOutput.

Definition when (b : bool) (c : M unit) : M unit := if b then c else ret tt.

Definition setAttribute (fuel : nat) (a : nat) (key : string) (value : Value) : M unit :=
  do e <- element a;
  when (String.eqb key "style") (dom.setStyle (node e) value);;
  when (String.eqb key "internal_transform")
       (upd_node (node e) (set_internal_transform value));;
  when (String.eqb key "internal_static")
       (upd_node (node e) (set_internal_static value);;
        do r <- gets root;
        match r with
        | None => throw TypeError
        | Some rt =>
            if truthy value then upd_node rt (set_staticNode (Some (node e)))
            else
              do h <- gets nodes;
              match searchStatic fuel h rt with
              | None => diverge
              | Some found => upd_node rt (set_staticNode found)
              end
        end);;
  dom.setAttribute (node e) key value;;
  scheduleOutput.

(** The nodes below [n], itself included, in pre-order over the child
    pointers; [None] when the fuel does not reach the leaves. *)
Fixpoint collect {A} (go : nat -> option (list A)) (cs : list nat) : option (list A) :=
  match cs with
  | [] => Some []
  | c :: r =>
      match go c, collect go r with
      | Some x, Some y => Some (x ++ y)%list
      | _, _ => None
      end
  end.

Definition children (h : gmap nat DOMNode) (n : nat) : list nat :=
  match h !! n with
  | Some d => childNodes d
  | None => []
  end.

Fixpoint subtree (fuel : nat) (h : gmap nat DOMNode) (n : nat) : option (list nat) :=
  match fuel with
  | O => None
  | S f =>
      match collect (subtree f h) (children h n) with
      | Some l => Some (n :: l)
      | None => None
      end
  end.

Definition handle_of (h : gmap nat DOMNode) (n : nat) : option nat :=
  match h !! n with
  | Some d => yogaNode d
  | None => None
  end.

Fixpoint released (fuel : nat) (h : gmap nat DOMNode) (n : nat) : option (list nat) :=
  match fuel with
  | O => None
  | S f =>
      match collect (released f h) (children h n) with
      | Some l => Some (option_list (handle_of h n) ++ l)%list
      | None => None
      end
  end.

(** Modelled from the spec: [freeRecursive] belongs to the layout engine
    and is not in the sources.  It is the release operation of a layout
    handle (section 6): every handle under the subtree of the node that
    owns the handle is freed (sections 4.2 and 5). *)
Definition freeRecursive (fuel : nat) (n : nat) : M unit :=
  do h <- gets nodes;
  match released fuel h n with
  | None => diverge
  | Some l => modify (emit (map Free l))
  end.

Definition removeChild (fuel : nat) (a child : nat) : M nat :=
  do e <- element a;
  do thisNode <- dom_node (node e);
  if isContainer thisNode then
    do ce <- element child;
    dom.removeChildNode (node e) (node ce);;
    do childNode <- dom_node (node ce);
    match yogaNode childNode with
    | Some _ => freeRecursive fuel (node ce)
    | None => ret tt
    end;;
    scheduleOutput;;
    ret child
  else throw NotAContainer.

Definition appendChild (a b : nat) : M nat :=
  do e <- element a;
  do thisNode <- dom_node (node e);
  if isContainer thisNode then
    scheduleOutput;;
    do be <- element b;
    dom.appendChildNode (node e) (node be);;
    ret b
  else throw NotAContainer.

Definition insertBefore (a b : nat) (child : option nat) : M nat :=
  do e <- element a;
  do thisNode <- dom_node (node e);
  if isContainer thisNode then
    scheduleOutput;;
    do be <- element b;
    do refNode <- match child with
                  | Some c => do ce <- element c; ret (Some (node ce))
                  | None => ret None
                  end;
    dom.insertBeforeNode (node e) (node be) refNode;;
    ret b
  else throw NotAContainer.

(** The local function [search] of [contains]. *)
Fixpoint any_child (go : nat -> option bool) (cs : list nat) : option bool :=
  match cs with
  | [] => Some false
  | c :: r =>
      match go c with
      | None => None
      | Some true => Some true
      | Some false => any_child go r
      end
  end.

Fixpoint search (fuel : nat) (h : gmap nat DOMNode) (otherNode n : nat) : option bool :=
  match fuel with
  | O => None
  | S f =>
      if decide (n = otherNode) then Some true
      else any_child (search f h otherNode) (children h n)
  end.

Definition contains (fuel : nat) (a : nat) (other : option nat) : M bool :=
  do e <- element a;
  do thisNode <- dom_node (node e);
  if isContainer thisNode then
    match other with
    | None => throw TypeError
    | Some o =>
        do oe <- element o;
        do h <- gets nodes;
        match search fuel h (node oe) (node e) with
        | None => diverge
        | Some b => ret b
        end
    end
  else throw NotAContainer.

(** ** The constructor and the [document] factories *)

Definition new_PreactElement (n : nat) : M nat :=
  do d <- dom_node n;
  do a <- alloc;
  modify (upd_elements (<[a := mkElement n (nodeTypes (nodeName d)) None]>));;
  ret a.

Module document.

Definition createTextNode (text : string) : M nat :=
  do textNode <- dom.createTextNode text;
  do ele <- new_PreactElement textNode;
  modify (upd_table (<[textNode := ele]>));;
  ret ele.

Definition createElementNS (namespaceURI qualifiedName : string) : M nat :=
  if String.prefix "ink-" qualifiedName then
    do n <- dom.createNode (node_name qualifiedName);
    do ele <- new_PreactElement n;
    modify (upd_table (<[n := ele]>));;
    ret ele
  else throw NotImplemented.

End document.

(** ** The adapter's getters *)

(** [WeakMap.prototype.get] with the receiver [this]: [None] is a call
    without a receiver, which is what a method that is passed around as a
    value gets, and is a TypeError.  The key [None] is [undefined], which
    no WeakMap holds. *)
Definition WeakMap_get (this : option (gmap nat nat)) (key : option nat) : M (option nat) :=
  match this with
  | Some m => ret (key ≫= fun k => m !! k)
  | None => throw TypeError
  end.

(** [Array.prototype.map(callbackfn)]: the callback is applied to the
    elements in order, and an exception of a call ends the loop. *)
Fixpoint Array_map {A B} (callbackfn : A -> M B) (l : list A) : M (list B) :=
  match l with
  | [] => ret []
  | x :: r =>
      do y <- callbackfn x;
      do ys <- Array_map callbackfn r;
      ret (y :: ys)
  end.

(** [get attributes] (lines 78-80): [this.node.attributes ?? {}]; a
    node without the property has the empty mapping. *)
Definition get_attributes (a : nat) : M (gmap string Value) :=
  do e <- element a;
  do d <- dom_node (node e);
  ret (attributes d).

(** [get childNodes] (lines 196-202).  [domNode2PreactElement.get] is
    handed to [map] as a value, so [map] calls it without a receiver;
    [filter(Boolean)] keeps the adapters and drops [undefined]. *)
Definition get_childNodes (a : nat) : M (list nat) :=
  do e <- element a;
  do thisNode <- dom_node (node e);
  if isContainer thisNode then
    do found <- Array_map (fun c => WeakMap_get None (Some c)) (childNodes thisNode);
    ret (omap id found)
  else ret [].

(** [get firstChild] (lines 203-209); [None] is [null]. *)
Definition get_firstChild (a : nat) : M (option nat) :=
  do e <- element a;
  do thisNode <- dom_node (node e);
  if isContainer thisNode then
    do tbl <- gets domNode2PreactElement;
    WeakMap_get (Some tbl) (childNodes thisNode !! 0)
  else throw NotAContainer.

(** [l.indexOf(x)]; [None] is -1. *)
Fixpoint indexOf (x : nat) (l : list nat) : option nat :=
  match l with
  | [] => None
  | y :: r => if decide (y = x) then Some 0 else S <$> indexOf x r
  end.

(** [get nextSibling] (lines 210-219). *)
Definition get_nextSibling (a : nat) : M (option nat) :=
  do e <- element a;
  do d <- dom_node (node e);
  match parentNode d with
  | Some p =>
      do pd <- dom_node p;
      match indexOf (node e) (childNodes pd) with
      | Some index =>
          do tbl <- gets domNode2PreactElement;
          WeakMap_get (Some tbl) (childNodes pd !! S index)
      | None => ret None
      end
  | None => ret None
  end.

(** [get parentNode] (lines 220-222); [None] is [undefined]. *)
Definition get_parentNode (a : nat) : M (option nat) :=
  do e <- element a;
  do d <- dom_node (node e);
  do tbl <- gets domNode2PreactElement;
  WeakMap_get (Some tbl) (parentNode d).

(** ** What the reconciler does to the adapters *)

Inductive Mutation :=
| AppendChild (a b : nat)
| InsertBefore (a b : nat) (child : option nat)
| RemoveChild (a b : nat)
| SetAttribute (a : nat) (key : string) (value : Value)
| AssignStyle (a : nat) (prop : string) (value : Value)
| AssignData (a : nat) (data : Value).

Definition perform (fuel : nat) (m : Mutation) : M unit :=
  match m with
  | AppendChild a b => do _ <- appendChild a b; ret tt
  | InsertBefore a b child => do _ <- insertBefore a b child; ret tt
  | RemoveChild a b => do _ <- removeChild fuel a b; ret tt
  | SetAttribute a key value => setAttribute fuel a key value
  | AssignStyle a prop value => do _ <- assign_style a prop value; ret tt
  | AssignData a data => set_data a data
  end.

(** Statements one after another; an exception ends the sequence. *)
Fixpoint perform_all (fuel : nat) (ms : list Mutation) : M unit :=
  match ms with
  | [] => ret tt
  | m :: r => perform fuel m;; perform_all fuel r
  end.

Inductive Op :=
| CreateTextNode (text : string)
| CreateElementNS (namespaceURI qualifiedName : string)
| Mutate (m : Mutation)
| Contains (a : nat) (other : option nat)
| AssignTransform (a : nat) (value : Value)
| ReadAttributes (a : nat)
| ReadChildNodes (a : nat)
| ReadFirstChild (a : nat)
| ReadNextSibling (a : nat)
| ReadParentNode (a : nat).

Definition run_op (fuel : nat) (o : Op) : M unit :=
  match o with
  | CreateTextNode text => do _ <- document.createTextNode text; ret tt
  | CreateElementNS ns qn => do _ <- document.createElementNS ns qn; ret tt
  | Mutate m => perform fuel m
  | Contains a other => do _ <- contains fuel a other; ret tt
  | AssignTransform a value => assign_internal_transform a value
  | ReadAttributes a => do _ <- get_attributes a; ret tt
  | ReadChildNodes a => do _ <- get_childNodes a; ret tt
  | ReadFirstChild a => do _ <- get_firstChild a; ret tt
  | ReadNextSibling a => do _ <- get_nextSibling a; ret tt
  | ReadParentNode a => do _ <- get_parentNode a; ret tt
  end.

Fixpoint run_ops (fuel : nat) (ops : list Op) : M unit :=
  match ops with
  | [] => ret tt
  | o :: r => run_op fuel o;; run_ops fuel r
  end.

(** ** The session registry and [render] *)

(** Streams are objects of the process; three of them are fixed. *)
Definition process_stdout : nat := 0.
Definition process_stdin : nat := 1.
Definition process_stderr : nat := 2.

(** [RenderOptions]: every key may be absent. *)
Record RenderOptions := mkRenderOptions {
  stdout : option nat;
  stdin : option nat;
  stderr : option nat;
  debug : option bool;
  exitOnCtrlC : option bool;
  alternativeScreen : option bool;
  patchConsole : option bool
}.

Record InkOptions := mkInkOptions {
  ink_stdout : nat;
  ink_stdin : nat;
  ink_stderr : nat;
  ink_debug : bool;
  ink_exitOnCtrlC : bool;
  ink_patchConsole : bool;
  ink_alternativeScreen : bool
}.

(** The second argument of [render]: nothing, a stream, or options. *)
Inductive RenderArg :=
| NoOptions
| AStream (s : nat)
| Options (o : RenderOptions).

Definition getOptions (arg : RenderArg) : RenderOptions :=
  match arg with
  | NoOptions => mkRenderOptions None None None None None None None
  | AStream s => mkRenderOptions (Some s) (Some process_stdin) None None None None None
  | Options o => o
  end.

(** The object literal of lines 301-310: the defaults, then the spread. *)
Definition inkOptions (arg : RenderArg) : InkOptions :=
  let o := getOptions arg in
  mkInkOptions (default process_stdout (stdout o))
               (default process_stdin (stdin o))
               (default process_stderr (stderr o))
               (default false (debug o))
               (default true (exitOnCtrlC o))
               (default true (patchConsole o))
               (default false (alternativeScreen o)).

(** Modelled from the spec: the class [Ink] of [ink.js] is not in the
    sources.  A session owns exactly one root node (section 3) and exposes
    it as [rootNode] (section 6); the constructor makes that node. *)
Definition new_Ink (o : InkOptions) : M nat :=
  do r <- dom.createNode InkRoot;
  do i <- alloc;
  modify (upd_inks (<[i := mkInk r (ink_stdout o)]>));;
  log (NewInk i (ink_stdout o));;
  ret i.

Definition getInstance (out : nat) (createInstance : M nat) : M nat :=
  do found <- gets (fun w => instances w !! out);
  match found with
  | Some i => ret i
  | None =>
      do i <- createInstance;
      modify (upd_instances (<[out := i]>));;
      ret i
  end.

(** The object [render] returns: the session its functions act on and the
    stream [cleanup] deregisters. *)
Record Instance := mkInstance {
  handle_instance : nat;
  handle_stdout : nat
}.

(** Modelled from the spec: [Ink.render] is not in the sources; it takes
    the tree submitted to the session (section 6).  The call is recorded. *)
Definition ink_render (i : nat) (v : VNode) : M unit := log (InkRender i v).

Definition rerender (h : Instance) (v : VNode) : M unit :=
  ink_render (handle_instance h) v.

Definition cleanup (h : Instance) : M unit :=
  modify (upd_instances (delete (handle_stdout h))).

Section Render.

(** The reconciler [prender] of preact is not part of the module: for a
    session, a tree and a container adapter it issues a sequence of
    factory calls and adapter operations, which may depend on the world. *)
Variable reconcile : World -> nat -> VNode -> nat -> list Op.

Definition prender (fuel : nat) (i : nat) (v : VNode) (container : nat) : M unit :=
  do w <- gets (fun w => w);
  run_ops fuel (reconcile w i v container).

Definition render (fuel : nat) (v : VNode) (options : RenderArg) : M Instance :=
  let o := inkOptions options in
  do i <- getInstance (ink_stdout o) (new_Ink o);
  do c <- alloc;
  modify (upd_closures (<[c := mkClosure i None]>));;
  modify (set_bound (Some c));;
  do ink <- deref (fun w => inks w !! i);
  modify (set_root (Some (rootNode ink)));;
  ink_render i v;;
  do container <- new_PreactElement (rootNode ink);
  prender fuel i v container;;
  scheduleOutput;;
  ret (mkInstance i (ink_stdout o)).

(** A step of the program: an operation on an adapter, a call of [render]
    or of a function of its result, or the timers firing.  The world a
    throwing call leaves behind is kept. *)
Inductive Call :=
| CallOp (o : Op)
| CallRender (v : VNode) (options : RenderArg)
| CallRerender (h : Instance) (v : VNode)
| CallCleanup (h : Instance)
| CallTick.

Definition call (fuel : nat) (c : Call) (w : World) : World :=
  match c with
  | CallOp o => snd (run_op fuel o w)
  | CallRender v options => snd (render fuel v options w)
  | CallRerender h v => snd (rerender h v w)
  | CallCleanup h => snd (cleanup h w)
  | CallTick => tick w
  end.

Inductive reachable : World -> Prop :=
| reachable_initial : reachable initial
| reachable_call w fuel c : reachable w -> reachable (call fuel c w).

End Render.

(** ** The event listeners (lines 63-77) *)

(** The arrow function [addEventListener] stores: it has captured the
    adapter, the key and the callback. *)
Record Listener := mkListener {
  listener_this : nat;
  listener_type : string;
  listener_callback : nat
}.

(** A call [callee.call(receiver, argument)]. *)
Record Invocation := mkInvocation {
  callee : nat;
  receiver : nat;
  argument : gmap string Value
}.

(** What the stored function does with an event object [e]:
    [callback.call(this, {type: key, ...e})].  The properties of [e] are
    copied after [type] has been written, so they replace it. *)
Definition fire (l : Listener) (e : gmap string Value) : Invocation :=
  mkInvocation (listener_callback l) (listener_this l)
    (e ∪ {["type" := VString (listener_type l)]}).

(** The [events] objects of the nodes are kept in a store of their own,
    by the address of the node; a node without the property has no entry,
    and a slot holds a listener or [undefined]. *)
Definition addEventListener (a : nat) (key : string) (callback : nat) (w : World)
  (events : gmap nat (gmap string (option Listener)))
  : Result unit * gmap nat (gmap string (option Listener)) :=
  match elements w !! a with
  | Some e =>
      match events !! node e with
      | Some o =>
          (Ok tt, <[node e := <[String.append "on" key := Some (mkListener a key callback)]> o]> events)
      | None => (Throw TypeError, events)
      end
  | None => (Throw Dangling, events)
  end.

Definition removeEventListener (a : nat) (key : string) (w : World)
  (events : gmap nat (gmap string (option Listener)))
  : Result unit * gmap nat (gmap string (option Listener)) :=
  match elements w !! a with
  | Some e =>
      match events !! node e with
      | Some o => (Ok tt, <[node e := <[String.append "on" key := None]> o]> events)
      | None => (Throw TypeError, events)
      end
  | None => (Throw Dangling, events)
  end.

(** ** Notions the statements use *)

(** [m] is [n] or is reached from [n] along child pointers. *)
Inductive descendant (h : gmap nat DOMNode) : nat -> nat -> Prop :=
| descendant_self n : descendant h n n
| descendant_child n c m :
    c ∈ children h n -> descendant h c m -> descendant h n m.

(** The search of the static-subtree locator as section 4.4 words it: the
    pre-order of the nodes met from [n] when only root and box nodes are
    descended into. *)
Definition descends (h : gmap nat DOMNode) (n : nat) : bool :=
  match h !! n with
  | Some d => match nodeName d with InkRoot | InkBox => true | _ => false end
  | None => false
  end.

Fixpoint visit (fuel : nat) (h : gmap nat DOMNode) (n : nat) : option (list nat) :=
  match fuel with
  | O => None
  | S f =>
      if descends h n then
        match collect (visit f h) (children h n) with
        | Some l => Some (n :: l)
        | None => None
        end
      else Some [n]
  end.

Definition is_static (h : gmap nat DOMNode) (n : nat) : bool :=
  match h !! n with
  | Some d => truthy (internal_static d)
  | None => false
  end.

(** The slot [staticNode] of the node [PreactElement.root] points to. *)
Definition root_staticNode (w : World) : option nat :=
  match root w with
  | Some r => match nodes w !! r with Some d => staticNode d | None => None end
  | None => None
  end.

(** The node an adapter wraps. *)
Definition wrapped (w : World) (a : nat) : option DOMNode :=
  match elements w !! a with
  | Some e => nodes w !! node e
  | None => None
  end.

(** The mutations that reach a call of [scheduleOutput] in the world [w]:
    the container operations on a container, [setAttribute], a style
    assignment on a node that has a layout handle, a text assignment on a
    ['#text'] node. *)
Definition calls_scheduler (m : Mutation) (w : World) : bool :=
  match m with
  | AppendChild a _ | InsertBefore a _ _ | RemoveChild a _ =>
      match wrapped w a with Some d => isContainer d | None => false end
  | SetAttribute _ _ _ => true
  | AssignStyle a _ _ =>
      match wrapped w a with
      | Some d => match yogaNode d with Some _ => true | None => false end
      | None => false
      end
  | AssignData a _ =>
      match wrapped w a with
      | Some d => match nodeName d with HashText => true | _ => false end
      | None => false
      end
  end.

(** The event of [scheduleOutput] starting its timer. *)
Definition is_timeout (e : Event) : bool :=
  match e with
  | SetTimeout _ _ => true
  | _ => false
  end.

(** The events of the combined recompute-and-paint routine. *)
Definition is_paint (e : Event) : bool :=
  match e with
  | CalculateLayout _ | OnRender _ => true
  | _ => false
  end.

(** ** Invariants of computations

    [preserves P c]: whatever the outcome of [c], the world it leaves
    satisfies [P] when the world it started from does. *)

Definition preserves {A} (P : World -> Prop) (c : M A) : Prop :=
  forall w, P w -> P (snd (c w)).

(** The bound closure is [c], it belongs to session [i], and the timer
    queue holds its timer, and nothing else, exactly when its [flush] is
    set. *)
Definition sched_ok (c i : nat) (w : World) : Prop :=
  bound_scheduleOutput w = Some c /\
  exists cl, closures w !! c = Some cl /\ instance cl = i /\
             timers w = match flush cl with Some t => [(t, c)] | None => [] end.

Definition pending (c : nat) (w : World) : Prop :=
  exists cl t, closures w !! c = Some cl /\ flush cl = Some t.

(** [ensures P c Q]: from a world in [P], a call of [c] that returns
    leaves a world in [Q]. *)
Definition ensures {A} (P : World -> Prop) (c : M A) (Q : World -> Prop) : Prop :=
  forall w, P w -> forall a w', c w = (Ok a, w') -> Q w'.

(** The trace of [w] is the trace of [w0] followed by events none of which
    is a call of the recompute-and-paint routine. *)
Definition extends_sync (w0 w : World) : Prop :=
  exists seg, trace w = (trace w0 ++ seg)%list /\
              Forall (fun e => is_paint e = false) seg.

(** The bound closure, if there is one, is in the store. *)
Definition sched_wf (w : World) : Prop :=
  match bound_scheduleOutput w with
  | Some c => is_Some (closures w !! c)
  | None => True
  end.

(** [w'] differs from [w] in the state of the scheduler at most: the
    closures, the timer queue, the trace and the next address. *)
Definition scheduler_only (w w' : World) : Prop :=
  nodes w' = nodes w /\ styles w' = styles w /\ elements w' = elements w /\
  domNode2PreactElement w' = domNode2PreactElement w /\
  bound_scheduleOutput w' = bound_scheduleOutput w /\ root w' = root w /\
  instances w' = instances w /\ inks w' = inks w.

(** An update of a node that keeps its name and its children. *)
Definition keeps_shape (f : DOMNode -> DOMNode) : Prop :=
  forall d, nodeName (f d) = nodeName d /\ childNodes (f d) = childNodes d.



Definition set_yogaNode (y : option nat) (d : DOMNode) : DOMNode :=
  mkNode (nodeName d) (attributes d) (style d) (parentNode d) (childNodes d)
         y (internal_transform d) (internal_static d) (nodeValue d) (staticNode d).

(** The layout engine gives the node [n] the handle [k]; no function of
    [preact.ts] does. *)
Definition attach_handle (n k : nat) (w : World) : World :=
  upd_nodes (alter (set_yogaNode (Some k)) n) w.


(** What the set trap hands to the layout engine for a node [d] whose
    style mapping has become [o]. *)
Definition forwarded (d : DOMNode) (o : gmap string Value) : list Event :=
  match yogaNode d with
  | Some y => [ApplyStyle y o]
  | None => []
  end.

(** The target tree after [setAttribute(key, value)] on the node [n], when
    [PreactElement.root] is [rt] and the static slot receives [found]:
    [dom.setStyle] gives the node the style object just allocated. *)
Definition after_setAttribute (w : World) (n : nat) (key : string)
  (value : Value) (rt : nat) (found : option nat) : gmap nat DOMNode :=
  let h0 := nodes w in
  let h1 := if String.eqb key "style"
            then alter (set_style_ref (next w)) n h0 else h0 in
  let h2 := if String.eqb key "internal_transform"
            then alter (set_internal_transform value) n h1 else h1 in
  let h3 := if String.eqb key "internal_static"
            then alter (set_staticNode found) rt
                   (alter (set_internal_static value) n h2)
            else h2 in
  alter (set_attributes (<[key := value]>)) n h3.

(** The event of a session being constructed. *)
Definition constructs (e : Event) : bool :=
  match e with NewInk _ _ => true | _ => false end.

Definition extends_without (p : Event -> bool) (w0 w : World) : Prop :=
  exists seg, trace w = trace w0 ++ seg /\ Forall (fun e => p e = false) seg.


(** Between [w0] and [w] the registry and the sessions are the same and
    no session was constructed. *)
Definition registry_kept (w0 w : World) : Prop :=
  (instances w = instances w0 /\ inks w = inks w0) /\
  extends_without constructs w0 w.


(** The world [getInstance] leaves when it constructs a session for the
    stream of [o]: a root node and its style object, the session, its
    event, the registry entry. *)
Definition constructed (o : InkOptions) (w : World) : World :=
  upd_instances (<[ink_stdout o := S (S (next w))]>)
    (emit [NewInk (S (S (next w))) (ink_stdout o)]
       (upd_inks (<[S (S (next w)) := mkInk (next w) (ink_stdout o)]>)
          (bump
             (upd_nodes (<[next w := dom.fresh_node InkRoot (S (next w)) None]>)
                (upd_styles (<[S (next w) := ∅]>) (bump (bump w))))))).


(** The world in which [render] hands the tree to the reconciler: a new
    closure with a null [flush] is bound to [scheduleOutput], [root] is
    the session's root node, [Ink.render] has been called and a new
    adapter wraps the root node [d]. *)
Definition bound_to (i root_node : nat) (d : DOMNode) (v : VNode) (w : World) : World :=
  upd_elements
    (<[S (next w) := mkElement root_node (nodeTypes (nodeName d)) None]>)
    (bump
       (emit [InkRender i v]
          (set_root (Some root_node)
             (set_bound (Some (next w))
                (upd_closures (<[next w := mkClosure i None]>) (bump w)))))).


(** Since [w0]: the closure [c], of session [i], is the one bound to
    [scheduleOutput]; no other closure has changed, and every timer that
    was started is a timer of [c]. *)
Definition bound_closure (c i : nat) (w0 w : World) : Prop :=
  bound_scheduleOutput w = Some c /\
  (exists cl, closures w !! c = Some cl /\ instance cl = i) /\
  (forall c', c' <> c -> closures w !! c' = closures w0 !! c') /\
  (forall tc, tc ∈ timers w -> tc ∈ timers w0 \/ tc.2 = c).


(** ** The adapters and the side table *)

(** [n] is the root node of a session. *)
Definition root_of (ks : gmap nat Ink) (n : nat) : Prop :=
  exists i k, ks !! i = Some k /\ rootNode k = n.

(** Two adapters of one node are the same adapter, unless the node is the
    root node of a session. *)
Definition unique_off_root (els : gmap nat PreactElement) (ks : gmap nat Ink) : Prop :=
  forall a1 a2 e1 e2,
    els !! a1 = Some e1 -> els !! a2 = Some e2 -> node e1 = node e2 ->
    a1 = a2 \/ root_of ks (node e1).

(** An entry of the side table is the adapter of its node. *)
Definition table_sound (els : gmap nat PreactElement) (tbl : gmap nat nat) : Prop :=
  forall n a, tbl !! n = Some a -> exists e, els !! a = Some e /\ node e = n.

(** The adapter of a node that is not the root node of a session is in
    the side table. *)
Definition registered_off_root (els : gmap nat PreactElement) (tbl : gmap nat nat)
  (ks : gmap nat Ink) : Prop :=
  forall a e, els !! a = Some e -> root_of ks (node e) \/ tbl !! node e = Some a.

Definition adapters_ok (w : World) : Prop :=
  unique_off_root (elements w) (inks w) /\
  table_sound (elements w) (domNode2PreactElement w) /\
  registered_off_root (elements w) (domNode2PreactElement w) (inks w).

(** The invariant that carries [adapters_ok]: moreover the adapters, the
    nodes they wrap, the sessions and their root nodes are at addresses
    below [nx], the next one to be allocated. *)
Definition inv_on (els : gmap nat PreactElement) (tbl : gmap nat nat)
  (ks : gmap nat Ink) (nx : nat) : Prop :=
  unique_off_root els ks /\ table_sound els tbl /\ registered_off_root els tbl ks /\
  (forall a e, els !! a = Some e -> a < nx /\ node e < nx) /\
  (forall i k, ks !! i = Some k -> i < nx /\ rootNode k < nx).

Definition Inv (w : World) : Prop :=
  inv_on (elements w) (domNode2PreactElement w) (inks w) (next w).

(** ** Worlds used as examples *)

(** A reconciler that issues nothing. *)
Definition idle : World -> nat -> VNode -> nat -> list Op := fun _ _ _ _ => [].

(** A reconciler that starts as preact's [render] does with a container
    it has not rendered into before: it reads [firstChild] of the
    container and, when there is one, [childNodes], to take over the
    children that exist; into an empty container it puts a text node made
    by the factory. *)
Definition adopting : World -> nat -> VNode -> nat -> list Op :=
  fun w _ v container =>
    ReadFirstChild container ::
    match fst (get_firstChild container w) with
    | Ok (Some _) => [ReadChildNodes container]
    | _ => [CreateTextNode (match v with VText t => t | VElement _ _ _ => "" end);
            Mutate (AppendChild container (S (S (next w))))]
    end.

(** One session on [process.stdout], its first pass done, and a text node
    made by the factory: the root adapter is 5 (node 1), the text adapter
    is 9 (node 7), the bound closure is 4, the session is 3. *)
Definition one_session : World :=
  snd (document.createTextNode "hi"
         (tick (snd (render idle 8 (VText "hi") NoOptions initial)))).

(** [one_session] with one more node, an ['ink-text'] element made by the
    factory: its adapter is 12 (node 10). *)
Definition with_ink_text : World :=
  snd (document.createElementNS "" "ink-text" one_session).

(** [one_session] after the text node has been appended to the root. *)
Definition text_under_root : World :=
  snd (appendChild 5 9 one_session).

(** A root with two boxes below it, both flagged static, the second one
    last: the adapters are 9 (node 7) and 12 (node 10), and the slot of
    the root holds node 10. *)
Definition two_static : World :=
  snd (run_ops 2
         [CreateElementNS "" "ink-box"; CreateElementNS "" "ink-box";
          Mutate (AppendChild 5 9); Mutate (AppendChild 5 12);
          Mutate (SetAttribute 9 "internal_static" (VBool true));
          Mutate (SetAttribute 12 "internal_static" (VBool true))]
         (tick (snd (render idle 8 (VText "hi") NoOptions initial)))).

(** A root (node 1, adapter 5) over a box (node 7, adapter 9) over an
    ['ink-text'] element (node 10, adapter 12); the first pass is done and
    the layout engine has given the three nodes the handles 100, 101, 102. *)
Definition laid_out : World :=
  attach_handle 1 100 (attach_handle 7 101 (attach_handle 10 102
    (tick (snd (run_ops 2
                  [CreateElementNS "" "ink-box"; CreateElementNS "" "ink-text";
                   Mutate (AppendChild 9 12); Mutate (AppendChild 5 9)]
                  (tick (snd (render idle 8 (VText "hi") NoOptions initial)))))))).

(** One session on [process.stdout], its first pass done (the stores of
    [one_session] before the text node is made). *)
Definition first_session : World :=
  tick (snd (render idle 8 (VText "a") NoOptions initial)).


(** Two [render] calls on [process.stdout], one after the other. *)
Definition rendered_twice : World :=
  call idle 8 (CallRender (VText "b") NoOptions)
    (call idle 8 (CallRender (VText "a") NoOptions) initial).

(** ** Notions of the further properties *)

(** A factory call has made the adapter [a] in [w']: it is new, it wraps
    a node [n] that no adapter of [w] wraps, it has the type code of the
    node's name and no style proxy yet, the side table maps [n] to it,
    the node is as the target tree made it, and no timer was started. *)
Definition registered_new (w w' : World) (a : nat) (name : NodeName)
  (text : option Value) : Prop :=
  exists n s,
    elements w !! a = None /\
    (forall a0 e0, elements w !! a0 = Some e0 -> node e0 <> n) /\
    elements w' !! a = Some (mkElement n (nodeTypes name) None) /\
    domNode2PreactElement w' !! n = Some a /\
    nodes w' !! n = Some (dom.fresh_node name s text) /\
    timers w' = timers w.

(** Since [w0]: [scheduleOutput] is still the empty function, no timer
    was started and no closure was touched. *)
Definition inert_since (w0 w : World) : Prop :=
  bound_scheduleOutput w = None /\ timers w = timers w0 /\
  closures w = closures w0 /\ extends_without is_timeout w0 w.

(** What the callback of the timer [tc] calls: the recompute-and-paint
    routine of the session its closure captured. *)
Definition paints (cs : gmap nat Closure) (tc : nat * nat) : list Event :=
  match cs !! tc.2 with
  | Some cl => [CalculateLayout (instance cl); OnRender (instance cl)]
  | None => []
  end.

(** The closure after its callback has run: [flush] is null again. *)
Definition cleared (cl : Closure) : Closure := mkClosure (instance cl) None.

(** As [sched_ok], over a queue that already held the timers [T]. *)
Definition sched_after (T : list (nat * nat)) (c i : nat) (w : World) : Prop :=
  bound_scheduleOutput w = Some c /\
  exists cl, closures w !! c = Some cl /\ instance cl = i /\
             timers w = T ++ match flush cl with Some t => [(t, c)] | None => [] end.

(** The closures and the closures of the queued timers have been
    allocated, and when [scheduleOutput] is bound, the queue is made of
    timers of other closures followed by the timer of the bound closure,
    if the [flush] of that closure is set. *)
Definition queue_ok (w : World) : Prop :=
  (forall c cl, closures w !! c = Some cl -> c < next w) /\
  (forall tc, tc ∈ timers w -> tc.2 < next w) /\
  forall c, bound_scheduleOutput w = Some c ->
    exists T i, sched_after T c i w /\ Forall (fun tc => tc.2 <> c) T.

(** The slot ['on' + key] of the [events] object of the node [n]. *)
Definition slot (events : gmap nat (gmap string (option Listener))) (n : nat)
  (key : string) : option (option Listener) :=
  events !! n ≫= fun o => o !! String.append "on" key.

(** The attribute mapping of the node at [n]. *)
Definition attributes_of (h : gmap nat DOMNode) (n : nat) : option (gmap string Value) :=
  attributes <$> h !! n.

(** The name of the node at [n]. *)
Definition name_of (h : gmap nat DOMNode) (n : nat) : option NodeName :=
  nodeName <$> h !! n.

(** Every adapter wraps a node of the tree, and its [nodeType] is the
    code of the name that node has. *)
Definition typed (els : gmap nat PreactElement) (h : gmap nat DOMNode) : Prop :=
  forall a e, els !! a = Some e ->
    exists nm, name_of h (node e) = Some nm /\ nodeType e = nodeTypes nm.

(** The side table has no entry for the root node of a session. *)
Definition unregistered_roots (tbl : gmap nat nat) (ks : gmap nat Ink) : Prop :=
  forall n, root_of ks n -> tbl !! n = None.

(** The adapters of [w0] are adapters of [w], of the same node and with
    the same [nodeType]. *)
Definition adapters_kept (w0 w : World) : Prop :=
  forall a e, elements w0 !! a = Some e ->
    exists e', elements w !! a = Some e' /\ node e' = node e /\ nodeType e' = nodeType e.

Definition Inv2 (w0 w : World) : Prop :=
  Inv w /\ unregistered_roots (domNode2PreactElement w) (inks w) /\
  typed (elements w) (nodes w) /\ adapters_kept w0 w.

(** ** Further worlds used as examples *)

(** [one_session] reached call by call, with the text node (node 7,
    adapter 9) appended to the root (node 1, adapter 5). *)
Definition attached : World :=
  call idle 2 (CallOp (Mutate (AppendChild 5 9)))
    (call idle 2 (CallOp (CreateTextNode "hi"))
       (call idle 8 CallTick
          (call idle 8 (CallRender (VText "hi") NoOptions) initial))).

(** [laid_out] after the style proxy of the box (adapter 9, node 7) has
    been read, which makes it over the style object 8, and the box has
    then been given another style object (14) by [setAttribute]. *)
Definition restyled : World :=
  snd (setAttribute 1 9 "style" (VObject [("width", VNumber (Num 5))])
         (snd (get_style 9 laid_out))).

(** A root (node 1, adapter 5) over a box without a layout handle
    (node 10, adapter 12) over a box that has the handle 200 (node 7,
    adapter 9). *)
Definition handle_below : World :=
  attach_handle 7 200
    (tick (snd (run_ops 2
                  [CreateElementNS "" "ink-box"; CreateElementNS "" "ink-box";
                   Mutate (AppendChild 12 9); Mutate (AppendChild 5 12)]
                  (tick (snd (render idle 8 (VText "hi") NoOptions initial)))))).

(* ------------------------------------------------------------------ *)
(** * Properties *)

(** ** The classification and the pattern, on examples *)

Example nodeTypes_text : nodeTypes InkText = Some 1%Z /\ nodeTypes HashText = Some 1%Z.
Proof. split; reflexivity. Qed.
Example nodeTypes_box_root : nodeTypes InkBox = Some 3%Z /\ nodeTypes InkRoot = Some 4%Z.
Proof. split; reflexivity. Qed.
Example node_name_virtual : node_name "ink-virtual-text" = Other "ink-virtual-text".
Proof. reflexivity. Qed.
Example normalise_10px : normalise (VString "10px") = VNumber (Num 10).
Proof. reflexivity. Qed.
Example normalise_percent : normalise (VString "10%") = VString "10%".
Proof. reflexivity. Qed.
Example normalise_auto : normalise (VString "auto") = VString "auto".
Proof. reflexivity. Qed.
Example normalise_number : normalise (VNumber (Num 10)) = VNumber (Num 10).
Proof. reflexivity. Qed.
Example normalise_px_then_text : normalise (VString "10px solid") = VNumber NaN.
Proof. reflexivity. Qed.
Example normalise_px_then_exponent :
  normalise (VString "10pxe3") = VNumber (NumLiteral "10e3").
Proof. reflexivity. Qed.
Example normalise_px_then_no_break_space :
  normalise (VString (String.append "10px" (String "194" (String "160" ""))))
  = VNumber (Num 10).
Proof. reflexivity. Qed.
Example toNumber_trims_wide_space :
  toNumber (String "226" (String "128" (String "168"
             (String.append " 7" (String "239" (String "187" (String "191" "")))))))
  = Num 7.
Proof. reflexivity. Qed.
Example String_of_values :
  String_ (VNumber (Num 5)) = VString "5" /\
  String_ (VNumber (Num (-12))) = VString "-12" /\
  String_ (VBool true) = VString "true" /\
  String_ VUndefined = VString "undefined" /\
  String_ (VObject [("a", VNull)]) = VString "[object Object]" /\
  String_ (VString "hi") = VString "hi".
Proof. repeat split; reflexivity. Qed.

(** ** Lists of children *)

Lemma collect_Some {A} (go : nat -> option (list A)) cs l :
  collect go cs = Some l ->
  Forall (fun c => is_Some (go c)) cs.
Proof.
  revert l. induction cs as [|c r IH]; intros l H; [constructor|].
  simpl in H. destruct (go c) eqn:Hc; [|discriminate].
  destruct (collect go r) eqn:Hr; [|discriminate].
  constructor; eauto.
Qed.

Lemma collect_elem {A} (go : nat -> option (list A)) cs l x :
  collect go cs = Some l ->
  x ∈ l <-> exists c lc, c ∈ cs /\ go c = Some lc /\ x ∈ lc.
Proof.
  revert l. induction cs as [|c r IH]; intros l H; simpl in H.
  - injection H as <-. split.
    + intros Hx. inversion Hx.
    + intros (c & lc & Hc & _). inversion Hc.
  - destruct (go c) as [lc|] eqn:Hc; [|discriminate].
    destruct (collect go r) as [lr|] eqn:Hr; [|discriminate].
    injection H as <-. rewrite elem_of_app. split.
    + intros [Hx|Hx].
      * exists c, lc. split; [left|]; auto.
      * apply (IH lr eq_refl) in Hx as (c' & lc' & ? & ? & ?).
        exists c', lc'. split; [right|]; auto.
    + intros (c' & lc' & Hin & Hgo & Hx).
      apply elem_of_cons in Hin as [->|Hin].
      * left. congruence.
      * right. apply (IH lr eq_refl). eauto.
Qed.

Lemma collect_ext {A} (go go' : nat -> option (list A)) cs :
  Forall (fun c => go' c = go c) cs -> collect go' cs = collect go cs.
Proof.
  induction 1 as [|c r Hc _ IH]; simpl; [reflexivity|].
  rewrite Hc, IH. reflexivity.
Qed.

(** ** The subtree of a node and its descendants *)

Lemma subtree_head fuel h n l :
  subtree fuel h n = Some l -> exists l', l = n :: l'.
Proof.
  destruct fuel; simpl; [discriminate|].
  destruct (collect _ _); [|discriminate]. intros [= <-]. eauto.
Qed.

Lemma subtree_descendant fuel h n l :
  subtree fuel h n = Some l -> forall x, x ∈ l <-> descendant h n x.
Proof.
  revert n l. induction fuel as [|f IH]; intros n l H x; [discriminate|].
  simpl in H. destruct (collect (subtree f h) (children h n)) as [l'|] eqn:Hc;
    [|discriminate].
  injection H as <-. rewrite elem_of_cons, (collect_elem _ _ _ x Hc). split.
  - intros [->|(c & lc & Hin & Hs & Hx)].
    + constructor.
    + econstructor; [exact Hin|]. apply (IH _ _ Hs). exact Hx.
  - intros Hd. revert f IH l' Hc. induction Hd as [n|n c m Hin Hd IHd];
      intros f IH l' Hc; [left; reflexivity|].
    right. pose proof (collect_Some _ _ _ Hc) as Hall.
    rewrite Forall_forall in Hall. destruct (Hall c Hin) as [lc Hlc].
    exists c, lc. repeat split; auto.
    apply (IH _ _ Hlc). exact Hd.
Qed.


(** ** [contains]: the local search *)

Lemma any_child_collect (go : nat -> option bool) (sub : nat -> option (list nat))
      (t : nat) cs l :
  collect sub cs = Some l ->
  Forall (fun c => forall lc, sub c = Some lc -> go c = Some (bool_decide (t ∈ lc))) cs ->
  any_child go cs = Some (bool_decide (t ∈ l)).
Proof.
  revert l. induction cs as [|c r IH]; intros l Hc Hall; cbn [collect any_child] in *.
  - injection Hc as <-. rewrite bool_decide_eq_false_2; [reflexivity|].
    intros H. inversion H.
  - destruct (sub c) as [lc|] eqn:Hs; [|discriminate].
    destruct (collect sub r) as [lr|] eqn:Hr; [|discriminate].
    injection Hc as <-. inversion Hall as [|? ? Hgo Hrest]; subst.
    rewrite (Hgo lc Hs). destruct (bool_decide (t ∈ lc)) eqn:Hb.
    + apply bool_decide_eq_true in Hb. f_equal. symmetry.
      apply bool_decide_eq_true. apply elem_of_app. left. exact Hb.
    + apply bool_decide_eq_false in Hb. rewrite (IH lr eq_refl Hrest).
      f_equal. apply bool_decide_ext. rewrite elem_of_app. tauto.
Qed.

Lemma search_subtree fuel h t n l :
  subtree fuel h n = Some l ->
  search fuel h t n = Some (bool_decide (t ∈ l)).
Proof.
  revert n l. induction fuel as [|f IH]; intros n l H; [discriminate|].
  simpl in *. destruct (collect (subtree f h) (children h n)) as [l'|] eqn:Hc;
    [|discriminate].
  injection H as <-. destruct (decide (n = t)) as [->|Hne].
  - f_equal. symmetry. apply bool_decide_eq_true. left.
  - rewrite (any_child_collect _ _ t _ _ Hc).
    + f_equal. apply bool_decide_ext. rewrite elem_of_cons. split; [tauto|].
      intros [->|?]; [contradiction|assumption].
    + rewrite Forall_forall. intros c _ lc Hlc. apply IH. exact Hlc.
Qed.

(** ** [searchStatic] and the pre-order of section 4.4 *)

Lemma find_app {A} (p : A -> bool) (x y : list A) :
  List.find p (x ++ y) =
  match List.find p x with Some a => Some a | None => List.find p y end.
Proof.
  induction x as [|a x IH]; simpl; [reflexivity|].
  destruct (p a); [reflexivity|exact IH].
Qed.

Lemma first_static_collect (go : nat -> option (option nat))
      (sub : nat -> option (list nat)) (p : nat -> bool) cs l :
  collect sub cs = Some l ->
  Forall (fun c => forall lc, sub c = Some lc -> go c = Some (List.find p lc)) cs ->
  first_static go cs = Some (List.find p l).
Proof.
  revert l. induction cs as [|c r IH]; intros l Hc Hall; simpl in *.
  - injection Hc as <-. reflexivity.
  - destruct (sub c) as [lc|] eqn:Hs; [|discriminate].
    destruct (collect sub r) as [lr|] eqn:Hr; [|discriminate].
    injection Hc as <-. inversion Hall as [|? ? Hgo Hrest]; subst.
    rewrite (Hgo lc Hs), find_app.
    destruct (List.find p lc); [reflexivity|].
    apply IH; auto.
Qed.

Lemma searchStatic_visit fuel h n l :
  visit fuel h n = Some l ->
  searchStatic fuel h n = Some (List.find (is_static h) l).
Proof.
  revert n l. induction fuel as [|f IH]; intros n l H; [discriminate|].
  simpl in *. unfold descends, children, is_static in *.
  destruct (h !! n) as [d|] eqn:Hn.
  - destruct (truthy (internal_static d)) eqn:Ht.
    + assert (exists l', l = n :: l') as [l' ->].
      { destruct (nodeName d); try (injection H as <-; eauto);
          destruct (collect _ _); try discriminate; injection H as <-; eauto. }
      simpl. rewrite Hn, Ht. reflexivity.
    + assert (forall l',
        collect (visit f h) (childNodes d) = Some l' ->
        first_static (searchStatic f h) (childNodes d) =
        Some (List.find (fun x => match h !! x with
                              | Some d => truthy (internal_static d)
                              | None => false end) l')) as Hrec.
      { intros l' Hc. apply (first_static_collect _ _ _ _ _ Hc).
        rewrite Forall_forall. intros c _ lc Hlc. apply IH. exact Hlc. }
      destruct (nodeName d);
        try (injection H as <-; simpl; rewrite Hn, Ht; reflexivity);
        destruct (collect (visit f h) (childNodes d)) as [l'|] eqn:Hc;
        try discriminate; injection H as <-; simpl; rewrite Hn, Ht;
        apply Hrec; reflexivity.
  - injection H as <-. simpl. rewrite Hn. reflexivity.
Qed.

(** ** The handles released below a node *)



Lemma preserves_bind {A B} P (c : M A) (k : A -> M B) :
  preserves P c -> (forall a, preserves P (k a)) -> preserves P (bind c k).
Proof.
  intros Hc Hk w Hw. unfold bind. specialize (Hc w Hw).
  destruct (c w) as [[a| |] w']; simpl in *; auto. apply Hk, Hc.
Qed.

Lemma preserves_ret {A} P (a : A) : preserves P (ret a).
Proof. intros w Hw. exact Hw. Qed.
Lemma preserves_throw {A} P e : preserves P (@throw A e).
Proof. intros w Hw. exact Hw. Qed.
Lemma preserves_diverge {A} P : preserves P (@diverge A).
Proof. intros w Hw. exact Hw. Qed.
Lemma preserves_gets {A} P (f : World -> A) : preserves P (gets f).
Proof. intros w Hw. exact Hw. Qed.
Lemma preserves_deref {A} P (f : World -> option A) : preserves P (deref f).
Proof. intros w Hw. unfold deref. destruct (f w); exact Hw. Qed.
Lemma preserves_modify P f :
  (forall w, P w -> P (f w)) -> preserves P (modify f).
Proof. intros Hf w Hw. apply Hf, Hw. Qed.
Lemma preserves_alloc P :
  (forall w, P w -> P (bump w)) -> preserves P alloc.
Proof. intros Hf w Hw. apply Hf, Hw. Qed.

Lemma preserves_WeakMap_get P this key : preserves P (WeakMap_get this key).
Proof. intros w Hw. destruct this; exact Hw. Qed.

Lemma preserves_Array_map {A B} P (f : A -> M B) l :
  (forall x, preserves P (f x)) -> preserves P (Array_map f l).
Proof.
  intros Hf. induction l as [|x r IH]; simpl; [apply preserves_ret|].
  apply preserves_bind; [apply Hf|]. intros y.
  apply preserves_bind; [exact IH|]. intros ys. apply preserves_ret.
Qed.

(** The getters change nothing. *)
Lemma preserves_getters P a :
  preserves P (get_attributes a) /\ preserves P (get_childNodes a) /\
  preserves P (get_firstChild a) /\ preserves P (get_nextSibling a) /\
  preserves P (get_parentNode a).
Proof.
  unfold get_attributes, get_childNodes, get_firstChild, get_nextSibling,
    get_parentNode, element, dom_node.
  repeat split;
    repeat lazymatch goal with
      | |- preserves _ (bind _ _) => apply preserves_bind; [|intros ?]
      | |- preserves _ (ret _) => apply preserves_ret
      | |- preserves _ (throw _) => apply preserves_throw
      | |- preserves _ (gets _) => apply preserves_gets
      | |- preserves _ (deref _) => apply preserves_deref
      | |- preserves _ (WeakMap_get _ _) => apply preserves_WeakMap_get
      | |- preserves _ (Array_map _ _) =>
          apply preserves_Array_map; intros ?; apply preserves_WeakMap_get
      | |- preserves _ (match ?x with _ => _ end) => destruct x
      end.
Qed.

Ltac preserves_getter :=
  lazymatch goal with
  | |- preserves ?P (get_attributes ?a) => exact (proj1 (preserves_getters P a))
  | |- preserves ?P (get_childNodes ?a) =>
      exact (proj1 (proj2 (preserves_getters P a)))
  | |- preserves ?P (get_firstChild ?a) =>
      exact (proj1 (proj2 (proj2 (preserves_getters P a))))
  | |- preserves ?P (get_nextSibling ?a) =>
      exact (proj1 (proj2 (proj2 (proj2 (preserves_getters P a)))))
  | |- preserves ?P (get_parentNode ?a) =>
      exact (proj2 (proj2 (proj2 (proj2 (preserves_getters P a)))))
  end.

(** The structure of a computation is followed down to its [modify]
    leaves, which [leaf] settles; calls of [scheduleOutput] are left to
    [sched]. *)
Ltac preserves_with sched leaf :=
  repeat
    (unfold perform, appendChild, insertBefore, removeChild, setAttribute,
       assign_style, set_data, assign_internal_transform, contains,
       style_set, store_and_forward, applyStyle, get_style, freeRecursive,
       when, run_op, document.createTextNode, document.createElementNS,
       new_PreactElement, dom.createTextNode, dom.createNode,
       dom.setAttribute, dom.setStyle, dom.setTextNodeValue,
       dom.removeChildNode, dom.appendChildNode, dom.insertBeforeNode,
       element, dom_node, upd_node, log, ink_render, rerender, cleanup,
       new_Ink, getInstance;
     lazymatch goal with
     | |- preserves _ scheduleOutput => sched
     | |- preserves _ (get_attributes _) => preserves_getter
     | |- preserves _ (get_childNodes _) => preserves_getter
     | |- preserves _ (get_firstChild _) => preserves_getter
     | |- preserves _ (get_nextSibling _) => preserves_getter
     | |- preserves _ (get_parentNode _) => preserves_getter
     | |- preserves _ (bind _ _) => apply preserves_bind; [|intros ?]
     | |- preserves _ (ret _) => apply preserves_ret
     | |- preserves _ (throw _) => apply preserves_throw
     | |- preserves _ diverge => apply preserves_diverge
     | |- preserves _ (gets _) => apply preserves_gets
     | |- preserves _ (deref _) => apply preserves_deref
     | |- preserves _ (modify _) => apply preserves_modify; leaf
     | |- preserves _ alloc => apply preserves_alloc; leaf
     | |- preserves _ (match ?x with _ => _ end) => destruct x
     | |- _ => idtac
     end).

(** ** The scheduler *)


Lemma scheduleOutput_sched_after T c i :
  preserves (sched_after T c i) scheduleOutput.
Proof.
  intros w (Hb & cl & Hc & Hi & Ht).
  unfold scheduleOutput, bind, gets, deref, alloc, log, modify.
  rewrite Hb. simpl. rewrite Hc. destruct (flush cl) as [t|] eqn:Hf; simpl.
  - split; [exact Hb|]. exists cl. rewrite Hf. auto.
  - split; [exact Hb|]. exists (mkClosure (instance cl) (Some (next w))).
    cbn. rewrite lookup_insert_eq, Ht, app_nil_r. auto.
Qed.

Lemma scheduleOutput_pending T c i w :
  sched_after T c i w ->
  fst (scheduleOutput w) = Ok tt /\ pending c (snd (scheduleOutput w)).
Proof.
  intros (Hb & cl & Hc & Hi & Ht).
  unfold scheduleOutput, bind, gets, deref, alloc, log, modify.
  rewrite Hb. simpl. rewrite Hc. destruct (flush cl) as [t|] eqn:Hf; simpl.
  - split; [reflexivity|]. exists cl, t. auto.
  - split; [reflexivity|]. eexists _, _. cbn. rewrite lookup_insert_eq. eauto.
Qed.

Lemma scheduleOutput_keeps_pending T c i :
  preserves (fun w => sched_after T c i w /\ pending c w) scheduleOutput.
Proof.
  intros w [Hok Hp]. split; [apply scheduleOutput_sched_after, Hok|].
  apply (scheduleOutput_pending T c i w Hok).
Qed.

Ltac sched_leaf :=
  let w := fresh "w" in let H := fresh "H" in
  intros w H; unfold sched_after, pending in *; cbn in *; exact H.

Lemma perform_sched_after T c i fuel m : preserves (sched_after T c i) (perform fuel m).
Proof.
  destruct m; preserves_with ltac:(apply scheduleOutput_sched_after) sched_leaf.
Qed.

Lemma perform_keeps_pending T c i fuel m :
  preserves (fun w => sched_after T c i w /\ pending c w) (perform fuel m).
Proof.
  destruct m; preserves_with ltac:(apply scheduleOutput_keeps_pending) sched_leaf.
Qed.


Lemma ensures_bind_now {A B} P Q (c : M A) (k : A -> M B) :
  ensures P c Q -> (forall a, preserves Q (k a)) -> ensures P (bind c k) Q.
Proof.
  intros Hc Hk w Hw b w'. unfold bind.
  destruct (c w) as [[a| |] w1] eqn:E; try discriminate.
  intros Hkw. pose proof (Hk a w1 (Hc w Hw a w1 E)) as H.
  rewrite Hkw in H. exact H.
Qed.

Lemma ensures_bind_later {A B} P Q (c : M A) (k : A -> M B) :
  preserves P c -> (forall a, ensures P (k a) Q) -> ensures P (bind c k) Q.
Proof.
  intros Hc Hk w Hw b w'. unfold bind. specialize (Hc w Hw).
  destruct (c w) as [[a| |] w1] eqn:E; try discriminate.
  intros Hkw. exact (Hk a w1 Hc b w' Hkw).
Qed.

Lemma ensures_throw {A} P Q e : ensures P (@throw A e) Q.
Proof. intros w _ a w'. discriminate. Qed.
Lemma ensures_diverge {A} P Q : ensures P (@diverge A) Q.
Proof. intros w _ a w'. discriminate. Qed.

Lemma ensures_scheduleOutput T c i :
  ensures (sched_after T c i) scheduleOutput (fun w => sched_after T c i w /\ pending c w).
Proof.
  intros w Hw a w' E.
  pose proof (scheduleOutput_sched_after T c i w Hw) as H1.
  pose proof (scheduleOutput_pending T c i w Hw) as [_ H2].
  rewrite E in H1, H2. auto.
Qed.

(** Every returning path of the four operations below goes through
    [scheduleOutput]. *)
Ltac ensures_pending T c i :=
  repeat
    (unfold perform, appendChild, insertBefore, removeChild, setAttribute;
     lazymatch goal with
     | |- ensures _ (bind _ (fun _ => ret _)) _ =>
         apply ensures_bind_now; [|intros ?; apply preserves_ret]
     | |- ensures _ (bind scheduleOutput _) _ =>
         apply ensures_bind_now;
         [apply ensures_scheduleOutput
         |intros ?;
          preserves_with ltac:(apply scheduleOutput_keeps_pending) sched_leaf]
     | |- ensures _ scheduleOutput _ => apply ensures_scheduleOutput
     | |- ensures _ (bind _ _) _ =>
         apply ensures_bind_later;
         [preserves_with ltac:(apply scheduleOutput_sched_after) sched_leaf
         |intros ?]
     | |- ensures _ (throw _) _ => apply ensures_throw
     | |- ensures _ diverge _ => apply ensures_diverge
     | |- ensures _ (match ?x with _ => _ end) _ => destruct x
     end).

Lemma appendChild_schedules T c i fuel a b :
  ensures (sched_after T c i) (perform fuel (AppendChild a b))
          (fun w => sched_after T c i w /\ pending c w).
Proof. ensures_pending T c i. Qed.

Lemma insertBefore_schedules T c i fuel a b r :
  ensures (sched_after T c i) (perform fuel (InsertBefore a b r))
          (fun w => sched_after T c i w /\ pending c w).
Proof. ensures_pending T c i. Qed.

Lemma removeChild_schedules T c i fuel a b :
  ensures (sched_after T c i) (perform fuel (RemoveChild a b))
          (fun w => sched_after T c i w /\ pending c w).
Proof. ensures_pending T c i. Qed.

Lemma setAttribute_schedules T c i fuel a k v :
  ensures (sched_after T c i) (perform fuel (SetAttribute a k v))
          (fun w => sched_after T c i w /\ pending c w).
Proof. ensures_pending T c i. Qed.

Lemma forward_schedules T c i y obj :
  ensures (sched_after T c i) (applyStyle y obj;; scheduleOutput)
          (fun w => sched_after T c i w /\ pending c w).
Proof. ensures_pending T c i. Qed.

(** ** Taking a returning run apart *)

Ltac wsimpl :=
  cbn [nodes styles elements domNode2PreactElement bound_scheduleOutput root
       closures timers instances inks trace next upd_nodes upd_styles
       upd_elements upd_table set_bound set_root upd_closures upd_timers
       upd_instances upd_inks emit bump fst snd] in *.

Lemma bind_Ok {A B} (c : M A) (k : A -> M B) w b w' :
  bind c k w = (Ok b, w') ->
  exists a w1, c w = (Ok a, w1) /\ k a w1 = (Ok b, w').
Proof.
  unfold bind. destruct (c w) as [[a| |] w1]; try discriminate. eauto.
Qed.

Lemma deref_Ok {A} (f : World -> option A) w a w' :
  deref f w = (Ok a, w') -> f w = Some a /\ w' = w.
Proof. unfold deref. destruct (f w); intros [= <- <-]; auto. Qed.

Lemma modify_Ok f w a w' : modify f w = (Ok a, w') -> w' = f w.
Proof. intros [= _ <-]. reflexivity. Qed.

Lemma gets_Ok {A} (f : World -> A) w a w' :
  gets f w = (Ok a, w') -> a = f w /\ w' = w.
Proof. intros [= <- <-]. auto. Qed.

Lemma alloc_Ok w a w' : alloc w = (Ok a, w') -> a = next w /\ w' = bump w.
Proof. intros [= <- <-]. auto. Qed.

Lemma ret_Ok {A} (x : A) w a w' : ret x w = (Ok a, w') -> a = x /\ w' = w.
Proof. intros [= <- <-]. auto. Qed.

Ltac head_of t := lazymatch t with ?f _ => head_of f | _ => t end.

(** The hypothesis [H : c w = (Ok a, w')] is replaced by what each step of
    [c] did; a call of [scheduleOutput] is kept as it is. *)
Ltac inv_run H :=
  lazymatch type of H with
  | bind _ _ _ = (Ok _, _) =>
      let a := fresh "a" in let w1 := fresh "w" in
      let H1 := fresh "H" in let H2 := fresh "H" in
      apply bind_Ok in H; destruct H as (a & w1 & H1 & H2);
      inv_run H1; inv_run H2
  | ret _ _ = (Ok _, _) =>
      apply ret_Ok in H; destruct H as [? ?]; subst
  | deref _ _ = (Ok _, _) =>
      let E := fresh "E" in
      apply deref_Ok in H; destruct H as [E ?]; subst; wsimpl
  | modify _ _ = (Ok _, _) => apply modify_Ok in H; subst; wsimpl
  | gets _ _ = (Ok _, _) => apply gets_Ok in H; destruct H as [? ?]; subst; wsimpl
  | alloc _ = (Ok _, _) => apply alloc_Ok in H; destruct H as [? ?]; subst; wsimpl
  | throw _ _ = (Ok _, _) => discriminate H
  | diverge _ = (Ok _, _) => discriminate H
  | scheduleOutput _ = (Ok _, _) => idtac
  | run_ops _ _ _ = (Ok _, _) => idtac
  | perform_all _ _ _ = (Ok _, _) => idtac
  | (match ?x with _ => _ end) _ = (Ok _, _) =>
      let E := fresh "E" in destruct x eqn:E; inv_run H
  | (match ?x with _ => _ end) = (Ok _, _) =>
      let E := fresh "E" in destruct x eqn:E; inv_run H
  | ?c _ = (Ok _, _) =>
      let h := head_of c in unfold h in H; inv_run H
  | _ => idtac
  end.

Ltac by_scheduleOutput T c i Hok :=
  match goal with
  | H : scheduleOutput _ = (Ok _, _) |- _ =>
      refine (ensures_scheduleOutput T c i _ _ _ _ H); exact Hok
  end.

Lemma store_and_forward_schedules T c i n obj p v w d y r w' :
  sched_after T c i w -> nodes w !! n = Some d -> yogaNode d = Some y ->
  store_and_forward n obj p v w = (Ok r, w') ->
  sched_after T c i w' /\ pending c w'.
Proof.
  intros Hok Hn Hy H. inv_run H; [|congruence].
  by_scheduleOutput T c i Hok.
Qed.

Lemma style_set_schedules T c i n obj p v w d y r w' :
  sched_after T c i w -> nodes w !! n = Some d -> yogaNode d = Some y ->
  style_set n obj p v w = (Ok r, w') ->
  sched_after T c i w' /\ pending c w'.
Proof.
  intros Hok Hn Hy. unfold style_set.
  destruct v; try apply (store_and_forward_schedules T c i n obj p _ w d y r w' Hok Hn Hy).
  destruct (test_digits_px s);
    apply (store_and_forward_schedules T c i n obj p _ w d y r w' Hok Hn Hy).
Qed.

Lemma assign_style_schedules T c i a p v w r w' :
  sched_after T c i w -> calls_scheduler (AssignStyle a p v) w = true ->
  assign_style a p v w = (Ok r, w') ->
  sched_after T c i w' /\ pending c w'.
Proof.
  intros Hok Hc H. unfold calls_scheduler, wrapped in Hc.
  destruct (elements w !! a) as [e|] eqn:He; [|discriminate].
  destruct (nodes w !! node e) as [d|] eqn:Hd; [|discriminate].
  destruct (yogaNode d) as [y|] eqn:Hy; [|discriminate].
  unfold assign_style in H. apply bind_Ok in H as (obj & w1 & H1 & H).
  apply bind_Ok in H as (e' & w2 & H2 & H).
  assert (sched_after T c i w2 /\ nodes w2 = nodes w /\ node e' = node e) as (Hok2 & Hn2 & Hne).
  { inv_run H1; inv_run H2; wsimpl;
      repeat match goal with
             | E : <[_:=_]> _ !! _ = Some _ |- _ => rewrite lookup_insert_eq in E
             end;
      simplify_eq; (split; [exact Hok|split; reflexivity]). }
  rewrite Hne in H. rewrite <- Hn2 in Hd.
  apply (style_set_schedules T c i _ _ _ _ _ d y _ _ Hok2 Hd Hy H).
Qed.

Lemma set_data_schedules T c i a v w r w' :
  sched_after T c i w -> calls_scheduler (AssignData a v) w = true ->
  set_data a v w = (Ok r, w') ->
  sched_after T c i w' /\ pending c w'.
Proof.
  intros Hok Hc H. unfold calls_scheduler, wrapped in Hc.
  destruct (elements w !! a) as [e|] eqn:He; [|discriminate].
  destruct (nodes w !! node e) as [d|] eqn:Hd; [|discriminate].
  inv_run H; simplify_eq;
    try match goal with E : nodeName _ = _ |- _ => rewrite E in Hc; discriminate end.
  by_scheduleOutput T c i Hok.
Qed.

Lemma perform_schedules T c i fuel m w r w' :
  sched_after T c i w -> calls_scheduler m w = true ->
  perform fuel m w = (Ok r, w') ->
  sched_after T c i w' /\ pending c w'.
Proof.
  intros Hok Hc H. destruct m.
  - exact (appendChild_schedules T c i fuel a b w Hok r w' H).
  - exact (insertBefore_schedules T c i fuel a b child w Hok r w' H).
  - exact (removeChild_schedules T c i fuel a b w Hok r w' H).
  - exact (setAttribute_schedules T c i fuel a key value w Hok r w' H).
  - cbn [perform] in H. apply bind_Ok in H as (x & w1 & H1 & H2).
    inv_run H2. eapply (assign_style_schedules T); eauto.
  - eapply (set_data_schedules T); eauto.
Qed.

Lemma perform_all_preserves P fuel ms :
  (forall m, preserves P (perform fuel m)) -> preserves P (perform_all fuel ms).
Proof.
  intros Hm. induction ms as [|m r IH]; simpl.
  - apply preserves_ret.
  - apply preserves_bind; auto.
Qed.

Lemma run_ops_preserves P fuel ops :
  (forall o, preserves P (run_op fuel o)) -> preserves P (run_ops fuel ops).
Proof.
  intros Ho. induction ops as [|o r IH]; simpl.
  - apply preserves_ret.
  - apply preserves_bind; auto.
Qed.

(** ** The closure that is bound *)

Lemma scheduleOutput_bound_closure c i w0 :
  preserves (bound_closure c i w0) scheduleOutput.
Proof.
  intros w (Hb & (cl & Hc & Hi) & Ho & Ht).
  unfold scheduleOutput, bind, gets, deref, alloc, log, modify, ret.
  rewrite Hb. wsimpl. rewrite Hc. destruct (flush cl); unfold bound_closure; wsimpl.
  - split; [exact Hb|]. split; [eauto|]. split; assumption.
  - split; [exact Hb|]. split.
    + eexists. rewrite lookup_insert_eq. split; [reflexivity|exact Hi].
    + split.
      * intros c' Hne. rewrite lookup_insert_ne by congruence. apply Ho, Hne.
      * intros tc Htc. apply elem_of_app in Htc as [Htc|Htc]; [auto|].
        apply list_elem_of_singleton in Htc. subst tc. right. reflexivity.
Qed.

Ltac closure_leaf :=
  let w := fresh "w" in let H := fresh "H" in intros w H; exact H.

Lemma run_op_bound_closure c i w0 fuel o :
  preserves (bound_closure c i w0) (run_op fuel o).
Proof.
  destruct o; try destruct m;
    preserves_with ltac:(apply scheduleOutput_bound_closure) closure_leaf.
Qed.


Lemma bound_closure_refl c i w :
  bound_scheduleOutput w = Some c ->
  (exists cl, closures w !! c = Some cl /\ instance cl = i) ->
  bound_closure c i w w.
Proof. intros Hb Hc. split; [exact Hb|]. split; [exact Hc|]. split; auto. Qed.

(** ** No synchronous code paints *)

Lemma extends_sync_refl w : extends_sync w w.
Proof. exists []. rewrite app_nil_r. auto. Qed.

Lemma freed_not_paint l : Forall (fun e => is_paint e = false) (map Free l).
Proof. induction l; simpl; constructor; auto. Qed.

Lemma extends_sync_emit w0 w es :
  Forall (fun e => is_paint e = false) es ->
  extends_sync w0 w -> extends_sync w0 (emit es w).
Proof.
  intros Hes (seg & Hs & Hf). exists (seg ++ es). cbn. rewrite Hs, app_assoc.
  split; [reflexivity|]. apply Forall_app. auto.
Qed.

Ltac sync_leaf :=
  let w := fresh "w" in let H := fresh "H" in
  intros w H;
  first [ exact H
        | apply extends_sync_emit;
          [first [apply freed_not_paint | repeat constructor]|exact H] ].

Lemma scheduleOutput_sync w0 : preserves (extends_sync w0) scheduleOutput.
Proof. unfold scheduleOutput. preserves_with idtac sync_leaf. Qed.

Lemma perform_sync w0 fuel m : preserves (extends_sync w0) (perform fuel m).
Proof.
  destruct m; preserves_with ltac:(apply scheduleOutput_sync) sync_leaf.
Qed.

(** ** The deferred task *)

Lemma tick_pending c i w cl t :
  sched_ok c i w -> closures w !! c = Some cl -> flush cl = Some t ->
  tick w =
  upd_closures (<[c := mkClosure i None]>)
    (emit [CalculateLayout i; OnRender i] (upd_timers (fun _ => []) w)).
Proof.
  intros (Hb & cl' & Hc & Hi & Ht) Hcl Hf. rewrite Hcl in Hc.
  injection Hc as <-. rewrite Hf in Ht. unfold tick. rewrite Ht. simpl.
  unfold run_timer. rewrite Ht. cbn. rewrite Hcl, Hi. reflexivity.
Qed.

Lemma tick_idle c i w cl :
  sched_ok c i w -> closures w !! c = Some cl -> flush cl = None -> tick w = w.
Proof.
  intros (Hb & cl' & Hc & Hi & Ht) Hcl Hf. rewrite Hcl in Hc.
  injection Hc as <-. rewrite Hf in Ht. unfold tick. rewrite Ht. reflexivity.
Qed.

(** ** The queue of timers runs *)

Lemma paints_cleared cs c cl tc :
  cs !! c = Some cl -> paints (<[c := cleared cl]> cs) tc = paints cs tc.
Proof.
  intros Hc. unfold paints. destruct (decide (tc.2 = c)) as [->|Hne].
  - rewrite lookup_insert_eq, Hc. reflexivity.
  - rewrite lookup_insert_ne by congruence. reflexivity.
Qed.

Lemma run_timers_all ts : forall w, timers w = ts ->
  timers (run_timers (length ts) w) = [] /\
  trace (run_timers (length ts) w) = trace w ++ concat (map (paints (closures w)) ts) /\
  forall c, closures (run_timers (length ts) w) !! c =
            if bool_decide (c ∈ ts.*2) then cleared <$> closures w !! c
            else closures w !! c.
Proof.
  induction ts as [|[t c0] rest IH]; intros w Ht.
  - simpl. rewrite app_nil_r. auto.
  - cbn [length run_timers]. unfold run_timer at 1 2 3. rewrite Ht.
    destruct (closures (upd_timers (fun _ => rest) w) !! c0) as [cl|] eqn:Hc;
      wsimpl.
    + match goal with
      | |- context [run_timers _ ?W] =>
          destruct (IH W eq_refl) as (I1 & I2 & I3)
      end.
      wsimpl. fold (cleared cl) in *. split; [exact I1|]. split.
      * assert (paints (closures w) (t, c0)
                = [CalculateLayout (instance cl); OnRender (instance cl)]) as Hp
          by (unfold paints; cbn [snd]; rewrite Hc; reflexivity).
        rewrite I2. cbn [map concat]. rewrite Hp, <- app_assoc. do 3 f_equal.
        apply map_ext. intros tc. apply paints_cleared. exact Hc.
      * intros c. rewrite I3. cbn [fmap list_fmap snd].
        destruct (decide (c = c0)) as [->|Hne].
        -- rewrite lookup_insert_eq, Hc.
           rewrite (bool_decide_eq_true_2 (c0 ∈ c0 :: rest.*2)) by left.
           destruct (bool_decide (c0 ∈ rest.*2)); reflexivity.
        -- rewrite lookup_insert_ne by congruence.
           destruct (bool_decide (c ∈ rest.*2)) eqn:E.
           ++ apply bool_decide_eq_true_1 in E.
              rewrite bool_decide_eq_true_2 by (right; exact E). reflexivity.
           ++ apply bool_decide_eq_false_1 in E.
              rewrite bool_decide_eq_false_2; [reflexivity|].
              intros Hin. apply elem_of_cons in Hin as [?|?]; congruence.
    + destruct (IH (upd_timers (fun _ => rest) w) eq_refl) as (I1 & I2 & I3).
      wsimpl. split; [exact I1|]. split.
      * assert (paints (closures w) (t, c0) = []) as Hp
          by (unfold paints; cbn [snd]; rewrite Hc; reflexivity).
        rewrite I2. cbn [map concat]. rewrite Hp. reflexivity.
      * intros c. rewrite I3. cbn [fmap list_fmap snd].
        destruct (decide (c = c0)) as [->|Hne].
        -- rewrite Hc. rewrite (bool_decide_eq_true_2 (c0 ∈ c0 :: rest.*2)) by left.
           destruct (bool_decide (c0 ∈ rest.*2)); reflexivity.
        -- destruct (bool_decide (c ∈ rest.*2)) eqn:E.
           ++ apply bool_decide_eq_true_1 in E.
              rewrite bool_decide_eq_true_2 by (right; exact E). reflexivity.
           ++ apply bool_decide_eq_false_1 in E.
              rewrite bool_decide_eq_false_2; [reflexivity|].
              intros Hin. apply elem_of_cons in Hin as [?|?]; congruence.
Qed.

(** ** C1 *)

Lemma perform_bound_closure c i w0 fuel m :
  preserves (bound_closure c i w0) (perform fuel m).
Proof. exact (run_op_bound_closure c i w0 fuel (Mutate m)). Qed.

Lemma paints_same_closures (cs cs' : gmap nat Closure) (T : list (nat * nat)) :
  (forall tc, tc ∈ T -> cs' !! tc.2 = cs !! tc.2) ->
  map (paints cs') T = map (paints cs) T.
Proof.
  induction T as [|tc T IH]; intros H; [reflexivity|]. simpl. f_equal.
  - unfold paints. rewrite (H tc) by left. reflexivity.
  - apply IH. intros tc' Hin. apply H. right. exact Hin.
Qed.

(** C1, as the code has it.  [scheduleOutput] is bound to the closure [c]
    of a [render] call on the session [i], and the queue holds timers [T]
    of other closures (those of earlier [render] calls) followed by the
    timer of [c] if the [flush] of [c] is set.  A burst of synchronous
    mutations at least one of which reaches [scheduleOutput]
    ([calls_scheduler]: a container operation that returns, a
    [setAttribute] that returns, a style assignment on a node with a
    layout handle, a text assignment on a ['#text'] node) paints nothing
    while it runs and leaves exactly one timer of [c] in the queue, behind
    [T].  When the timers fire, the tasks of [T] run first, each once,
    and then the task of [c] runs exactly once: [calculateLayout] and
    [onRender] of the session [i]; afterwards no timer is queued and the
    [flush] of [c] is null again.  So the session is painted exactly once
    when no task of another closure was pending ([T] empty), and once
    more for each pending task of an earlier [render] call on it. *)
Theorem coalesced_output
  (fuel c i : nat) (T : list (nat * nat)) (w w1 w2 w3 : World)
  (before after : list Mutation) (m : Mutation) (r : Result unit) :
  sched_after T c i w ->
  Forall (fun tc => tc.2 <> c) T ->
  perform_all fuel before w = (Ok tt, w1) ->
  calls_scheduler m w1 = true ->
  perform fuel m w1 = (Ok tt, w2) ->
  perform_all fuel after w2 = (r, w3) ->
  extends_sync w w3 /\
  (exists t, timers w3 = T ++ [(t, c)] /\
             closures w3 !! c = Some (mkClosure i (Some t))) /\
  trace (tick w3) =
    trace w3 ++ concat (map (paints (closures w)) T)
            ++ [CalculateLayout i; OnRender i] /\
  timers (tick w3) = [] /\
  closures (tick w3) !! c = Some (mkClosure i None).
Proof.
  intros Hok HT Hb Hc Hm Ha.
  assert (sched_after T c i w1) as Hok1.
  { pose proof (perform_all_preserves _ fuel before (perform_sched_after T c i fuel) w Hok)
      as H. rewrite Hb in H. exact H. }
  pose proof (perform_schedules T c i fuel m w1 tt w2 Hok1 Hc Hm) as Hp2.
  assert (sched_after T c i w3 /\ pending c w3) as [Hok3 (cl & t & Hcl & Hf)].
  { pose proof (perform_all_preserves _ fuel after
                  (perform_keeps_pending T c i fuel) w2 Hp2) as H.
    rewrite Ha in H. exact H. }
  assert (bound_closure c i w w3) as (_ & _ & Hothers & _).
  { assert (bound_closure c i w w) as H0.
    { destruct Hok as (Hbd & cl0 & Hcl0 & Hi0 & _). apply bound_closure_refl; eauto. }
    pose proof (perform_all_preserves _ fuel before (perform_bound_closure c i w fuel) w H0)
      as H1. rewrite Hb in H1.
    pose proof (perform_bound_closure c i w fuel m w1 H1) as H2. rewrite Hm in H2.
    pose proof (perform_all_preserves _ fuel after (perform_bound_closure c i w fuel) w2 H2)
      as H3. rewrite Ha in H3. exact H3. }
  destruct Hok3 as (_ & cl' & Hcl' & Hi & Ht). rewrite Hcl in Hcl'.
  injection Hcl' as <-. rewrite Hf in Ht.
  assert (cl = mkClosure i (Some t)) as ->
    by (destruct cl; simpl in *; subst; reflexivity).
  split.
  { pose proof (perform_all_preserves _ fuel before (perform_sync w fuel) w
                  (extends_sync_refl w)) as H1. rewrite Hb in H1.
    pose proof (perform_sync w fuel m w1 H1) as H2. rewrite Hm in H2.
    pose proof (perform_all_preserves _ fuel after (perform_sync w fuel) w2 H2) as H3.
    rewrite Ha in H3. exact H3. }
  split; [exists t; auto|].
  destruct (run_timers_all (timers w3) w3 eq_refl) as (I1 & I2 & I3).
  fold (tick w3) in I1, I2, I3. split; [|split; [exact I1|]].
  - rewrite I2, Ht, map_app, concat_app. cbn [map concat]. unfold paints at 2.
    cbn [snd]. rewrite Hcl. cbn [instance]. rewrite app_nil_r. do 2 f_equal.
    f_equal. apply paints_same_closures. intros tc Hin. apply Hothers.
    rewrite Forall_forall in HT. apply HT. exact Hin.
  - rewrite I3, Ht, Hcl. rewrite bool_decide_eq_true_2; [reflexivity|].
    rewrite fmap_app. apply elem_of_app. right. left.
Qed.

Lemma coalesced_output_witness :
  let w1 := rendered_twice in
  let w2 := snd (perform 1 (SetAttribute 8 "color" (VString "red")) w1) in
  let w3 := snd (perform_all 1 [AssignData 8 (VNumber (Num 3))] w2) in
  extends_sync rendered_twice w3 /\
  (exists t, timers w3 = [(6, 4)] ++ [(t, 7)] /\
             closures w3 !! 7 = Some (mkClosure 3 (Some t))) /\
  trace (tick w3) =
    trace w3 ++ concat (map (paints (closures rendered_twice)) [(6, 4)])
            ++ [CalculateLayout 3; OnRender 3] /\
  timers (tick w3) = [] /\
  closures (tick w3) !! 7 = Some (mkClosure 3 None).
Proof.
  intros w1 w2 w3.
  apply (coalesced_output 1 7 3 [(6, 4)] rendered_twice w1 w2 w3 []
           [AssignData 8 (VNumber (Num 3))] (SetAttribute 8 "color" (VString "red"))
           (Ok tt)).
  - split; [vm_compute; reflexivity|].
    exists (mkClosure 3 (Some 9)).
    split; [vm_compute; reflexivity|]. split; vm_compute; reflexivity.
  - constructor; [discriminate|constructor].
  - vm_compute; reflexivity.
  - vm_compute; reflexivity.
  - vm_compute; reflexivity.
  - vm_compute; reflexivity.
Defined.

(** With nothing else pending the burst is followed by one paint; after
    two [render] calls on one stream that the timers have not followed
    yet, the same burst is followed by two paints of the session, one for
    each call's closure. *)
Example one_paint_or_two :
  let burst := [AppendChild 5 9; AssignData 9 (VString "bye")] in
  let w3 := snd (perform_all 1 burst one_session) in
  let again := [SetAttribute 8 "color" (VString "red")] in
  let w3' := snd (perform_all 1 again rendered_twice) in
  trace (tick w3) = trace w3 ++ [CalculateLayout 3; OnRender 3] /\
  fst (perform_all 1 again rendered_twice) = Ok tt /\
  trace (tick w3') =
    trace w3' ++ [CalculateLayout 3; OnRender 3; CalculateLayout 3; OnRender 3].
Proof.
  cbv zeta. split; [vm_compute; reflexivity|]. split; vm_compute; reflexivity.
Qed.

(** C1 as stated fails: a text assignment on the root adapter (not a
    ['#text'] node) followed by a style assignment on a ['#text'] node
    (no layout handle) is a burst of N = 2 mutations that returns, and the
    deferred task that follows paints nothing: the trace does not change
    at all. *)
Lemma burst_that_schedules_nothing :
  let ms := [AssignData 5 (VString "bye"); AssignStyle 9 "width" (VString "10px")] in
  sched_ok 4 3 one_session /\
  fst (perform_all 1 ms one_session) = Ok tt /\
  trace (tick (snd (perform_all 1 ms one_session))) = trace one_session.
Proof.
  split; [|split; vm_compute; reflexivity].
  split; [vm_compute; reflexivity|].
  exists (mkClosure 3 None).
    split; [vm_compute; reflexivity|]. split; vm_compute; reflexivity.
Qed.

(** ** C2 *)

(** C2, as the code has it.  On an adapter whose wrapped node
    [isContainer] rejects, a ['#text'] leaf in particular, each of
    [appendChild], [insertBefore], [removeChild] and [contains] throws
    'This is not a container'; nothing is changed, scheduled or retried,
    and the exception ends the sequence of operations of the caller. *)
Theorem not_a_container_throws
  (fuel : nat) (w : World) (a b : nat) (e : PreactElement) (d : DOMNode)
  (child other : option nat) :
  elements w !! a = Some e ->
  nodes w !! node e = Some d ->
  isContainer d = false ->
  appendChild a b w = (Throw NotAContainer, w) /\
  insertBefore a b child w = (Throw NotAContainer, w) /\
  removeChild fuel a b w = (Throw NotAContainer, w) /\
  contains fuel a other w = (Throw NotAContainer, w) /\
  forall o rest,
    o ∈ [Mutate (AppendChild a b); Mutate (InsertBefore a b child);
         Mutate (RemoveChild a b); Contains a other] ->
    run_ops fuel (o :: rest) w = (Throw NotAContainer, w).
Proof.
  intros He Hd Hc.
  assert (appendChild a b w = (Throw NotAContainer, w) /\
          insertBefore a b child w = (Throw NotAContainer, w) /\
          removeChild fuel a b w = (Throw NotAContainer, w) /\
          contains fuel a other w = (Throw NotAContainer, w)) as (H1 & H2 & H3 & H4).
  { unfold appendChild, insertBefore, removeChild, contains, element, dom_node,
      bind, deref.
    rewrite He, Hd, Hc. auto. }
  do 4 (split; [assumption|]).
  intros o rest Ho. cbn [run_ops]. unfold bind at 1.
  repeat (apply elem_of_cons in Ho as [->|Ho]);
    [| | | |inversion Ho]; cbn [run_op perform]; unfold bind at 1.
  - rewrite H1. reflexivity.
  - rewrite H2. reflexivity.
  - rewrite H3. reflexivity.
  - rewrite H4. reflexivity.
Qed.

Lemma not_a_container_throws_witness :
  appendChild 9 5 one_session = (Throw NotAContainer, one_session) /\
  insertBefore 9 5 None one_session = (Throw NotAContainer, one_session) /\
  removeChild 1 9 5 one_session = (Throw NotAContainer, one_session) /\
  contains 1 9 (Some 5) one_session = (Throw NotAContainer, one_session) /\
  forall o rest,
    o ∈ [Mutate (AppendChild 9 5); Mutate (InsertBefore 9 5 None);
         Mutate (RemoveChild 9 5); Contains 9 (Some 5)] ->
    run_ops 1 (o :: rest) one_session = (Throw NotAContainer, one_session).
Proof.
  apply (not_a_container_throws 1 one_session 9 5
           (mkElement 7 (Some TEXT_NODE) None)
           (dom.fresh_node HashText 8 (Some (VString "hi"))));
    vm_compute; reflexivity.
Defined.

(** C2 as stated fails: the adapter of an ['ink-text'] node has the
    node-type code of text, and [appendChild] on it returns. *)
Lemma ink_text_is_a_container :
  (nodeType <$> elements with_ink_text !! 12) = Some (Some TEXT_NODE) /\
  (nodeName <$> nodes with_ink_text !! 10) = Some InkText /\
  fst (appendChild 12 9 with_ink_text) = Ok 9.
Proof.
  split; [vm_compute; reflexivity|]. split; vm_compute; reflexivity.
Qed.

(** ** C7 *)

(** C7.  On a container adapter whose subtree the fuel covers,
    [contains(self)] is true, and [contains(x)] is true exactly when the
    node of [x] is the adapter's node or is reached from it along child
    pointers. *)
Theorem contains_descendant
  (fuel : nat) (w : World) (a x : nat) (e xe : PreactElement) (d : DOMNode)
  (l : list nat) :
  elements w !! a = Some e ->
  nodes w !! node e = Some d ->
  isContainer d = true ->
  elements w !! x = Some xe ->
  subtree fuel (nodes w) (node e) = Some l ->
  contains fuel a (Some a) w = (Ok true, w) /\
  exists b, contains fuel a (Some x) w = (Ok b, w) /\
            (b = true <-> descendant (nodes w) (node e) (node xe)).
Proof.
  intros He Hd Hc Hx Hs.
  unfold contains, element, dom_node, bind, deref, gets.
  rewrite He, Hd, Hc. cbn. rewrite He, Hx. cbn.
  rewrite !(search_subtree _ _ _ _ _ Hs). cbn. split.
  - destruct (subtree_head _ _ _ _ Hs) as [l' ->].
    rewrite bool_decide_eq_true_2; [reflexivity|left].
  - eexists. split; [reflexivity|].
    rewrite bool_decide_eq_true. apply (subtree_descendant _ _ _ _ Hs).
Qed.

Lemma contains_descendant_witness :
  contains 2 5 (Some 5) text_under_root = (Ok true, text_under_root) /\
  exists b, contains 2 5 (Some 9) text_under_root = (Ok b, text_under_root) /\
            (b = true <-> descendant (nodes text_under_root) 1 7).
Proof.
  apply (contains_descendant 2 text_under_root 5 9
           (mkElement 1 (Some ROOT_NODE) None) (mkElement 7 (Some TEXT_NODE) None)
           (mkNode InkRoot ∅ 2 None [7] None VUndefined VUndefined None None)
           [1; 7]); vm_compute; reflexivity.
Defined.

(** ** Running a computation forward *)

Lemma scheduleOutput_returns w :
  sched_wf w ->
  exists w', scheduleOutput w = (Ok tt, w') /\ scheduler_only w w' /\ sched_wf w'.
Proof.
  unfold sched_wf, scheduleOutput, bind, gets, deref, alloc, log, modify, ret.
  destruct (bound_scheduleOutput w) as [c|] eqn:Hb; cbn.
  - intros [cl Hc]. rewrite Hc. destruct (flush cl); cbn.
    + eexists. split; [reflexivity|]. unfold scheduler_only. rewrite Hb, Hc. eauto 10.
    + eexists. split; [reflexivity|]. unfold scheduler_only. cbn. rewrite Hb.
      rewrite lookup_insert_eq. eauto 10.
  - intros _. eexists. split; [reflexivity|]. unfold scheduler_only. rewrite Hb. eauto 10.
Qed.


Ltac run_forward :=
  repeat progress (cbv beta iota zeta delta
    [bind ret throw diverge modify gets deref alloc log element dom_node
     upd_node when dom.setAttribute dom.setStyle dom.setTextNodeValue
     dom.removeChildNode dom.appendChildNode dom.insertBeforeNode];
  wsimpl).

Ltac run_scheduleOutput Hwf :=
  match goal with
  | |- context [scheduleOutput ?W] =>
      let w' := fresh "w'" in
      let Hs := fresh "Hs" in let Hso := fresh "Hso" in let Hwf' := fresh "Hwf'" in
      destruct (scheduleOutput_returns W Hwf) as (w' & Hs & Hso & Hwf');
      rewrite Hs; unfold scheduler_only in Hso; run_forward; wsimpl
  end.

Lemma setAttribute_static fuel w a e rt v :
  elements w !! a = Some e -> root w = Some rt -> sched_wf w ->
  let h1 := alter (set_internal_static v) (node e) (nodes w) in
  forall found,
  (if truthy v then found = Some (node e) else searchStatic fuel h1 rt = Some found) ->
  exists w', setAttribute fuel a "internal_static" v w = (Ok tt, w') /\
    nodes w' = alter (set_attributes (<["internal_static" := v]>)) (node e)
                 (alter (set_staticNode found) rt h1) /\
    root w' = Some rt /\ elements w' = elements w /\ sched_wf w'.
Proof.
  intros He Hr Hwf h1 found Hfound.
  unfold setAttribute, element, bind at 1, deref at 1. rewrite He.
  cbn [when String.eqb Ascii.eqb Bool.eqb].
  run_forward. rewrite Hr. subst h1. run_forward.
  destruct (truthy v).
  - subst found. run_forward. run_scheduleOutput Hwf.
    destruct Hso as (Hn & _ & He' & _ & _ & Hr' & _).
    eexists. split; [reflexivity|]. rewrite Hn, Hr', He'. auto.
  - run_forward. rewrite Hfound. run_forward. run_scheduleOutput Hwf.
    destruct Hso as (Hn & _ & He' & _ & _ & Hr' & _).
    eexists. split; [reflexivity|]. rewrite Hn, Hr', He'. auto.
Qed.

(** ** Updates of a node that keep the shape of the tree *)


Lemma keeps_shape_static v : keeps_shape (set_internal_static v).
Proof. intros d. split; reflexivity. Qed.
Lemma keeps_shape_staticNode s : keeps_shape (set_staticNode s).
Proof. intros d. split; reflexivity. Qed.
Lemma keeps_shape_attributes g : keeps_shape (set_attributes g).
Proof. intros d. split; reflexivity. Qed.

Lemma descends_alter f n h x :
  keeps_shape f -> descends (alter f n h) x = descends h x.
Proof.
  intros Hf. unfold descends. rewrite lookup_alter.
  destruct (decide (n = x)) as [->|]; [|reflexivity].
  destruct (h !! x) as [d|]; simpl; [|reflexivity].
  rewrite (proj1 (Hf d)). reflexivity.
Qed.

Lemma children_alter f n h x :
  keeps_shape f -> children (alter f n h) x = children h x.
Proof.
  intros Hf. unfold children. rewrite lookup_alter.
  destruct (decide (n = x)) as [->|]; [|reflexivity].
  destruct (h !! x) as [d|]; simpl; [|reflexivity].
  apply (Hf d).
Qed.

Lemma visit_alter f n h fuel x :
  keeps_shape f -> visit fuel (alter f n h) x = visit fuel h x.
Proof.
  intros Hf. revert x. induction fuel as [|k IH]; intros x; [reflexivity|].
  simpl. rewrite descends_alter, children_alter by exact Hf.
  rewrite (collect_ext (visit k h) (visit k (alter f n h))); [reflexivity|].
  rewrite Forall_forall. intros c _. apply IH.
Qed.

Lemma is_static_alter f n h x :
  (forall d, internal_static (f d) = internal_static d) ->
  is_static (alter f n h) x = is_static h x.
Proof.
  intros Hf. unfold is_static. rewrite lookup_alter.
  destruct (decide (n = x)) as [->|]; [|reflexivity].
  destruct (h !! x) as [d|]; simpl; [|reflexivity].
  rewrite Hf. reflexivity.
Qed.

Lemma is_static_flag_other v n h x :
  x <> n -> is_static (alter (set_internal_static v) n h) x = is_static h x.
Proof.
  intros Hne. unfold is_static. rewrite lookup_alter_ne by congruence. reflexivity.
Qed.

Lemma is_static_flag_false v n h :
  truthy v = false -> is_static (alter (set_internal_static v) n h) n = false.
Proof.
  intros Hv. unfold is_static. rewrite lookup_alter_eq.
  destruct (h !! n); simpl; auto.
Qed.

Lemma find_first {A} (p : A -> bool) l1 a l2 :
  (forall x, x ∈ l1 -> p x = false) -> p a = true ->
  List.find p (l1 ++ a :: l2) = Some a.
Proof.
  intros Hl Ha. induction l1 as [|x l1 IH]; simpl.
  - rewrite Ha. reflexivity.
  - rewrite (Hl x) by left. apply IH. intros y Hy. apply Hl. right. exact Hy.
Qed.

Lemma find_ext {A} (p q : A -> bool) l :
  (forall x, x ∈ l -> p x = q x) -> List.find p l = List.find q l.
Proof.
  induction l as [|x l IH]; intros H; simpl; [reflexivity|].
  rewrite (H x) by left. destruct (q x); [reflexivity|].
  apply IH. intros y Hy. apply H. right. exact Hy.
Qed.

Lemma set_static_step fuel w b e rt l v :
  elements w !! b = Some e -> root w = Some rt -> is_Some (nodes w !! rt) ->
  sched_wf w ->
  (truthy v = false -> visit fuel (nodes w) rt = Some l) ->
  exists w', setAttribute fuel b "internal_static" v w = (Ok tt, w') /\
    elements w' = elements w /\ root w' = Some rt /\
    is_Some (nodes w' !! rt) /\ sched_wf w' /\
    (forall k x, visit k (nodes w') x = visit k (nodes w) x) /\
    (forall x, x <> node e -> is_static (nodes w') x = is_static (nodes w) x) /\
    (truthy v = false -> is_static (nodes w') (node e) = false) /\
    root_staticNode w' =
      if truthy v then Some (node e) else List.find (is_static (nodes w')) l.
Proof.
  intros He Hr Hrt Hwf Hvis.
  set (h1 := alter (set_internal_static v) (node e) (nodes w)).
  set (found := if truthy v then Some (node e) else List.find (is_static h1) l).
  destruct (setAttribute_static fuel w b e rt v He Hr Hwf found)
    as (w' & Hrun & Hn & Hr' & He' & Hwf').
  { unfold found. destruct (truthy v) eqn:Hv; [reflexivity|].
    apply searchStatic_visit. fold h1. unfold h1.
    rewrite visit_alter by apply keeps_shape_static. auto. }
  fold h1 in Hn.
  assert (forall x, is_static (nodes w') x = is_static h1 x) as Hst.
  { intros x. rewrite Hn. rewrite !is_static_alter; auto. }
  exists w'. split; [exact Hrun|]. split; [exact He'|]. split; [exact Hr'|].
  assert (is_Some (nodes w' !! rt)) as Hrt'.
  { rewrite Hn. unfold h1. rewrite !lookup_alter_is_Some. exact Hrt. }
  split; [exact Hrt'|]. split; [exact Hwf'|]. split.
  { intros k x. rewrite Hn. unfold h1.
    rewrite !visit_alter; auto using keeps_shape_static, keeps_shape_staticNode,
      keeps_shape_attributes. }
  split.
  { intros x Hx. rewrite Hst. apply is_static_flag_other. exact Hx. }
  split.
  { intros Hv. rewrite Hst. apply is_static_flag_false. exact Hv. }
  pose proof Hst as Hst'. rewrite Hn in Hst'.
  unfold root_staticNode. rewrite Hr', Hn.
  destruct Hrt as [d Hd].
  assert (exists d1, h1 !! rt = Some d1) as [d1 Hd1].
  { unfold h1. apply lookup_alter_is_Some. eauto. }
  assert (match alter (set_attributes <["internal_static":=v]>) (node e)
                  (alter (set_staticNode found) rt h1) !! rt with
          | Some d => staticNode d
          | None => None
          end = found) as ->.
  { destruct (decide (node e = rt)) as [Heq|Hne].
    - rewrite Heq, !lookup_alter_eq, Hd1. reflexivity.
    - rewrite lookup_alter_ne by exact Hne. rewrite lookup_alter_eq, Hd1.
      reflexivity. }
  unfold found. destruct (truthy v); [reflexivity|].
  apply find_ext. intros x _. symmetry. exact (Hst' x).
Qed.

(** ** C3 *)

(** C3, as the code has it.  With [PreactElement.root], the one slot of
    the class that the last [render] call has set, bound to a root node
    [rt], which need not be the root of the tree the node is in:
    setting the flag of a node to a falsy value stores in [rt.staticNode]
    the first node, in the pre-order that descends into root and box nodes
    only, whose flag is set, or nothing when there is none; setting it to
    a truthy value stores the node itself, whatever the fuel, so without
    any search; and when [A] is flagged, no node before [A] in that order
    is, and the flagged node of the adapter comes after [A], then toggling
    the adapter's node false, true, false leaves [A] in the slot. *)
Theorem static_flag_locator
  (fuel : nat) (w : World) (b : nat) (e : PreactElement) (rt : nat) :
  elements w !! b = Some e ->
  root w = Some rt ->
  is_Some (nodes w !! rt) ->
  sched_wf w ->
  (forall v l,
     truthy v = false -> visit fuel (nodes w) rt = Some l ->
     exists w', setAttribute fuel b "internal_static" v w = (Ok tt, w') /\
                visit fuel (nodes w') rt = Some l /\
                root_staticNode w' = List.find (is_static (nodes w')) l) /\
  (forall v,
     truthy v = true ->
     exists w', setAttribute fuel b "internal_static" v w = (Ok tt, w') /\
                root_staticNode w' = Some (node e)) /\
  (forall A l1 l2 v1 v2 v3,
     visit fuel (nodes w) rt = Some (l1 ++ A :: l2) ->
     node e ∈ l2 -> A <> node e ->
     is_static (nodes w) A = true -> is_static (nodes w) (node e) = true ->
     (forall x, x ∈ l1 -> is_static (nodes w) x = false) ->
     truthy v1 = false -> truthy v2 = true -> truthy v3 = false ->
     exists w1 w2 w3,
       setAttribute fuel b "internal_static" v1 w = (Ok tt, w1) /\
       setAttribute fuel b "internal_static" v2 w1 = (Ok tt, w2) /\
       setAttribute fuel b "internal_static" v3 w2 = (Ok tt, w3) /\
       root_staticNode w2 = Some (node e) /\
       root_staticNode w3 = Some A).
Proof.
  intros He Hr Hrt Hwf. split; [|split].
  - intros v l Hv Hvis.
    destruct (set_static_step fuel w b e rt l v He Hr Hrt Hwf (fun _ => Hvis))
      as (w' & Hrun & _ & _ & _ & _ & Hvis' & _ & _ & Hroot).
    exists w'. rewrite Hvis', Hv in *. auto.
  - intros v Hv.
    destruct (set_static_step fuel w b e rt [] v He Hr Hrt Hwf)
      as (w' & Hrun & _ & _ & _ & _ & _ & _ & _ & Hroot).
    { rewrite Hv. discriminate. }
    exists w'. rewrite Hv in Hroot. auto.
  - intros A l1 l2 v1 v2 v3 Hvis _ HA HsA _ Hl1 Hv1 Hv2 Hv3.
    destruct (set_static_step fuel w b e rt (l1 ++ A :: l2) v1 He Hr Hrt Hwf
                (fun _ => Hvis))
      as (w1 & Hrun1 & He1 & Hr1 & Hrt1 & Hwf1 & Hvis1 & Hst1 & Hb1 & _).
    rewrite <- He1 in He.
    destruct (set_static_step fuel w1 b e rt [] v2 He Hr1 Hrt1 Hwf1)
      as (w2 & Hrun2 & He2 & Hr2 & Hrt2 & Hwf2 & Hvis2 & Hst2 & _ & Hroot2).
    { rewrite Hv2. discriminate. }
    rewrite <- He2 in He.
    destruct (set_static_step fuel w2 b e rt (l1 ++ A :: l2) v3 He Hr2 Hrt2 Hwf2)
      as (w3 & Hrun3 & _ & _ & _ & _ & _ & Hst3 & Hb3 & Hroot3).
    { intros _. rewrite Hvis2, Hvis1. exact Hvis. }
    exists w1, w2, w3. repeat (split; [assumption|]).
    rewrite Hv2 in Hroot2. split; [exact Hroot2|].
    rewrite Hv3 in Hroot3. rewrite Hroot3. apply find_first.
    + intros x Hx. destruct (decide (x = node e)) as [->|Hne]; [auto|].
      rewrite Hst3, Hst2, Hst1 by exact Hne. auto.
    + rewrite Hst3, Hst2, Hst1 by exact HA. exact HsA.
Qed.

Lemma static_flag_locator_witness :
  exists w1 w2 w3,
    setAttribute 2 12 "internal_static" (VBool false) two_static = (Ok tt, w1) /\
    setAttribute 2 12 "internal_static" (VBool true) w1 = (Ok tt, w2) /\
    setAttribute 2 12 "internal_static" (VBool false) w2 = (Ok tt, w3) /\
    root_staticNode w2 = Some 10 /\
    root_staticNode w3 = Some 7.
Proof.
  refine (proj2 (proj2 (static_flag_locator 2 two_static 12
                          (mkElement 10 (Some BOX_NODE) None) 1 _ _ _ _))
            7 [1] [10] (VBool false) (VBool true) (VBool false)
            _ _ _ _ _ _ _ _ _).
  - vm_compute; reflexivity.
  - vm_compute; reflexivity.
  - eexists; vm_compute; reflexivity.
  - vm_compute. eexists; reflexivity.
  - vm_compute; reflexivity.
  - left.
  - discriminate.
  - vm_compute; reflexivity.
  - vm_compute; reflexivity.
  - intros x Hx. apply list_elem_of_singleton in Hx. subst x.
    vm_compute; reflexivity.
  - reflexivity.
  - reflexivity.
  - reflexivity.
Defined.

(** C3 as stated fails: the slot that is written is the one of
    [PreactElement.root], the root of the session rendered last, not the
    one of the root of the tree the node is in.  A box (node 7, adapter 9)
    lies under the root of the first session (node 1); a second session
    (root node 11) is rendered.  Clearing the flag of the box then
    searches the tree of node 11 and leaves the slot of node 1 at the
    box, although no node of that tree is flagged; and setting the flag
    of such a box stores it in the slot of node 11 and leaves the slot of
    node 1 unset. *)
Lemma static_slot_of_another_session :
  let flagged :=
    snd (run_ops 2 [CreateElementNS "" "ink-box"; Mutate (AppendChild 5 9);
                    Mutate (SetAttribute 9 "internal_static" (VBool true))]
           first_session) in
  let wb := tick (snd (render idle 8 (VText "b") (AStream 7) flagged)) in
  let cleared_flag := setAttribute 2 9 "internal_static" (VBool false) wb in
  let plain :=
    snd (run_ops 2 [CreateElementNS "" "ink-box"; Mutate (AppendChild 5 9)]
           first_session) in
  let we := tick (snd (render idle 8 (VText "b") (AStream 7) plain)) in
  let set_flag := setAttribute 2 9 "internal_static" (VBool true) we in
  (node <$> elements wb !! 9) = Some 7 /\
  (nodes wb !! 7 ≫= parentNode) = Some 1 /\
  inks wb !! 3 = Some (mkInk 1 0) /\
  inks wb !! 13 = Some (mkInk 11 7) /\
  (staticNode <$> nodes wb !! 1) = Some (Some 7) /\
  fst cleared_flag = Ok tt /\
  visit 2 (nodes (snd cleared_flag)) 1 = Some [1; 7] /\
  List.find (is_static (nodes (snd cleared_flag))) [1; 7] = None /\
  (staticNode <$> nodes (snd cleared_flag) !! 1) = Some (Some 7) /\
  fst set_flag = Ok tt /\
  children (nodes (snd set_flag)) 1 = [7] /\
  is_static (nodes (snd set_flag)) 7 = true /\
  (staticNode <$> nodes (snd set_flag) !! 1) = Some None /\
  (staticNode <$> nodes (snd set_flag) !! 11) = Some (Some 7).
Proof.
  cbv zeta. do 13 (split; [vm_compute; reflexivity|]). vm_compute; reflexivity.
Qed.

(** ** C6 *)

Lemma handle_of_alter f n h x :
  (forall d, yogaNode (f d) = yogaNode d) ->
  handle_of (alter f n h) x = handle_of h x.
Proof.
  intros Hf. unfold handle_of. rewrite lookup_alter.
  destruct (decide (n = x)) as [->|]; [|reflexivity].
  destruct (h !! x) as [d|]; simpl; [|reflexivity]. apply Hf.
Qed.







Lemma scheduleOutput_trace w r w' :
  scheduleOutput w = (Ok r, w') ->
  exists sched, trace w' = trace w ++ sched /\
                Forall (fun ev => is_timeout ev = true) sched.
Proof.
  intros H. unfold scheduleOutput in H. inv_run H.
  - exists []. rewrite app_nil_r. auto.
  - eexists. split; [reflexivity|]. repeat constructor.
  - exists []. rewrite app_nil_r. auto.
Qed.




(** ** Strings of digits *)

Local Open Scope string_scope.

Lemma digit_not_space c : is_digit c = true -> is_space c = false.
Proof.
  unfold is_digit, is_space. intros H.
  apply andb_true_iff in H as [H1 H2].
  apply Nat.leb_le in H1, H2.
  apply orb_false_iff. split.
  - apply andb_false_iff. right. apply Nat.leb_gt. lia.
  - apply Nat.eqb_neq. lia.
Qed.

Lemma digit_not_p c : is_digit c = true -> c <> "p"%char.
Proof. intros H ->. discriminate H. Qed.

Lemma skip_digits_px ds :
  all_digits ds = true -> skip_digits (ds ++ "px") = "px".
Proof.
  induction ds as [|c r IH]; [reflexivity|].
  intros H. simpl in H. apply andb_true_iff in H as [Hc Hr].
  change (String c r ++ "px") with (String c (r ++ "px")).
  simpl. rewrite Hc. auto.
Qed.

Lemma test_digits_px_exact ds :
  nonempty_digits ds = true -> test_digits_px (ds ++ "px") = true.
Proof.
  unfold nonempty_digits. destruct ds as [|c r]; [discriminate|]. simpl.
  intros H. apply andb_true_iff in H as [Hc Hr].
  change (String c r ++ "px") with (String c (r ++ "px")).
  unfold test_digits_px. rewrite Hc, (skip_digits_px r Hr). reflexivity.
Qed.

Lemma replace_px_exact ds :
  all_digits ds = true -> replace "px" "" (ds ++ "px") = ds.
Proof.
  induction ds as [|c r IH]; [reflexivity|].
  intros H. simpl in H. apply andb_true_iff in H as [Hc Hr].
  change (String c r ++ "px") with (String c (r ++ "px")).
  change (replace "px" "" (String c (r ++ "px")))
    with (if String.prefix "px" (String c (r ++ "px"))
          then "" ++ drop_chars 2 (String c (r ++ "px"))
          else String c (replace "px" "" (r ++ "px"))).
  change (String.prefix "px" (String c (r ++ "px")))
    with (if ascii_dec "p" c then String.prefix "x" (r ++ "px") else false).
  destruct (ascii_dec "p" c) as [<-|_]; [discriminate Hc|].
  rewrite (IH Hr). reflexivity.
Qed.

Lemma rev_string_digits acc s :
  all_digits acc = true -> all_digits s = true ->
  all_digits (rev_string acc s) = true.
Proof.
  revert acc. induction s as [|c r IH]; intros acc Ha Hs; simpl; [exact Ha|].
  simpl in Hs. apply andb_true_iff in Hs as [Hc Hr].
  apply IH; [|exact Hr]. simpl. rewrite Hc. exact Ha.
Qed.

Lemma append_cons c r t : String c r ++ t = String c (r ++ t).
Proof. reflexivity. Qed.

Lemma append_empty_r s : s ++ "" = s.
Proof.
  induction s as [|c r IH]; [reflexivity|]. rewrite append_cons, IH. reflexivity.
Qed.

Lemma rev_string_twice s acc acc' :
  rev_string acc' (rev_string acc s) = rev_string (s ++ acc') acc.
Proof.
  revert acc acc'. induction s as [|c r IH]; intros acc acc'; [reflexivity|].
  rewrite append_cons. simpl. rewrite IH. reflexivity.
Qed.

Lemma rev_string_involutive s : rev_string "" (rev_string "" s) = s.
Proof. rewrite rev_string_twice. simpl. apply append_empty_r. Qed.

Lemma digit_code c : is_digit c = true -> (48 <= nat_of_ascii c <= 57)%nat.
Proof.
  unfold is_digit. intros H. apply andb_true_iff in H as [H1 H2].
  apply Nat.leb_le in H1, H2. lia.
Qed.

Lemma digit_not_wide c :
  is_digit c = true ->
  (forall d, wide_space2 c d = false) /\ (forall d, wide_space2 d c = false) /\
  (forall d e, wide_space3 c d e = false) /\ (forall d e, wide_space3 e d c = false).
Proof.
  intros H. apply digit_code in H. unfold wide_space2, wide_space3. cbv zeta.
  assert (forall k, (k < 48 \/ 57 < k)%nat -> (nat_of_ascii c =? k)%nat = false) as Hne
    by (intros k Hk; apply Nat.eqb_neq; lia).
  assert ((128 <=? nat_of_ascii c)%nat = false) as Hlt by (apply Nat.leb_gt; lia).
  split; [|split; [|split]]; intros;
    rewrite ?Hlt, ?(Hne 194%nat), ?(Hne 160%nat), ?(Hne 225%nat), ?(Hne 226%nat),
      ?(Hne 227%nat), ?(Hne 239%nat), ?(Hne 128%nat), ?(Hne 159%nat), ?(Hne 191%nat),
      ?(Hne 168%nat), ?(Hne 169%nat), ?(Hne 175%nat) by lia;
    rewrite ?andb_false_r; reflexivity.
Qed.

Lemma skip_spaces_digits s : all_digits s = true -> skip_spaces s = s.
Proof.
  destruct s as [|c r]; [reflexivity|]. cbn [all_digits skip_spaces].
  intros H. apply andb_true_iff in H as [Hc _].
  destruct (digit_not_wide c Hc) as (H2 & _ & H3 & _).
  rewrite (digit_not_space c Hc). destruct r as [|d [|e r3]]; [reflexivity|..];
    rewrite ?H2, ?H3; reflexivity.
Qed.

Lemma skip_spaces_back_digits s : all_digits s = true -> skip_spaces_back s = s.
Proof.
  destruct s as [|c r]; [reflexivity|]. cbn [all_digits skip_spaces_back].
  intros H. apply andb_true_iff in H as [Hc _].
  destruct (digit_not_wide c Hc) as (_ & H2 & _ & H3).
  rewrite (digit_not_space c Hc). destruct r as [|d [|e r3]]; [reflexivity|..];
    rewrite ?H2, ?H3; reflexivity.
Qed.

Lemma trim_digits s : all_digits s = true -> trim s = s.
Proof.
  intros H. unfold trim. rewrite (skip_spaces_digits s H).
  rewrite skip_spaces_back_digits by (apply rev_string_digits; auto).
  apply rev_string_involutive.
Qed.

Lemma toNumber_digits ds :
  nonempty_digits ds = true -> (digits_value 0 ds <= 2 ^ 53)%Z ->
  toNumber ds = Num (digits_value 0 ds).
Proof.
  unfold nonempty_digits. intros H Hv. apply andb_true_iff in H as [Hne Hd].
  unfold toNumber. rewrite (trim_digits ds Hd).
  apply negb_true_iff in Hne. rewrite Hne, Hd.
  apply Z.leb_le in Hv. rewrite Hv. reflexivity.
Qed.

(** A string of one or more digits followed by [px] is stored as the
    number the digits denote (as far as a double holds it exactly). *)
Lemma normalise_px ds :
  nonempty_digits ds = true -> (digits_value 0 ds <= 2 ^ 53)%Z ->
  normalise (VString (ds ++ "px")) = VNumber (Num (digits_value 0 ds)).
Proof.
  intros H Hv. unfold normalise. rewrite (test_digits_px_exact ds H).
  unfold nonempty_digits in H. apply andb_true_iff in H as [Hne Hd].
  rewrite (replace_px_exact ds Hd), toNumber_digits; auto.
  unfold nonempty_digits. rewrite Hne, Hd. reflexivity.
Qed.

(** A value the pattern does not match is stored as it is. *)
Lemma normalise_unmatched v :
  (forall s, v = VString s -> test_digits_px s = false) -> normalise v = v.
Proof.
  intros H. destruct v; try reflexivity. simpl. rewrite (H s eq_refl). reflexivity.
Qed.

Local Open Scope list_scope.

(** ** The style proxy: what an assignment stores and forwards *)

Lemma style_set_normalise n obj prop value :
  style_set n obj prop value = store_and_forward n obj prop (normalise value).
Proof.
  destruct value; try reflexivity. simpl. destruct (test_digits_px s); reflexivity.
Qed.

Lemma store_and_forward_run n obj prop v w o d :
  styles w !! obj = Some o -> nodes w !! n = Some d -> sched_wf w ->
  exists w' sched,
    store_and_forward n obj prop v w = (Ok true, w') /\
    styles w' = <[obj := <[prop := v]> o]> (styles w) /\
    trace w' = trace w ++ forwarded d (<[prop := v]> o) ++ sched /\
    Forall (fun ev => is_timeout ev = true) sched.
Proof.
  intros Ho Hd Hwf. unfold store_and_forward, applyStyle, dom_node, bind at 1, deref at 1.
  rewrite Ho. run_forward. rewrite Hd. unfold forwarded.
  destruct (yogaNode d) as [y|]; run_forward.
  - rewrite lookup_insert_eq. run_forward. run_scheduleOutput Hwf.
    destruct (scheduleOutput_trace _ _ _ Hs) as (sched & Ht & Hsched).
    exists w', sched. split; [reflexivity|]. split; [apply Hso|].
    split; [|exact Hsched]. rewrite Ht. wsimpl. rewrite <- app_assoc. reflexivity.
  - eexists _, []. split; [reflexivity|]. wsimpl. rewrite !app_nil_r. auto.
Qed.

Lemma assign_style_run a prop value w e d o :
  elements w !! a = Some e -> nodes w !! node e = Some d ->
  styles w !! default (style d) (_style e) = Some o -> sched_wf w ->
  exists w' sched,
    assign_style a prop value w = (Ok true, w') /\
    styles w' = <[default (style d) (_style e) := <[prop := normalise value]> o]> (styles w) /\
    trace w' = trace w ++ forwarded d (<[prop := normalise value]> o) ++ sched /\
    Forall (fun ev => is_timeout ev = true) sched.
Proof.
  intros He Hd Ho Hwf.
  unfold assign_style, get_style, element, dom_node, bind at 1 2, deref at 1.
  rewrite He. destruct (_style e) as [p|] eqn:Hp; simpl in Ho.
  - run_forward. rewrite He. rewrite style_set_normalise.
    apply store_and_forward_run; assumption.
  - run_forward. rewrite Hd. run_forward. rewrite lookup_insert_eq.
    rewrite style_set_normalise.
    match goal with
    | |- context [store_and_forward ?n ?obj ?p ?v ?W] =>
        destruct (store_and_forward_run n obj p v W o d Ho Hd Hwf)
          as (w' & sched & H1 & H2 & H3 & H4)
    end.
    exists w', sched. split; [exact H1|]. split; [exact H2|].
    split; [exact H3|exact H4].
Qed.

(** ** C4 *)

(** C4 fails on the code.  The pattern of the set trap is anchored at the
    start only, so a string that merely begins with digits and [px] is
    converted as well: assigning ["10px solid"] stores NaN, not the string,
    and NaN is what the layout engine is handed. *)
Theorem px_pattern_not_anchored :
  let run := assign_style 9 "width" (VString "10px solid") laid_out in
  test_digits_px "10px solid" = true /\
  fst run = Ok true /\
  (styles (snd run) !! 8 ≫= (fun o => o !! "width")) = Some (VNumber NaN) /\
  trace (snd run) =
    trace laid_out ++ [ApplyStyle 101 {["width" := VNumber NaN]}; SetTimeout 14 4].
Proof.
  cbv zeta. split; [vm_compute; reflexivity|]. split; [vm_compute; reflexivity|].
  split; vm_compute; reflexivity.
Qed.

(** ** C5 *)

(** C5, as the code has it.  [setAttribute(key, value)] hands a ['style']
    value to [dom.setStyle] (the style proxy is not involved: nothing is
    normalised and [applyStyle] is not called); for the key
    ['internal_static'] it sets the flag and stores in [root.staticNode]
    the node itself (truthy value) or the result of [searchStatic]; it
    then calls [dom.setAttribute] with the key and the value, whatever the
    key; and its last step is [scheduleOutput], which only starts a
    timer. *)
Theorem setAttribute_routes
  (fuel : nat) (w : World) (a : nat) (e : PreactElement) (key : string)
  (value : Value) (rt : nat) (found : option nat) :
  elements w !! a = Some e ->
  sched_wf w ->
  (key = "internal_static" ->
   root w = Some rt /\
   if truthy value then found = Some (node e)
   else searchStatic fuel (alter (set_internal_static value) (node e) (nodes w)) rt
        = Some found) ->
  exists w1 w',
    setAttribute fuel a key value w = (Ok tt, w') /\
    scheduleOutput w1 = (Ok tt, w') /\
    trace w1 = trace w
               ++ (if String.eqb key "style" then [DomSetStyle (node e) value] else [])
               ++ [DomSetAttribute (node e) key value] /\
    nodes w1 = after_setAttribute w (node e) key value rt found /\
    exists sched, trace w' = trace w1 ++ sched /\
                  Forall (fun ev => is_timeout ev = true) sched.
Proof.
  intros He Hwf Hst. unfold after_setAttribute.
  unfold setAttribute, element, bind at 1, deref at 1. rewrite He.
  destruct (String.eqb key "style") eqn:E1.
  - apply String.eqb_eq in E1. subst key. cbn [String.eqb Ascii.eqb Bool.eqb].
    run_forward. run_scheduleOutput Hwf.
    eexists _, _. split; [reflexivity|]. split; [exact Hs|]. wsimpl.
    (split; [|split]);
      first [reflexivity|rewrite <- app_assoc; reflexivity
            |exact (scheduleOutput_trace _ _ _ Hs)].
  - destruct (String.eqb key "internal_transform") eqn:E2.
    + apply String.eqb_eq in E2. subst key. cbn [String.eqb Ascii.eqb Bool.eqb].
      run_forward. run_scheduleOutput Hwf.
      eexists _, _. split; [reflexivity|]. split; [exact Hs|]. wsimpl.
      (split; [|split]);
      first [reflexivity|rewrite <- app_assoc; reflexivity
            |exact (scheduleOutput_trace _ _ _ Hs)].
    + destruct (String.eqb key "internal_static") eqn:E3.
      * apply String.eqb_eq in E3. subst key.
        destruct (Hst eq_refl) as [Hr Hf]. run_forward. rewrite Hr. run_forward.
        destruct (truthy value).
        -- subst found. run_forward. run_scheduleOutput Hwf.
           eexists _, _. split; [reflexivity|]. split; [exact Hs|]. wsimpl.
           (split; [|split]);
      first [reflexivity|rewrite <- app_assoc; reflexivity
            |exact (scheduleOutput_trace _ _ _ Hs)].
        -- run_forward. rewrite Hf. run_forward. run_scheduleOutput Hwf.
           eexists _, _. split; [reflexivity|]. split; [exact Hs|]. wsimpl.
           (split; [|split]);
      first [reflexivity|rewrite <- app_assoc; reflexivity
            |exact (scheduleOutput_trace _ _ _ Hs)].
      * run_forward. run_scheduleOutput Hwf.
        eexists _, _. split; [reflexivity|]. split; [exact Hs|]. wsimpl.
        (split; [|split]);
      first [reflexivity|rewrite <- app_assoc; reflexivity
            |exact (scheduleOutput_trace _ _ _ Hs)].
Qed.

Lemma setAttribute_routes_witness :
  let v := VObject [("width", VString "10px")] in
  exists w1 w',
    setAttribute 1 9 "style" v laid_out = (Ok tt, w') /\
    scheduleOutput w1 = (Ok tt, w') /\
    trace w1 = trace laid_out ++ [DomSetStyle 7 v] ++ [DomSetAttribute 7 "style" v] /\
    nodes w1 = after_setAttribute laid_out 7 "style" v 1 None /\
    exists sched, trace w' = trace w1 ++ sched /\
                  Forall (fun ev => is_timeout ev = true) sched.
Proof.
  intros v.
  apply (setAttribute_routes 1 laid_out 9 (mkElement 7 (Some BOX_NODE) None)
           "style" v 1 None).
  - vm_compute; reflexivity.
  - vm_compute. eexists; reflexivity.
  - discriminate.
Defined.

(** C5 as stated fails: [setAttribute('style', ...)] on a node that has a
    layout handle calls [dom.setStyle] and [dom.setAttribute] and nothing
    of the layout engine, and the width stays the string ["10px"]; the
    same value assigned through the style proxy is stored as the number 10
    and forwarded with [applyStyle]. *)
Lemma setAttribute_style_skips_proxy :
  let v := VObject [("width", VString "10px")] in
  let by_attribute := setAttribute 1 9 "style" v laid_out in
  let by_proxy := assign_style 9 "width" (VString "10px") laid_out in
  fst by_attribute = Ok tt /\
  trace (snd by_attribute) =
    trace laid_out ++ [DomSetStyle 7 v; DomSetAttribute 7 "style" v; SetTimeout 15 4] /\
  (nodes (snd by_attribute) !! 7 ≫= fun d =>
   styles (snd by_attribute) !! style d ≫= fun o => o !! "width")
    = Some (VString "10px") /\
  fst by_proxy = Ok true /\
  trace (snd by_proxy) =
    trace laid_out ++ [ApplyStyle 101 {["width" := VNumber (Num 10)]}; SetTimeout 14 4] /\
  (styles (snd by_proxy) !! 8 ≫= fun o => o !! "width") = Some (VNumber (Num 10)).
Proof.
  cbv zeta.
  split; [vm_compute; reflexivity|]. split; [vm_compute; reflexivity|].
  split; [vm_compute; reflexivity|]. split; [vm_compute; reflexivity|].
  split; vm_compute; reflexivity.
Qed.

(** ** Sessions: what [render] and the adapters do to the registry *)


(** The run in the hypothesis [H] is computed as far as it goes, and the
    lookups it gets stuck on are split into their cases. *)
Ltac wsimpl_in H :=
  cbn [nodes styles elements domNode2PreactElement bound_scheduleOutput root
       closures timers instances inks trace next upd_nodes upd_styles
       upd_elements upd_table set_bound set_root upd_closures upd_timers
       upd_instances upd_inks emit bump fst snd] in H.

Ltac forward_in H :=
  repeat progress
    (cbv beta iota zeta delta
       [bind ret throw diverge modify gets deref alloc log element dom_node
        upd_node when dom.setAttribute dom.setStyle dom.setTextNodeValue
        dom.removeChildNode dom.appendChildNode dom.insertBeforeNode
        dom.createNode dom.createTextNode new_Ink getInstance ink_render
        new_PreactElement] in H;
     wsimpl_in H).

Ltac cases_in H :=
  forward_in H;
  repeat
    (match type of H with
     | context [match ?x with _ => _ end] =>
         let E := fresh "E" in
         destruct x eqn:E; try discriminate H
     end;
     forward_in H).


Ltac cases_all :=
  repeat
    match goal with
    | H : (Ok _, _) = (Ok _, _) |- _ => injection H as <- <-
    | H : (Throw _, _) = (Ok _, _) |- _ => discriminate H
    | H : (Diverge, _) = (Ok _, _) |- _ => discriminate H
    | H : _ = (Ok _, _) |- _ =>
        match type of H with
        | context [match ?x with _ => _ end] =>
            let E := fresh "E" in
            destruct x eqn:E; try discriminate H; forward_in H
        end
    | u : unit |- _ => destruct u
    end.


Section RenderFacts.
Variable reconcile : World -> nat -> VNode -> nat -> list Op.

Lemma prender_preserves P fuel i v container :
  (forall o, preserves P (run_op fuel o)) ->
  preserves P (prender reconcile fuel i v container).
Proof.
  intros Ho. unfold prender. apply preserves_bind; [apply preserves_gets|].
  intros w. apply run_ops_preserves. exact Ho.
Qed.

Lemma extends_without_refl p w : extends_without p w w.
Proof. exists []. rewrite app_nil_r. auto. Qed.

Lemma extends_without_emit p w0 w es :
  Forall (fun e => p e = false) es ->
  extends_without p w0 w -> extends_without p w0 (emit es w).
Proof.
  intros Hes (seg & Hs & Hf). exists (seg ++ es). cbn. rewrite Hs, app_assoc.
  split; [reflexivity|]. apply Forall_app. auto.
Qed.

Lemma freed_no_construct l : Forall (fun e => constructs e = false) (map Free l).
Proof. induction l; simpl; constructor; auto. Qed.

Ltac session_leaf :=
  let w := fresh "w" in let H := fresh "H" in
  intros w H;
  first [ exact H
        | destruct H as [H1 H2]; split;
          [exact H1
          |first [exact H2
                 |apply extends_without_emit;
                  [first [apply freed_no_construct | repeat constructor]|exact H2]]] ].

Lemma registry_kept_refl w : registry_kept w w.
Proof. split; [auto|apply extends_without_refl]. Qed.

Lemma registry_kept_trans w0 w1 w2 :
  registry_kept w0 w1 -> registry_kept w1 w2 -> registry_kept w0 w2.
Proof.
  intros [[Hi1 Hk1] (s1 & Ht1 & Hf1)] [[Hi2 Hk2] (s2 & Ht2 & Hf2)].
  split; [split; congruence|]. exists (s1 ++ s2).
  rewrite Ht2, Ht1, app_assoc. split; [reflexivity|]. apply Forall_app. auto.
Qed.

Lemma preserves_run {A} P (c : M A) w r w' :
  preserves P c -> P w -> c w = (r, w') -> P w'.
Proof. intros Hc Hw E. specialize (Hc w Hw). rewrite E in Hc. exact Hc. Qed.

Lemma scheduleOutput_registry w0 : preserves (registry_kept w0) scheduleOutput.
Proof. unfold scheduleOutput. preserves_with idtac session_leaf. Qed.

Lemma run_op_registry w0 fuel o : preserves (registry_kept w0) (run_op fuel o).
Proof.
  destruct o; try destruct m;
    preserves_with ltac:(apply scheduleOutput_registry) session_leaf.
Qed.

Lemma prender_registry wref fuel i v a W x w0 y w1 :
  registry_kept wref W ->
  prender reconcile fuel i v a W = (Ok x, w0) ->
  scheduleOutput w0 = (Ok y, w1) ->
  registry_kept wref w1.
Proof.
  intros HW Hp Hs.
  pose proof (prender_preserves (registry_kept wref) fuel i v a
                (run_op_registry wref fuel)) as Hpp.
  pose proof (preserves_run (registry_kept wref) _ W _ w0 Hpp HW Hp) as Hk0.
  exact (preserves_run (registry_kept wref) _ w0 _ w1
           (scheduleOutput_registry wref) Hk0 Hs).
Qed.

Lemma getInstance_inv o w i wi :
  getInstance (ink_stdout o) (new_Ink o) w = (Ok i, wi) ->
  (instances w !! ink_stdout o = Some i /\ wi = w) \/
  (instances w !! ink_stdout o = None /\ i = S (S (next w)) /\
   wi = constructed o w).
Proof.
  intros H. unfold getInstance in H. cases_in H.
  - injection H as <- <-. left. auto.
  - injection H as <- <-. right. auto.
Qed.


Lemma render_inv fuel v o w h w' :
  render reconcile fuel v o w = (Ok h, w') ->
  exists wi ink d wb,
    getInstance (ink_stdout (inkOptions o)) (new_Ink (inkOptions o)) w
      = (Ok (handle_instance h), wi) /\
    handle_stdout h = ink_stdout (inkOptions o) /\
    inks wi !! handle_instance h = Some ink /\
    nodes wi !! rootNode ink = Some d /\
    prender reconcile fuel (handle_instance h) v (S (next wi))
      (bound_to (handle_instance h) (rootNode ink) d v wi) = (Ok tt, wb) /\
    scheduleOutput wb = (Ok tt, w').
Proof.
  intros H. unfold render in H.
  cbv beta zeta delta [bind] in H.
  destruct (getInstance _ _ w) as [[i| |] wi] eqn:Hg; try discriminate H.
  forward_in H. cases_all.
  cbn [handle_instance handle_stdout]. wsimpl.
  do 4 eexists. repeat (split; [first [reflexivity|eassumption]|]). eassumption.
Qed.

(** A [render] call returns the session the registry holds for its stream
    when it returns, and constructs none if the registry held one when it
    was called. *)
Lemma render_registers fuel v o w h w' :
  render reconcile fuel v o w = (Ok h, w') ->
  instances w' !! ink_stdout (inkOptions o) = Some (handle_instance h) /\
  (forall i, instances w !! ink_stdout (inkOptions o) = Some i ->
             handle_instance h = i /\ registry_kept w w').
Proof.
  intros H. destruct (render_inv _ _ _ _ _ _ H)
    as (wi & ink & d & wb & Hg & Hout & Hink & Hd & Hp & Hs).
  destruct (getInstance_inv _ _ _ _ Hg) as [[Hi ->]|(Hi & Hnew & ->)].
  - assert (registry_kept w (bound_to (handle_instance h) (rootNode ink) d v w)) as HW
      by (split; [split; reflexivity|];
          eexists; split; [reflexivity|repeat constructor]).
    pose proof (prender_registry w _ _ _ _ _ _ _ _ _ HW Hp Hs) as Hk.
    split.
    + destruct Hk as [[Hk _] _]. rewrite Hk. exact Hi.
    + intros i Ei. rewrite Hi in Ei. injection Ei as <-. auto.
  - pose proof (prender_registry _ _ _ _ _ _ _ _ _ _ (registry_kept_refl _) Hp Hs)
      as [[Hk _] _].
    split.
    + rewrite Hk. unfold bound_to, constructed. wsimpl. rewrite <- Hnew.
      apply lookup_insert_eq.
    + intros i Ei. rewrite Hi in Ei. discriminate Ei.
Qed.

(** ** C8 *)

(** A [render] call on a stream that has a session: whatever its
    outcome, it constructs no session and leaves the registry and the
    sessions as they are, it has called [render] of that session with the
    tree, and a handle it returns is the handle of that session. *)
Lemma render_of_registered fuel v o w i ink r w' :
  instances w !! ink_stdout (inkOptions o) = Some i ->
  inks w !! i = Some ink ->
  render reconcile fuel v o w = (r, w') ->
  registry_kept w w' /\
  (exists seg, trace w' = trace w ++ InkRender i v :: seg) /\
  (forall h, r = Ok h -> h = mkInstance i (ink_stdout (inkOptions o))).
Proof.
  intros Hi Hink. unfold render. cbv zeta.
  unfold getInstance at 1, gets, bind at 1 2. rewrite Hi.
  unfold ink_render, new_PreactElement. run_forward. rewrite Hink. run_forward.
  set (W := emit [InkRender i v]
              (set_root (Some (rootNode ink))
                 (set_bound (Some (next w))
                    (upd_closures (<[next w := mkClosure i None]>) (bump w))))).
  assert (registry_kept w W) as HW
    by (split; [split; reflexivity|];
        eexists; split; [reflexivity|repeat constructor]).
  assert (forall x (w1 : World), registry_kept W w1 -> (x, w1) = (r, w') ->
            registry_kept w w' /\
            (exists seg, trace w' = trace w ++ InkRender i v :: seg) /\
            (r <> Throw Dangling \/ True)) as Hend.
  { intros x w1 Hk [= _ <-]. split; [exact (registry_kept_trans _ _ _ HW Hk)|].
    split; [|auto]. destruct Hk as [_ (seg & Ht & _)]. exists seg.
    rewrite Ht. unfold W. wsimpl. rewrite <- app_assoc. reflexivity. }
  destruct (nodes w !! rootNode ink) as [d|] eqn:Hd; run_forward.
  - match goal with
    | |- context [prender ?rc ?f ?i ?v ?a ?W0] =>
        assert (registry_kept W W0) as HW0
          by (split; [split; reflexivity|];
              eexists; split; [unfold W; wsimpl; symmetry; apply app_nil_r|constructor]);
        pose proof (prender_preserves (registry_kept W) f i v a
                      (run_op_registry W f) W0 HW0) as Hp;
        destruct (prender rc f i v a W0) as [[[]| |] wp]; cbn [snd] in Hp
    end.
    + pose proof (scheduleOutput_registry W wp Hp) as Hs.
      destruct (scheduleOutput wp) as [[[]| |] ws]; cbn [snd] in Hs;
        intros E; destruct (Hend _ _ Hs E) as (H1 & H2 & _);
        (split; [exact H1|split; [exact H2|]]);
        intros h Eh; injection E as <- <-; try discriminate Eh.
      injection Eh as <-. reflexivity.
    + intros E. destruct (Hend _ _ Hp E) as (H1 & H2 & _).
      split; [exact H1|split; [exact H2|]].
      intros h Eh. injection E as <- <-. discriminate Eh.
    + intros E. destruct (Hend _ _ Hp E) as (H1 & H2 & _).
      split; [exact H1|split; [exact H2|]].
      intros h Eh. injection E as <- <-. discriminate Eh.
  - intros E.
    assert (registry_kept W W) as HWW by apply registry_kept_refl.
    destruct (Hend _ _ HWW E) as (H1 & H2 & _).
    split; [exact H1|split; [exact H2|]].
    intros h Eh. injection E as <- <-. discriminate Eh.
Qed.

(** Of two [render] calls that resolve to the same output stream, with
    nothing but adapter operations in between, the second, whether it
    returns or throws, resolves the session of the first: it constructs
    none, the registry still maps the stream to that session, it has
    called [render] of that session with its tree, and if it returns, its
    handle is the first handle.  [rerender] of that handle calls [render]
    of that session. *)
Lemma render_resolves_session
  (fuel : nat) (w w1 w1' w2 : World) (v1 v2 : VNode) (o1 o2 : RenderArg)
  (h1 : Instance) (between : list Op) (r : Result unit) (r2 : Result Instance) :
  ink_stdout (inkOptions o2) = ink_stdout (inkOptions o1) ->
  render reconcile fuel v1 o1 w = (Ok h1, w1) ->
  run_ops fuel between w1 = (r, w1') ->
  render reconcile fuel v2 o2 w1' = (r2, w2) ->
  instances w2 = instances w1 /\
  inks w2 = inks w1 /\
  extends_without constructs w1 w2 /\
  instances w2 !! handle_stdout h1 = Some (handle_instance h1) /\
  (exists seg, trace w2 = trace w1' ++ InkRender (handle_instance h1) v2 :: seg) /\
  (forall h2, r2 = Ok h2 -> h2 = h1) /\
  (forall v3 W, rerender h1 v3 W = (Ok tt, emit [InkRender (handle_instance h1) v3] W)).
Proof.
  intros Ho H1 Hb H2.
  destruct (render_registers _ _ _ _ _ _ H1) as [Hreg _].
  destruct (render_inv _ _ _ _ _ _ H1)
    as (wi & ink & d & wb & Hg & Hout & Hink & Hd & Hp & Hs).
  assert (inks w1 !! handle_instance h1 = Some ink) as Hink1.
  { pose proof (prender_registry _ _ _ _ _ _ _ _ _ _
                  (registry_kept_refl _) Hp Hs) as [[_ Hk] _].
    rewrite Hk. exact Hink. }
  pose proof (preserves_run _ _ _ _ _
                (run_ops_preserves _ fuel between (run_op_registry w1 fuel))
                (registry_kept_refl w1) Hb) as Hk.
  pose proof Hk as [[Hki Hkk] _].
  destruct (render_of_registered fuel v2 o2 w1' (handle_instance h1) ink r2 w2)
    as (Hk2 & Htr & Hh); [rewrite Ho, Hki; exact Hreg|rewrite Hkk; exact Hink1|exact H2|].
  pose proof (registry_kept_trans _ _ _ Hk Hk2) as [[Hi2 Hk3] Hx].
  split; [exact Hi2|]. split; [exact Hk3|]. split; [exact Hx|]. split.
  { rewrite Hi2, Hout. exact Hreg. }
  split; [exact Htr|]. split.
  { intros h2 E. rewrite (Hh h2 E), Ho, <- Hout. destruct h1; reflexivity. }
  intros v3 W. reflexivity.
Qed.

End RenderFacts.

(** C8 fails on the code.  The first [render] call on [process.stdout]
    returns the handle of a new session (3) and puts a text node under
    its root.  The second call looks up that session, constructs none and
    calls its [render] with the new tree, but it does not return a
    handle: the reconciler reads [childNodes] of the new adapter of the
    root (11), which has a child by now, the unbound
    [domNode2PreactElement.get] is called without a receiver (line 199)
    and [render] throws a TypeError.  A re-render is still possible
    through the first handle. *)
Theorem second_render_throws :
  let r1 := render adopting 8 (VText "a") NoOptions initial in
  let w1 := tick (snd r1) in
  let r2 := render adopting 8 (VText "b") NoOptions w1 in
  fst r1 = Ok (mkInstance 3 0) /\
  instances w1 !! process_stdout = Some 3 /\
  children (nodes w1) 1 = [6] /\
  fst r2 = Throw TypeError /\
  instances (snd r2) = instances w1 /\
  inks (snd r2) = inks w1 /\
  trace (snd r2) = trace w1 ++ [InkRender 3 (VText "b")] /\
  (node <$> elements (snd r2) !! 11) = Some 1 /\
  get_childNodes 11 (snd r2) = (Throw TypeError, snd r2) /\
  rerender (mkInstance 3 0) (VText "c") (snd r2)
    = (Ok tt, emit [InkRender 3 (VText "c")] (snd r2)).
Proof.
  cbv zeta. do 9 (split; [vm_compute; reflexivity|]). reflexivity.
Qed.

(** When the reconciler does not read [childNodes], the second call
    returns the handle of the first. *)
Example second_render_of_idle_returns :
  let r1 := render idle 8 (VText "a") NoOptions initial in
  let wb := snd (run_ops 8 [CreateTextNode "x"] (snd r1)) in
  let r2 := render idle 8 (VText "b") (AStream process_stdout) wb in
  fst r1 = Ok (mkInstance 3 0) /\ fst r2 = Ok (mkInstance 3 0) /\
  instances (snd r2) = instances (snd r1) /\ inks (snd r2) = inks (snd r1).
Proof.
  cbv zeta. do 3 (split; [vm_compute; reflexivity|]). vm_compute; reflexivity.
Qed.

(** ** C9 *)

Section SchedulerFacts.
Variable reconcile : World -> nat -> VNode -> nat -> list Op.

End SchedulerFacts.




(** ** C10 *)

Lemma inv_on_mono els tbl ks nx nx' :
  inv_on els tbl ks nx -> nx <= nx' -> inv_on els tbl ks nx'.
Proof.
  intros (U & T & R & A1 & A2) Hle. repeat split; auto.
  - destruct (A1 _ _ H). lia.
  - destruct (A1 _ _ H). lia.
  - destruct (A2 _ _ H). lia.
  - destruct (A2 _ _ H). lia.
Qed.

Lemma inv_on_register els tbl ks nx nx' a n ty s :
  inv_on els tbl ks nx -> nx <= n -> nx <= a -> n < nx' -> a < nx' ->
  inv_on (<[a := mkElement n ty s]> els) (<[n := a]> tbl) ks nx'.
Proof.
  intros (U & T & R & A1 & A2) Hn Ha Hn' Ha'.
  assert (forall a0 e0, els !! a0 = Some e0 -> a0 <> a /\ node e0 <> n) as Hold.
  { intros a0 e0 H0. destruct (A1 _ _ H0). lia. }
  split; [|split; [|split; [|split]]].
  - intros a1 a2 e1 e2 H1 H2 Heq.
    destruct (decide (a1 = a)) as [->|N1]; destruct (decide (a2 = a)) as [->|N2];
      auto.
    + rewrite lookup_insert_eq in H1. rewrite lookup_insert_ne in H2 by congruence.
      injection H1 as <-. simpl in Heq. destruct (Hold _ _ H2). congruence.
    + rewrite lookup_insert_eq in H2. rewrite lookup_insert_ne in H1 by congruence.
      injection H2 as <-. simpl in Heq. destruct (Hold _ _ H1). congruence.
    + rewrite lookup_insert_ne in H1, H2 by congruence. eauto.
  - intros n0 a0 H0. destruct (decide (n0 = n)) as [->|Nn].
    + rewrite lookup_insert_eq in H0. injection H0 as <-.
      rewrite lookup_insert_eq. eauto.
    + rewrite lookup_insert_ne in H0 by congruence.
      destruct (T _ _ H0) as (e & He & Hne). destruct (Hold _ _ He).
      rewrite lookup_insert_ne by congruence. eauto.
  - intros a0 e0 H0. destruct (decide (a0 = a)) as [->|Na].
    + rewrite lookup_insert_eq in H0. injection H0 as <-. simpl.
      right. apply lookup_insert_eq.
    + rewrite lookup_insert_ne in H0 by congruence.
      destruct (Hold _ _ H0). destruct (R _ _ H0) as [Hr|Hr]; [auto|].
      right. rewrite lookup_insert_ne by congruence. exact Hr.
  - intros a0 e0 H0. destruct (decide (a0 = a)) as [->|Na].
    + rewrite lookup_insert_eq in H0. injection H0 as <-. simpl. lia.
    + rewrite lookup_insert_ne in H0 by congruence. destruct (A1 _ _ H0). lia.
  - intros i k H0. destruct (A2 _ _ H0). lia.
Qed.

Lemma inv_on_root_adapter els tbl ks nx nx' a i k ty s :
  inv_on els tbl ks nx -> ks !! i = Some k -> nx <= a -> a < nx' ->
  inv_on (<[a := mkElement (rootNode k) ty s]> els) tbl ks nx'.
Proof.
  intros (U & T & R & A1 & A2) Hk Ha Ha'.
  assert (root_of ks (rootNode k)) as Hroot by (exists i, k; auto).
  assert (forall a0 e0, els !! a0 = Some e0 -> a0 <> a) as Hold.
  { intros a0 e0 H0. destruct (A1 _ _ H0). lia. }
  split; [|split; [|split; [|split]]].
  - intros a1 a2 e1 e2 H1 H2 Heq.
    destruct (decide (a1 = a)) as [->|N1]; destruct (decide (a2 = a)) as [->|N2];
      auto.
    + rewrite lookup_insert_eq in H1. injection H1 as <-. auto.
    + rewrite lookup_insert_eq in H2. injection H2 as <-. simpl in Heq.
      rewrite Heq. auto.
    + rewrite lookup_insert_ne in H1, H2 by congruence. eauto.
  - intros n0 a0 H0. destruct (T _ _ H0) as (e & He & Hne).
    pose proof (Hold _ _ He). rewrite lookup_insert_ne by congruence. eauto.
  - intros a0 e0 H0. destruct (decide (a0 = a)) as [->|Na].
    + rewrite lookup_insert_eq in H0. injection H0 as <-. auto.
    + rewrite lookup_insert_ne in H0 by congruence. eauto.
  - intros a0 e0 H0. destruct (decide (a0 = a)) as [->|Na].
    + rewrite lookup_insert_eq in H0. injection H0 as <-. simpl.
      destruct (A2 _ _ Hk). lia.
    + rewrite lookup_insert_ne in H0 by congruence. destruct (A1 _ _ H0). lia.
  - intros i0 k0 H0. destruct (A2 _ _ H0). lia.
Qed.

Lemma inv_on_restyle els tbl ks nx a e ty s :
  inv_on els tbl ks nx -> els !! a = Some e ->
  inv_on (<[a := mkElement (node e) ty s]> els) tbl ks nx.
Proof.
  intros (U & T & R & A1 & A2) He.
  assert (forall a0 e0, <[a := mkElement (node e) ty s]> els !! a0 = Some e0 ->
            exists e1, els !! a0 = Some e1 /\ node e1 = node e0) as Hsame.
  { intros a0 e0 H0. destruct (decide (a0 = a)) as [->|Na].
    - rewrite lookup_insert_eq in H0. injection H0 as <-. eauto.
    - rewrite lookup_insert_ne in H0 by congruence. eauto. }
  split; [|split; [|split; [|split]]].
  - intros a1 a2 e1 e2 H1 H2 Heq.
    destruct (Hsame _ _ H1) as (e1' & H1' & N1).
    destruct (Hsame _ _ H2) as (e2' & H2' & N2).
    rewrite <- N1. apply (U a1 a2 e1' e2'); congruence.
  - intros n0 a0 H0. destruct (T _ _ H0) as (e0 & He0 & Hne).
    destruct (decide (a0 = a)) as [->|Na].
    + rewrite lookup_insert_eq. eexists. split; [reflexivity|]. simpl. congruence.
    + rewrite lookup_insert_ne by congruence. eauto.
  - intros a0 e0 H0. destruct (Hsame _ _ H0) as (e1 & H1 & N1).
    rewrite <- N1. eauto.
  - intros a0 e0 H0. destruct (Hsame _ _ H0) as (e1 & H1 & N1).
    rewrite <- N1. eauto.
  - exact A2.
Qed.

Lemma inv_on_new_ink els tbl ks nx nx' i r out :
  inv_on els tbl ks nx -> nx <= i -> i < nx' -> r < nx' -> nx <= nx' ->
  inv_on els tbl (<[i := mkInk r out]> ks) nx'.
Proof.
  intros (U & T & R & A1 & A2) Hi Hi' Hr Hle.
  assert (forall n, root_of ks n -> root_of (<[i := mkInk r out]> ks) n) as Hmono.
  { intros n (i0 & k0 & H0 & Hn). exists i0, k0. split; [|exact Hn].
    destruct (A2 _ _ H0). rewrite lookup_insert_ne by lia. exact H0. }
  split; [|split; [|split; [|split]]].
  - intros a1 a2 e1 e2 H1 H2 Heq. destruct (U _ _ _ _ H1 H2 Heq); auto.
  - exact T.
  - intros a0 e0 H0. destruct (R _ _ H0); auto.
  - intros a0 e0 H0. destruct (A1 _ _ H0). lia.
  - intros i0 k0 H0. destruct (decide (i0 = i)) as [->|Ni].
    + rewrite lookup_insert_eq in H0. injection H0 as <-. simpl. lia.
    + rewrite lookup_insert_ne in H0 by congruence. destruct (A2 _ _ H0). lia.
Qed.

Lemma Inv_initial : Inv initial.
Proof.
  unfold Inv, inv_on, unique_off_root, table_sound, registered_off_root.
  unfold initial. wsimpl.
  split; [|split; [|split; [|split]]]; intros * H; rewrite lookup_empty in H;
    discriminate H.
Qed.

Ltac inv_leaf :=
  let w := fresh "w" in let H := fresh "H" in
  intros w H;
  first [ exact H
        | exact (inv_on_mono _ _ _ _ _ H (le_S _ _ (le_n _))) ].

Lemma get_style_Inv a : preserves Inv (get_style a).
Proof.
  intros w Hw. unfold get_style, element, dom_node, bind, deref, modify, ret.
  destruct (elements w !! a) as [e|] eqn:He; [|exact Hw].
  destruct (_style e); [exact Hw|].
  destruct (nodes w !! node e); [|exact Hw].
  cbn. apply inv_on_restyle; assumption.
Qed.

Lemma createTextNode_Inv text : preserves Inv (document.createTextNode text).
Proof.
  intros w Hw.
  unfold document.createTextNode, dom.createTextNode, new_PreactElement.
  run_forward. rewrite lookup_insert_eq. run_forward.
  unfold Inv. wsimpl. apply (inv_on_register _ _ _ (next w)); [exact Hw|lia..].
Qed.

Lemma createElementNS_Inv ns qn : preserves Inv (document.createElementNS ns qn).
Proof.
  intros w Hw.
  unfold document.createElementNS, dom.createNode, new_PreactElement.
  destruct (String.prefix "ink-" qn); [|exact Hw].
  run_forward. rewrite lookup_insert_eq. run_forward.
  unfold Inv. wsimpl. apply (inv_on_register _ _ _ (next w)); [exact Hw|lia..].
Qed.

Ltac preserves_inv :=
  repeat
    (unfold perform, appendChild, insertBefore, removeChild, setAttribute,
       assign_style, set_data, assign_internal_transform, contains,
       style_set, store_and_forward, applyStyle, freeRecursive,
       when, run_op, dom.setAttribute, dom.setStyle, dom.setTextNodeValue,
       dom.removeChildNode, dom.appendChildNode, dom.insertBeforeNode,
       element, dom_node, upd_node, log, ink_render, rerender, cleanup,
       scheduleOutput;
     lazymatch goal with
     | |- preserves _ (get_style _) => apply get_style_Inv
     | |- preserves _ (document.createTextNode _) => apply createTextNode_Inv
     | |- preserves _ (document.createElementNS _ _) => apply createElementNS_Inv
     | |- preserves _ (get_attributes _) => preserves_getter
     | |- preserves _ (get_childNodes _) => preserves_getter
     | |- preserves _ (get_firstChild _) => preserves_getter
     | |- preserves _ (get_nextSibling _) => preserves_getter
     | |- preserves _ (get_parentNode _) => preserves_getter
     | |- preserves _ (bind _ _) => apply preserves_bind; [|intros ?]
     | |- preserves _ (ret _) => apply preserves_ret
     | |- preserves _ (throw _) => apply preserves_throw
     | |- preserves _ diverge => apply preserves_diverge
     | |- preserves _ (gets _) => apply preserves_gets
     | |- preserves _ (deref _) => apply preserves_deref
     | |- preserves _ (modify _) => apply preserves_modify; inv_leaf
     | |- preserves _ alloc => apply preserves_alloc; inv_leaf
     | |- preserves _ (match ?x with _ => _ end) => destruct x
     | |- _ => idtac
     end).

Lemma scheduleOutput_Inv : preserves Inv scheduleOutput.
Proof. preserves_inv. Qed.

Lemma run_op_Inv fuel o : preserves Inv (run_op fuel o).
Proof. destruct o; try destruct m; preserves_inv. Qed.

Lemma new_Ink_Inv o : preserves Inv (new_Ink o).
Proof.
  intros w Hw. unfold new_Ink, dom.createNode. run_forward.
  unfold Inv. wsimpl. apply (inv_on_new_ink _ _ _ (next w)); [exact Hw|lia..].
Qed.

Lemma getInstance_Inv o : preserves Inv (getInstance (ink_stdout o) (new_Ink o)).
Proof.
  unfold getInstance. apply preserves_bind; [apply preserves_gets|].
  intros [i|]; [apply preserves_ret|].
  apply preserves_bind; [apply new_Ink_Inv|]. intros i.
  apply preserves_bind; [apply preserves_modify; inv_leaf|]. intros _.
  apply preserves_ret.
Qed.

Lemma run_timers_Inv k w : Inv w -> Inv (run_timers k w).
Proof.
  revert w. induction k as [|k IH]; intros w Hw; simpl; [exact Hw|].
  apply IH. unfold run_timer. destruct (timers w) as [|[t c] rest]; [exact Hw|].
  cbn. destruct (closures w !! c); exact Hw.
Qed.

Section Reachable.
Variable reconcile : World -> nat -> VNode -> nat -> list Op.

Lemma render_Inv fuel v o : preserves Inv (render reconcile fuel v o).
Proof.
  intros w Hw. unfold render. cbv zeta.
  pose proof (getInstance_Inv (inkOptions o) w Hw) as Hg.
  unfold bind at 1.
  destruct (getInstance _ _ w) as [[i| |] wi]; cbn [snd] in Hg; [|exact Hg..].
  unfold ink_render, new_PreactElement. run_forward.
  destruct (inks wi !! i) as [ink|] eqn:Hink; run_forward;
    [|exact (inv_on_mono _ _ _ _ _ Hg (le_S _ _ (le_n _)))].
  destruct (nodes wi !! rootNode ink) as [d|]; run_forward;
    [|exact (inv_on_mono _ _ _ _ _ Hg (le_S _ _ (le_n _)))].
  match goal with
  | |- context [prender ?rc ?f ?i ?v ?a ?W] =>
      assert (Inv W) as HW
        by (unfold Inv; wsimpl;
            apply (inv_on_root_adapter _ _ _ (next wi) _ _ i ink);
            [exact Hg|exact Hink|lia..]);
      pose proof (prender_preserves rc Inv f i v a (run_op_Inv f) W HW) as Hp;
      destruct (prender rc f i v a W) as [[[]| |] wp]; cbn [snd] in Hp;
        [|exact Hp..]
  end.
  pose proof (scheduleOutput_Inv wp Hp) as Hs.
  destruct (scheduleOutput wp) as [[[]| |] ws]; exact Hs.
Qed.

Lemma call_Inv fuel c w : Inv w -> Inv (call reconcile fuel c w).
Proof.
  intros Hw. destruct c; simpl.
  - apply run_op_Inv, Hw.
  - apply render_Inv, Hw.
  - exact Hw.
  - exact Hw.
  - apply run_timers_Inv, Hw.
Qed.

(** C10, as the code has it.  In every world the program reaches, a node
    that is not the root node of a session has at most one adapter; the
    side table maps a node to the adapter of that node only; and the
    adapter of every such node is in the table (the factories put it
    there). *)
Theorem adapters_unique_off_root (w : World) :
  reachable reconcile w -> adapters_ok w.
Proof.
  intros Hr. assert (Inv w) as (U & T & R & _).
  { induction Hr; [apply Inv_initial|apply call_Inv; assumption]. }
  split; [exact U|split; [exact T|exact R]].
Qed.
End Reachable.

Lemma adapters_unique_off_root_witness : adapters_ok rendered_twice.
Proof.
  apply (adapters_unique_off_root idle rendered_twice).
  unfold rendered_twice. apply reachable_call, reachable_call, reachable_initial.
Defined.

(** C10 as stated fails: after two [render] calls on one stream, two
    adapters (5 and 8) wrap the root node of the session (node 1), and the
    side table has no entry for that node. *)
Lemma root_node_wrapped_twice :
  elements rendered_twice !! 5 = Some (mkElement 1 (Some ROOT_NODE) None) /\
  elements rendered_twice !! 8 = Some (mkElement 1 (Some ROOT_NODE) None) /\
  inks rendered_twice !! 3 = Some (mkInk 1 0) /\
  domNode2PreactElement rendered_twice !! 1 = None.
Proof.
  do 3 (split; [vm_compute; reflexivity|]). vm_compute; reflexivity.
Qed.

(* ------------------------------------------------------------------ *)
(** * Further properties of the module *)

(** ** The getters of the adapter *)

Lemma Array_map_no_receiver (l : list nat) w :
  Array_map (fun c => WeakMap_get None (Some c)) l w =
  (match l with [] => Ok [] | _ :: _ => Throw TypeError end, w).
Proof. destruct l; reflexivity. Qed.

(** X1.  [childNodes] never yields an adapter: on a container that has a
    child the unbound [domNode2PreactElement.get] is called without a
    receiver and the getter throws a TypeError; on a container without
    children, and on a node that is no container, it is the empty array.
    The world is not changed. *)
Theorem childNodes_empty_or_TypeError (w : World) (a : nat) (e : PreactElement) (d : DOMNode) :
  elements w !! a = Some e ->
  nodes w !! node e = Some d ->
  get_childNodes a w =
    (if isContainer d
     then match childNodes d with [] => Ok [] | _ :: _ => Throw TypeError end
     else Ok [], w).
Proof.
  intros He Hd. unfold get_childNodes, element, dom_node, bind at 1 2, deref.
  rewrite He, Hd. destruct (isContainer d); [|reflexivity].
  unfold bind. rewrite Array_map_no_receiver. destruct (childNodes d); reflexivity.
Qed.

Lemma childNodes_empty_or_TypeError_witness :
  get_childNodes 5 attached = (Throw TypeError, attached) /\
  get_childNodes 5 one_session = (Ok [], one_session) /\
  get_childNodes 9 one_session = (Ok [], one_session).
Proof.
  refine (conj (childNodes_empty_or_TypeError attached 5
                  (mkElement 1 (Some ROOT_NODE) None)
                  (set_childNodes (fun _ => [7]) (dom.fresh_node InkRoot 2 None)) _ _)
            (conj (childNodes_empty_or_TypeError one_session 5
                     (mkElement 1 (Some ROOT_NODE) None)
                     (dom.fresh_node InkRoot 2 None) _ _)
                  (childNodes_empty_or_TypeError one_session 9
                     (mkElement 7 (Some TEXT_NODE) None)
                     (dom.fresh_node HashText 8 (Some (VString "hi"))) _ _)));
    vm_compute; reflexivity.
Defined.

Lemma indexOf_NoDup (l : list nat) k c :
  NoDup l -> l !! k = Some c -> indexOf c l = Some k.
Proof.
  revert k. induction l as [|y r IH]; intros k Hnd Hk; [discriminate|].
  apply NoDup_cons in Hnd as [Hy Hnd]. simpl. destruct k as [|k]; simpl in Hk.
  - injection Hk as ->. rewrite decide_True by reflexivity. reflexivity.
  - destruct (decide (y = c)) as [->|Hne].
    + exfalso. apply Hy. apply list_elem_of_lookup. eauto.
    + rewrite (IH k Hnd Hk). reflexivity.
Qed.

Lemma indexOf_not_elem (l : list nat) x : x ∉ l -> indexOf x l = None.
Proof.
  induction l as [|y r IH]; intros Hx; [reflexivity|]. simpl.
  apply not_elem_of_cons in Hx as [Hne Hx].
  rewrite decide_False by congruence. rewrite (IH Hx). reflexivity.
Qed.

(** X2.  Walking the children through the getters.  For a node [p] whose
    children are pairwise distinct and point back to [p]: [firstChild] of
    a container adapter of [p] is the side-table entry of the first child
    ([null] when there is none or it has no entry), and [nextSibling] of
    an adapter of the child at index [k] is the entry of the child at
    index [k + 1], [null] after the last one.  Neither changes the world. *)
Theorem sibling_walk (w : World) (p : nat) (pd : DOMNode) :
  nodes w !! p = Some pd ->
  NoDup (childNodes pd) ->
  (forall c, c ∈ childNodes pd ->
     exists cd, nodes w !! c = Some cd /\ parentNode cd = Some p) ->
  (forall a e, elements w !! a = Some e -> node e = p -> isContainer pd = true ->
     get_firstChild a w =
       (Ok (childNodes pd !! 0 ≫= fun c => domNode2PreactElement w !! c), w)) /\
  (forall k c x ex, childNodes pd !! k = Some c ->
     elements w !! x = Some ex -> node ex = c ->
     get_nextSibling x w =
       (Ok (childNodes pd !! S k ≫= fun c' => domNode2PreactElement w !! c'), w)).
Proof.
  intros Hp Hnd Hback. split.
  - intros a e He Hn Hc. subst p.
    unfold get_firstChild, element, dom_node, bind, deref, gets, WeakMap_get, ret.
    rewrite He, Hp, Hc. reflexivity.
  - intros k c x ex Hk Hx Hn. subst c.
    destruct (Hback (node ex)) as (cd & Hcd & Hpar).
    { apply list_elem_of_lookup. eauto. }
    unfold get_nextSibling, element, dom_node, bind, deref, gets, WeakMap_get, ret.
    rewrite Hx, Hcd, Hpar, Hp, (indexOf_NoDup _ _ _ Hnd Hk). reflexivity.
Qed.

Lemma sibling_walk_witness :
  get_firstChild 5 two_static = (Ok (Some 9), two_static) /\
  get_nextSibling 9 two_static = (Ok (Some 12), two_static) /\
  get_nextSibling 12 two_static = (Ok None, two_static).
Proof.
  assert (exists pd, nodes two_static !! 1 = Some pd /\ childNodes pd = [7; 10] /\
                     isContainer pd = true) as (pd & Hp & Hc & Hk).
  { eexists. split; [vm_compute; reflexivity|]. split; vm_compute; reflexivity. }
  assert (domNode2PreactElement two_static !! 7 = Some 9) as H7 by (vm_compute; reflexivity).
  assert (domNode2PreactElement two_static !! 10 = Some 12) as H10 by (vm_compute; reflexivity).
  destruct (sibling_walk two_static 1 pd Hp) as [Hfirst Hnext].
  - rewrite Hc. apply (bool_decide_unpack _). vm_compute; reflexivity.
  - rewrite Hc. intros c Hin.
    apply elem_of_cons in Hin as [->|Hin]; [|apply list_elem_of_singleton in Hin as ->];
      (eexists; split; [vm_compute; reflexivity|vm_compute; reflexivity]).
  - split; [|split].
    + rewrite (Hfirst 5 (mkElement 1 (Some ROOT_NODE) None));
        [|vm_compute; reflexivity|reflexivity|exact Hk].
      rewrite Hc. simpl. rewrite H7. reflexivity.
    + rewrite (Hnext 0 7 9 (mkElement 7 (Some BOX_NODE) None));
        [|rewrite Hc; reflexivity|vm_compute; reflexivity|reflexivity].
      rewrite Hc. simpl. rewrite H10. reflexivity.
    + rewrite (Hnext 1 10 12 (mkElement 10 (Some BOX_NODE) None));
        [|rewrite Hc; reflexivity|vm_compute; reflexivity|reflexivity].
      rewrite Hc. reflexivity.
Defined.

(** X3.  [nextSibling] of an adapter whose node has no parent, or whose
    parent does not list it among its children, is [null]; it does not
    throw. *)
Theorem nextSibling_null_when_unlisted (w : World) (x : nat) (ex : PreactElement)
  (d : DOMNode) :
  elements w !! x = Some ex ->
  nodes w !! node ex = Some d ->
  match parentNode d with
  | Some p => exists pd, nodes w !! p = Some pd /\ node ex ∉ childNodes pd
  | None => True
  end ->
  get_nextSibling x w = (Ok None, w).
Proof.
  intros Hx Hd Hp.
  unfold get_nextSibling, element, dom_node, bind, deref, gets, WeakMap_get, ret.
  rewrite Hx, Hd. destruct (parentNode d) as [p|]; [|reflexivity].
  destruct Hp as (pd & Hpd & Hnot). rewrite Hpd, (indexOf_not_elem _ _ Hnot).
  reflexivity.
Qed.

Lemma nextSibling_null_when_unlisted_witness :
  get_nextSibling 9 one_session = (Ok None, one_session).
Proof.
  apply (nextSibling_null_when_unlisted one_session 9
           (mkElement 7 (Some TEXT_NODE) None)
           (dom.fresh_node HashText 8 (Some (VString "hi"))));
    [vm_compute; reflexivity|vm_compute; reflexivity|exact I].
Defined.

(** ** The factories *)

Lemma registered_new_intro w a n s name text W :
  Inv w -> a = S (S (next w)) -> n = next w ->
  elements W = <[a := mkElement n (nodeTypes name) None]> (elements w) ->
  domNode2PreactElement W = <[n := a]> (domNode2PreactElement w) ->
  nodes W = <[n := dom.fresh_node name s text]> (nodes w) ->
  timers W = timers w ->
  registered_new w W a name text.
Proof.
  intros (_ & _ & _ & A1 & _) -> -> He Ht Hn Htm. exists (next w), s.
  split.
  { destruct (elements w !! S (S (next w))) as [e0|] eqn:E; [|reflexivity].
    destruct (A1 _ _ E). exfalso. lia. }
  split.
  { intros a0 e0 E. destruct (A1 _ _ E). lia. }
  rewrite He, Ht, Hn, !lookup_insert_eq. auto.
Qed.

(** X4.  In a world that satisfies the invariant of the adapters (every
    reachable world does), both factories return a new adapter for a new
    node and enter it in the side table; the adapter has the type code
    [nodeTypes] gives the node's name, and nothing is scheduled.
    [createElementNS] does so for every name that starts with ['ink-'],
    whatever the namespace, and for any other name throws 'Method not
    implemented.' and changes nothing. *)
Theorem factories_register (ns q text : string) (w : World) :
  Inv w ->
  (exists a w',
     document.createTextNode text w = (Ok a, w') /\
     registered_new w w' a HashText (Some (VString text))) /\
  if String.prefix "ink-" q then
    exists a w',
      document.createElementNS ns q w = (Ok a, w') /\
      registered_new w w' a (node_name q) None
  else document.createElementNS ns q w = (Throw NotImplemented, w).
Proof.
  intros HI. split.
  - unfold document.createTextNode, dom.createTextNode, new_PreactElement.
    run_forward. rewrite lookup_insert_eq. run_forward.
    eexists _, _. split; [reflexivity|].
    eapply (registered_new_intro w _ _ (S (next w))); [exact HI|reflexivity..].
  - unfold document.createElementNS.
    destruct (String.prefix "ink-" q); [|reflexivity].
    unfold dom.createNode, new_PreactElement. run_forward.
    rewrite lookup_insert_eq. run_forward.
    eexists _, _. split; [reflexivity|].
    eapply (registered_new_intro w _ _ (S (next w))); [exact HI|reflexivity..].
Qed.

Lemma factories_register_witness :
  (exists a w',
     document.createTextNode "hi" initial = (Ok a, w') /\
     registered_new initial w' a HashText (Some (VString "hi"))) /\
  exists a w',
    document.createElementNS "" "ink-box" initial = (Ok a, w') /\
    registered_new initial w' a (node_name "ink-box") None.
Proof. exact (factories_register "" "ink-box" "hi" initial Inv_initial). Defined.

Lemma ink_name_is_other (q : string) :
  String.prefix "ink-" q = true ->
  q <> "ink-root" -> q <> "ink-box" -> q <> "ink-text" ->
  node_name q = Other q.
Proof.
  intros Hp H1 H2 H3. unfold node_name.
  apply String.eqb_neq in H1, H2, H3. rewrite H1, H2, H3.
  destruct (String.eqb q "#text") eqn:E; [|reflexivity].
  apply String.eqb_eq in E. subst q. discriminate Hp.
Qed.

(** X5.  A name that starts with ['ink-'] but is none of ['ink-root'],
    ['ink-box'], ['ink-text'] is accepted by [createElementNS]; the
    adapter it returns has an undefined [nodeType], every container
    operation on it and [firstChild] throw 'This is not a container', and
    its [childNodes] is empty. *)
Theorem unknown_ink_element_is_no_container (ns q : string) (w : World) (fuel : nat) :
  String.prefix "ink-" q = true ->
  q <> "ink-root" -> q <> "ink-box" -> q <> "ink-text" ->
  exists a w',
    document.createElementNS ns q w = (Ok a, w') /\
    (nodeType <$> elements w' !! a) = Some None /\
    forall b ref other,
      appendChild a b w' = (Throw NotAContainer, w') /\
      insertBefore a b ref w' = (Throw NotAContainer, w') /\
      removeChild fuel a b w' = (Throw NotAContainer, w') /\
      contains fuel a other w' = (Throw NotAContainer, w') /\
      get_firstChild a w' = (Throw NotAContainer, w') /\
      get_childNodes a w' = (Ok [], w').
Proof.
  intros Hp H1 H2 H3. unfold document.createElementNS. rewrite Hp.
  rewrite (ink_name_is_other q Hp H1 H2 H3).
  unfold dom.createNode, new_PreactElement. run_forward.
  rewrite lookup_insert_eq. run_forward.
  eexists _, _. split; [reflexivity|]. wsimpl. rewrite lookup_insert_eq.
  split; [reflexivity|]. intros b ref other.
  unfold appendChild, insertBefore, removeChild, contains, get_firstChild,
    get_childNodes, element, dom_node, bind, deref. wsimpl.
  rewrite !lookup_insert_eq. cbn [node]. wsimpl. rewrite !lookup_insert_eq.
  cbn [isContainer nodeName dom.fresh_node]. auto 10.
Qed.

Lemma unknown_ink_element_is_no_container_witness :
  exists a w',
    document.createElementNS "" "ink-virtual-text" one_session = (Ok a, w') /\
    (nodeType <$> elements w' !! a) = Some None /\
    forall b ref other,
      appendChild a b w' = (Throw NotAContainer, w') /\
      insertBefore a b ref w' = (Throw NotAContainer, w') /\
      removeChild 1 a b w' = (Throw NotAContainer, w') /\
      contains 1 a other w' = (Throw NotAContainer, w') /\
      get_firstChild a w' = (Throw NotAContainer, w') /\
      get_childNodes a w' = (Ok [], w').
Proof.
  apply (unknown_ink_element_is_no_container "" "ink-virtual-text" one_session 1);
    [reflexivity|discriminate..].
Defined.

(** ** Before the first [render] *)

Lemma freed_no_timeout l : Forall (fun e => is_timeout e = false) (map Free l).
Proof. induction l; simpl; constructor; auto. Qed.

Lemma scheduleOutput_inert w0 : preserves (inert_since w0) scheduleOutput.
Proof.
  intros w H. pose proof H as (Hb & _). unfold scheduleOutput, bind, gets, ret.
  rewrite Hb. exact H.
Qed.

Ltac inert_leaf :=
  let w := fresh "w" in let H := fresh "H" in
  intros w H;
  first [ exact H
        | destruct H as (H1 & H2 & H3 & H4);
          split; [exact H1|split; [exact H2|split; [exact H3|]]];
          apply extends_without_emit;
          [first [apply freed_no_timeout | repeat constructor]|exact H4] ].

Lemma run_op_inert w0 fuel o : preserves (inert_since w0) (run_op fuel o).
Proof.
  destruct o; try destruct m;
    preserves_with ltac:(apply scheduleOutput_inert) inert_leaf.
Qed.

(** X6.  As long as no [render] call has bound [scheduleOutput], it is
    the empty function of the class: whatever the factories and the
    adapter operations do, and whether they return or throw, no timer is
    started, no closure is changed and [scheduleOutput] stays unbound. *)
Theorem unbound_scheduler_is_inert (fuel : nat) (ops : list Op) (w w' : World)
  (r : Result unit) :
  bound_scheduleOutput w = None ->
  run_ops fuel ops w = (r, w') ->
  bound_scheduleOutput w' = None /\
  timers w' = timers w /\
  closures w' = closures w /\
  extends_without is_timeout w w'.
Proof.
  intros Hb Hrun.
  apply (preserves_run (inert_since w) (run_ops fuel ops) w r w');
    [apply run_ops_preserves, run_op_inert| |exact Hrun].
  split; [exact Hb|]. split; [reflexivity|]. split; [reflexivity|].
  apply extends_without_refl.
Qed.

Lemma unbound_scheduler_is_inert_witness :
  let ops := [CreateElementNS "" "ink-box"; CreateTextNode "a";
              Mutate (AppendChild 3 6); Mutate (AssignData 6 (VString "b"));
              Mutate (SetAttribute 3 "color" (VString "red"))] in
  let w' := snd (run_ops 1 ops initial) in
  bound_scheduleOutput w' = None /\
  timers w' = timers initial /\
  closures w' = closures initial /\
  extends_without is_timeout initial w'.
Proof.
  intros ops w'.
  apply (unbound_scheduler_is_inert 1 ops initial w' (Ok tt));
    vm_compute; reflexivity.
Defined.

(** X7.  [setAttribute('internal_static', v)] before any [render] has set
    [PreactElement.root] throws a TypeError after the flag of the node
    has been written: the attribute is not recorded and nothing is
    scheduled. *)
Theorem internal_static_before_render (fuel : nat) (w : World) (a : nat)
  (e : PreactElement) (v : Value) :
  elements w !! a = Some e ->
  root w = None ->
  setAttribute fuel a "internal_static" v w =
    (Throw TypeError, upd_nodes (alter (set_internal_static v) (node e)) w).
Proof.
  intros He Hr. unfold setAttribute, element, bind at 1, deref at 1. rewrite He.
  cbn [when String.eqb Ascii.eqb Bool.eqb]. run_forward. rewrite Hr. reflexivity.
Qed.

Lemma internal_static_before_render_witness :
  let w := snd (document.createElementNS "" "ink-box" initial) in
  setAttribute 1 3 "internal_static" (VBool true) w =
    (Throw TypeError, upd_nodes (alter (set_internal_static (VBool true)) 1) w).
Proof.
  intros w.
  apply (internal_static_before_render 1 w 3 (mkElement 1 (Some BOX_NODE) None));
    vm_compute; reflexivity.
Defined.

(** ** The deferred tasks *)

(** X8.  When the pending timers fire, each callback runs once, in the
    order the timers were started: it calls [calculateLayout] and then
    [onRender] of the session its own [render] call captured, whichever
    closure is bound by then, and sets its [flush] to null.  Afterwards no
    timer is pending, and the closures without a timer are as they were. *)
Theorem tick_runs_every_timer (w : World) :
  timers (tick w) = [] /\
  trace (tick w) = trace w ++ concat (map (paints (closures w)) (timers w)) /\
  forall c, closures (tick w) !! c =
            if bool_decide (c ∈ (timers w).*2) then cleared <$> closures w !! c
            else closures w !! c.
Proof. unfold tick. apply run_timers_all. reflexivity. Qed.

Lemma scheduleOutput_sets_flush T c i w r w' :
  sched_after T c i w -> scheduleOutput w = (r, w') ->
  exists t, closures w' !! c = Some (mkClosure i (Some t)) /\
            bound_scheduleOutput w' = Some c /\ timers w' = T ++ [(t, c)].
Proof.
  intros (Hb & cl & Hc & Hi & Ht).
  unfold scheduleOutput, bind, gets, deref, alloc, log, modify.
  rewrite Hb. simpl. rewrite Hc. destruct cl as [i' [t|]]; simpl in *; subst i'.
  - intros [= <- <-]. eauto.
  - intros [= <- <-]. cbn. rewrite lookup_insert_eq, Ht, app_nil_r. eauto.
Qed.

Ltac after_leaf :=
  let w := fresh "w" in let H := fresh "H" in
  intros w H; unfold sched_after in *; cbn in *; exact H.

Lemma run_op_sched_after T c i fuel o : preserves (sched_after T c i) (run_op fuel o).
Proof.
  destruct o; try destruct m;
    preserves_with ltac:(apply scheduleOutput_sched_after) after_leaf.
Qed.

Section TimerFacts.
Variable reconcile : World -> nat -> VNode -> nat -> list Op.

(** X9.  A [render] call that returns has started exactly one timer, for
    the closure it has bound, behind the timers that were pending when it
    was called: the [flush] of another call's closure does not hold it
    back, so output is coalesced per [render] call. *)
Theorem render_starts_one_timer (fuel : nat) (v : VNode) (o : RenderArg)
  (w w' : World) (h : Instance) :
  render reconcile fuel v o w = (Ok h, w') ->
  exists c t,
    bound_scheduleOutput w' = Some c /\
    closures w' !! c = Some (mkClosure (handle_instance h) (Some t)) /\
    timers w' = timers w ++ [(t, c)].
Proof.
  intros H.
  destruct (render_inv _ _ _ _ _ _ _ H)
    as (wi & ink & d & wb & Hg & Hout & Hink & Hd & Hp & Hs).
  set (i := handle_instance h) in *.
  assert (timers wi = timers w) as Htm.
  { destruct (getInstance_inv _ _ _ _ Hg) as [[_ ->]|(_ & _ & ->)]; reflexivity. }
  assert (sched_after (timers w) (next wi) i (bound_to i (rootNode ink) d v wi)) as HW.
  { unfold bound_to. split; [reflexivity|]. wsimpl.
    eexists. rewrite lookup_insert_eq. split; [reflexivity|]. split; [reflexivity|].
    cbn [flush]. rewrite app_nil_r. exact Htm. }
  pose proof (preserves_run (sched_after (timers w) (next wi) i) _ _ _ wb
                (prender_preserves reconcile _ fuel i v (S (next wi))
                   (run_op_sched_after (timers w) (next wi) i fuel)) HW Hp) as Hb.
  destruct (scheduleOutput_sets_flush _ _ _ _ _ _ Hb Hs) as (t & H1 & H2 & H3).
  exists (next wi), t. auto.
Qed.
End TimerFacts.

Lemma render_starts_one_timer_witness :
  let w := snd (render idle 8 (VText "a") NoOptions initial) in
  let w' := snd (render idle 8 (VText "b") NoOptions w) in
  exists c t,
    bound_scheduleOutput w' = Some c /\
    closures w' !! c = Some (mkClosure 3 (Some t)) /\
    timers w' = timers w ++ [(t, c)].
Proof.
  intros w w'.
  apply (render_starts_one_timer idle 8 (VText "b") NoOptions w w' (mkInstance 3 0)).
  vm_compute; reflexivity.
Defined.

Lemma scheduleOutput_root X : preserves (fun w => root w = X) scheduleOutput.
Proof.
  unfold scheduleOutput.
  preserves_with idtac ltac:(let w := fresh in let H := fresh in intros w H; exact H).
Qed.

Lemma run_op_root X fuel o : preserves (fun w => root w = X) (run_op fuel o).
Proof.
  destruct o; try destruct m;
    preserves_with ltac:(apply scheduleOutput_root)
                   ltac:(let w := fresh in let H := fresh in intros w H; exact H).
Qed.

Section RootFacts.
Variable reconcile : World -> nat -> VNode -> nat -> list Op.

(** X10.  [PreactElement.root] is one slot of the class: a [render] call
    that returns leaves it at the root node of its session, and no factory
    or adapter operation changes it afterwards, on whichever adapter it is
    called.  The static-subtree locator therefore writes to the root of
    the session rendered last. *)
Theorem root_follows_last_render (fuel : nat) (w w1 w2 : World) (v : VNode)
  (o : RenderArg) (h : Instance) (ops : list Op) (r : Result unit) :
  render reconcile fuel v o w = (Ok h, w1) ->
  run_ops fuel ops w1 = (r, w2) ->
  exists ink,
    inks w1 !! handle_instance h = Some ink /\
    root w1 = Some (rootNode ink) /\
    root w2 = Some (rootNode ink).
Proof.
  intros H Hops.
  destruct (render_inv _ _ _ _ _ _ _ H)
    as (wi & ink & d & wb & Hg & Hout & Hink & Hd & Hp & Hs).
  exists ink.
  assert (inks w1 !! handle_instance h = Some ink) as Hink1.
  { pose proof (prender_registry _ _ _ _ _ _ _ _ _ _ _
                  (registry_kept_refl _) Hp Hs) as [[_ Hk] _].
    rewrite Hk. exact Hink. }
  assert (root w1 = Some (rootNode ink)) as Hr1.
  { assert (root (bound_to (handle_instance h) (rootNode ink) d v wi)
            = Some (rootNode ink)) as HW by reflexivity.
    pose proof (preserves_run (fun w => root w = Some (rootNode ink)) _ _ _ wb
                  (prender_preserves reconcile _ fuel _ v _
                     (run_op_root (Some (rootNode ink)) fuel)) HW Hp) as Hb.
    exact (preserves_run (fun w => root w = Some (rootNode ink)) _ wb _ w1
             (scheduleOutput_root _) Hb Hs). }
  split; [exact Hink1|]. split; [exact Hr1|].
  exact (preserves_run (fun w => root w = Some (rootNode ink)) _ w1 _ w2
           (run_ops_preserves _ fuel ops (run_op_root _ fuel)) Hr1 Hops).
Qed.
End RootFacts.

Lemma root_follows_last_render_witness :
  let w1 := snd (render idle 8 (VText "b") (AStream 7) first_session) in
  let ops := [CreateElementNS "" "ink-box"; Mutate (AppendChild 5 15);
              Mutate (SetAttribute 15 "internal_static" (VBool true))] in
  let w2 := snd (run_ops 2 ops w1) in
  exists ink,
    inks w1 !! 9 = Some ink /\
    root w1 = Some (rootNode ink) /\
    root w2 = Some (rootNode ink).
Proof.
  intros w1 ops w2.
  apply (root_follows_last_render idle 8 first_session w1 w2 (VText "b") (AStream 7)
           (mkInstance 9 7) ops (Ok tt)).
  - vm_compute; reflexivity.
  - vm_compute; reflexivity.
Defined.

(** With two sessions, flagging a box under the root of the first one
    (node 1) stores the box in the slot of the root of the second
    (node 7). *)
Example static_flag_crosses_sessions :
  let w1 := snd (render idle 8 (VText "b") (AStream 7) first_session) in
  let ops := [CreateElementNS "" "ink-box"; Mutate (AppendChild 5 15);
              Mutate (SetAttribute 15 "internal_static" (VBool true))] in
  let w2 := snd (run_ops 2 ops w1) in
  (node <$> elements w2 !! 5) = Some 1 /\
  (rootNode <$> inks w2 !! 3) = Some 1 /\
  (rootNode <$> inks w2 !! 9) = Some 7 /\
  children (nodes w2) 1 = [13] /\
  (staticNode <$> nodes w2 !! 1) = Some None /\
  (staticNode <$> nodes w2 !! 7) = Some (Some 13).
Proof.
  cbv zeta. do 5 (split; [vm_compute; reflexivity|]). vm_compute; reflexivity.
Qed.

(** ** The style proxy, once more *)

(** X11.  The style proxy of an adapter is made once, over the style
    object the node has at the first read, and every later read returns
    it.  An assignment through it writes to that object and forwards that
    object to the layout engine, also after the node has been given
    another style object, which the assignment leaves as it is. *)
Theorem style_proxy_is_fixed (w : World) (a : nat) (e : PreactElement) (d : DOMNode)
  (p : nat) (o : gmap string Value) (prop : string) (value : Value) :
  elements w !! a = Some e ->
  _style e = Some p ->
  nodes w !! node e = Some d ->
  styles w !! p = Some o ->
  sched_wf w ->
  get_style a w = (Ok p, w) /\
  exists w' sched,
    assign_style a prop value w = (Ok true, w') /\
    styles w' !! p = Some (<[prop := normalise value]> o) /\
    (style d <> p -> styles w' !! style d = styles w !! style d) /\
    trace w' = trace w ++ forwarded d (<[prop := normalise value]> o) ++ sched /\
    Forall (fun ev => is_timeout ev = true) sched.
Proof.
  intros He Hp Hd Ho Hwf. split.
  { unfold get_style, element, bind, deref. rewrite He, Hp. reflexivity. }
  destruct (assign_style_run a prop value w e d o He Hd) as (w' & sched & H1 & H2 & H3 & H4);
    [rewrite Hp; exact Ho|exact Hwf|].
  rewrite Hp in H2. cbn [default] in H2.
  exists w', sched. split; [exact H1|]. rewrite H2. split; [apply lookup_insert_eq|].
  split; [|split; assumption].
  intros Hne. apply lookup_insert_ne. intros E. exact (Hne (eq_sym E)).
Qed.

Lemma style_proxy_is_fixed_witness :
  exists d, nodes restyled !! 7 = Some d /\ style d = 14 /\
  get_style 9 restyled = (Ok 8, restyled) /\
  exists w' sched,
    assign_style 9 "width" (VString "10px") restyled = (Ok true, w') /\
    styles w' !! 8 = Some (<["width" := normalise (VString "10px")]> ∅) /\
    (style d <> 8 -> styles w' !! style d = styles restyled !! style d) /\
    trace w' = trace restyled
               ++ forwarded d (<["width" := normalise (VString "10px")]> ∅) ++ sched /\
    Forall (fun ev => is_timeout ev = true) sched.
Proof.
  eexists. split; [vm_compute; reflexivity|]. split; [reflexivity|].
  apply (style_proxy_is_fixed restyled 9 (mkElement 7 (Some BOX_NODE) (Some 8))).
  - vm_compute; reflexivity.
  - reflexivity.
  - vm_compute; reflexivity.
  - vm_compute; reflexivity.
  - vm_compute. eexists; reflexivity.
Defined.

(** X12.  Assigning a string of one or more decimal digits followed by
    [px] stores the number the digits denote (leading zeros included, up
    to 2^53) under the property, and that number is what the layout
    engine is handed when the node has a handle. *)
Theorem px_length_stored_as_number (w : World) (a : nat) (e : PreactElement)
  (d : DOMNode) (o : gmap string Value) (prop ds : string) :
  nonempty_digits ds = true ->
  (digits_value 0 ds <= 2 ^ 53)%Z ->
  elements w !! a = Some e ->
  nodes w !! node e = Some d ->
  styles w !! default (style d) (_style e) = Some o ->
  sched_wf w ->
  exists w' sched,
    assign_style a prop (VString (String.append ds "px")) w = (Ok true, w') /\
    styles w' !! default (style d) (_style e)
      = Some (<[prop := VNumber (Num (digits_value 0 ds))]> o) /\
    trace w' = trace w
               ++ forwarded d (<[prop := VNumber (Num (digits_value 0 ds))]> o) ++ sched /\
    Forall (fun ev => is_timeout ev = true) sched.
Proof.
  intros Hds Hv He Hd Ho Hwf.
  destruct (assign_style_run a prop (VString (String.append ds "px")) w e d o He Hd Ho Hwf)
    as (w' & sched & H1 & H2 & H3 & H4).
  rewrite (normalise_px ds Hds Hv) in H2, H3.
  exists w', sched. split; [exact H1|]. rewrite H2.
  split; [apply lookup_insert_eq|]. split; assumption.
Qed.

Lemma px_length_stored_as_number_witness :
  exists d, nodes laid_out !! 7 = Some d /\
  exists w' sched,
    assign_style 9 "height" (VString (String.append "0042" "px")) laid_out = (Ok true, w') /\
    styles w' !! default (style d) None
      = Some (<["height" := VNumber (Num (digits_value 0 "0042"))]> ∅) /\
    trace w' = trace laid_out
               ++ forwarded d (<["height" := VNumber (Num (digits_value 0 "0042"))]> ∅) ++ sched /\
    Forall (fun ev => is_timeout ev = true) sched.
Proof.
  eexists. split; [vm_compute; reflexivity|].
  apply (px_length_stored_as_number laid_out 9 (mkElement 7 (Some BOX_NODE) None)).
  - reflexivity.
  - vm_compute. discriminate.
  - vm_compute; reflexivity.
  - vm_compute; reflexivity.
  - vm_compute; reflexivity.
  - vm_compute. eexists; reflexivity.
Defined.

(** ** [removeChild] and the [internal_transform] setter *)

(** X13.  [removeChild] of a child that has no layout handle releases
    nothing, whatever handles the nodes below the child hold and without
    any recursion (any fuel will do): besides the call of
    [dom.removeChildNode] it only schedules output. *)
Theorem removeChild_without_handle (fuel : nat) (w : World) (a c : nat)
  (e ce : PreactElement) (d cd : DOMNode) :
  elements w !! a = Some e ->
  nodes w !! node e = Some d ->
  isContainer d = true ->
  elements w !! c = Some ce ->
  nodes w !! node ce = Some cd ->
  yogaNode cd = None ->
  sched_wf w ->
  exists w' sched,
    removeChild fuel a c w = (Ok c, w') /\
    trace w' = trace w ++ [DomRemoveChildNode (node e) (node ce)] ++ sched /\
    Forall (fun ev => is_timeout ev = true) sched.
Proof.
  intros He Hd Hc Hce Hcd Hy Hwf.
  set (h' := alter (set_parentNode None) (node ce)
               (alter (set_childNodes (dom.remove_first (node ce))) (node e) (nodes w))).
  assert (exists cd', h' !! node ce = Some cd' /\ yogaNode cd' = None) as (cd' & Hcd' & Hy').
  { assert (handle_of h' (node ce) = handle_of (nodes w) (node ce)) as H
      by (unfold h'; rewrite !handle_of_alter; auto).
    unfold handle_of in H. rewrite Hcd, Hy in H.
    destruct (h' !! node ce) as [cd'|] eqn:E; [eauto|].
    unfold h' in E. apply lookup_alter_None in E.
    destruct (decide (node e = node ce)) as [Heq|Hne].
    - rewrite Heq, lookup_alter_eq, Hcd in E. discriminate.
    - rewrite lookup_alter_ne, Hcd in E by exact Hne. discriminate. }
  unfold removeChild, element, dom_node, bind at 1 2 3, deref at 1 2 3.
  rewrite He, Hd, Hc, Hce. run_forward. fold h'. rewrite Hcd', Hy'.
  run_forward. run_scheduleOutput Hwf.
  destruct (scheduleOutput_trace _ _ _ Hs) as (sched & Ht & Hsched).
  exists w', sched. split; [reflexivity|]. split; [|exact Hsched].
  rewrite Ht. wsimpl. rewrite <- app_assoc. reflexivity.
Qed.

Lemma removeChild_without_handle_witness :
  handle_of (nodes handle_below) 7 = Some 200 /\
  children (nodes handle_below) 10 = [7] /\
  exists w' sched,
    removeChild 0 5 12 handle_below = (Ok 12, w') /\
    trace w' = trace handle_below ++ [DomRemoveChildNode 1 10] ++ sched /\
    Forall (fun ev => is_timeout ev = true) sched.
Proof.
  split; [vm_compute; reflexivity|]. split; [vm_compute; reflexivity|].
  eapply (removeChild_without_handle 0 handle_below 5 12
            (mkElement 1 (Some ROOT_NODE) None) (mkElement 10 (Some BOX_NODE) None)).
  - vm_compute; reflexivity.
  - vm_compute; reflexivity.
  - vm_compute; reflexivity.
  - vm_compute; reflexivity.
  - vm_compute; reflexivity.
  - vm_compute; reflexivity.
  - vm_compute. eexists; reflexivity.
Defined.

(** X14.  The setter [internal_transform] and
    [setAttribute('internal_transform', v)] store the value in the same
    field of the node and schedule output in the same way; the only
    difference is that [setAttribute] also records the attribute through
    [dom.setAttribute]. *)
Theorem internal_transform_two_ways (fuel : nat) (w : World) (a : nat)
  (e : PreactElement) (v : Value) :
  elements w !! a = Some e ->
  sched_wf w ->
  exists w1 w2 sched,
    assign_internal_transform a v w = (Ok tt, w1) /\
    setAttribute fuel a "internal_transform" v w = (Ok tt, w2) /\
    nodes w1 = alter (set_internal_transform v) (node e) (nodes w) /\
    nodes w2 = alter (set_attributes (<["internal_transform" := v]>)) (node e) (nodes w1) /\
    trace w1 = trace w ++ sched /\
    trace w2 = trace w ++ [DomSetAttribute (node e) "internal_transform" v] ++ sched /\
    Forall (fun ev => is_timeout ev = true) sched /\
    timers w2 = timers w1 /\ closures w2 = closures w1.
Proof.
  intros He Hwf.
  unfold assign_internal_transform, setAttribute, element, bind at 1 3, deref at 1 2.
  rewrite He. cbn [when String.eqb Ascii.eqb Bool.eqb]. run_forward.
  unfold scheduleOutput. run_forward. unfold sched_wf in Hwf.
  destruct (bound_scheduleOutput w) as [c|]; run_forward.
  - destruct Hwf as [cl Hcl]. rewrite Hcl. destruct (flush cl) as [t|] eqn:Hf; run_forward.
    + eexists _, _, []. split; [reflexivity|]. split; [reflexivity|]. wsimpl.
      rewrite !app_nil_r. do 4 (split; [reflexivity|]). split; [constructor|]. auto.
    + eexists _, _, [SetTimeout (next w) c]. split; [reflexivity|].
      split; [reflexivity|]. wsimpl. rewrite <- app_assoc.
      do 4 (split; [reflexivity|]). split; [repeat constructor|]. auto.
  - eexists _, _, []. split; [reflexivity|]. split; [reflexivity|]. wsimpl.
    rewrite !app_nil_r. do 4 (split; [reflexivity|]). split; [constructor|]. auto.
Qed.

Lemma internal_transform_two_ways_witness :
  exists w1 w2 sched,
    assign_internal_transform 9 (VFunction 1) laid_out = (Ok tt, w1) /\
    setAttribute 1 9 "internal_transform" (VFunction 1) laid_out = (Ok tt, w2) /\
    nodes w1 = alter (set_internal_transform (VFunction 1)) 7 (nodes laid_out) /\
    nodes w2 = alter (set_attributes (<["internal_transform" := VFunction 1]>)) 7 (nodes w1) /\
    trace w1 = trace laid_out ++ sched /\
    trace w2 = trace laid_out ++ [DomSetAttribute 7 "internal_transform" (VFunction 1)] ++ sched /\
    Forall (fun ev => is_timeout ev = true) sched /\
    timers w2 = timers w1 /\ closures w2 = closures w1.
Proof.
  apply (internal_transform_two_ways 1 laid_out 9 (mkElement 7 (Some BOX_NODE) None)).
  - vm_compute; reflexivity.
  - vm_compute. eexists; reflexivity.
Defined.

(** ** The registry of sessions, once more *)

Lemma scheduleOutput_instances X : preserves (fun w => instances w = X) scheduleOutput.
Proof.
  unfold scheduleOutput.
  preserves_with idtac ltac:(let w := fresh in let H := fresh in intros w H; exact H).
Qed.

Lemma run_op_instances X fuel o : preserves (fun w => instances w = X) (run_op fuel o).
Proof.
  destruct o; try destruct m;
    preserves_with ltac:(apply scheduleOutput_instances)
                   ltac:(let w := fresh in let H := fresh in intros w H; exact H).
Qed.

Lemma getInstance_registers o w :
  let wi := snd (getInstance (ink_stdout o) (new_Ink o) w) in
  is_Some (instances wi !! ink_stdout o) /\
  forall out i, instances w !! out = Some i -> instances wi !! out = Some i.
Proof.
  cbv zeta. unfold getInstance, new_Ink, dom.createNode. run_forward.
  destruct (instances w !! ink_stdout o) as [i|] eqn:E; run_forward.
  - split; [rewrite E; eauto|]. intros out' i' H. exact H.
  - split; [rewrite lookup_insert_eq; eauto|].
    intros out' i' H. rewrite lookup_insert_ne; [exact H|].
    intros Heq. rewrite <- Heq, E in H. discriminate.
Qed.

Section RegistryFacts.
Variable reconcile : World -> nat -> VNode -> nat -> list Op.

Lemma render_instances fuel v o w :
  instances (snd (render reconcile fuel v o w)) =
  instances (snd (getInstance (ink_stdout (inkOptions o)) (new_Ink (inkOptions o)) w)).
Proof.
  unfold render. cbv zeta. unfold bind at 1.
  destruct (getInstance _ _ w) as [[i| |] wi]; cbn [snd]; [|reflexivity..].
  unfold ink_render, new_PreactElement. run_forward.
  destruct (inks wi !! i) as [ink|]; run_forward; [|reflexivity].
  destruct (nodes wi !! rootNode ink) as [d|]; run_forward; [|reflexivity].
  match goal with
  | |- context [prender ?rc ?f ?i ?v ?a ?W] =>
      pose proof (prender_preserves rc (fun w => instances w = instances wi) f i v a
                    (run_op_instances (instances wi) f) W eq_refl) as Hp;
      destruct (prender rc f i v a W) as [[[]| |] wp]; cbn [snd] in Hp;
        [|exact Hp..]
  end.
  pose proof (scheduleOutput_instances (instances wi) wp Hp) as Hs.
  destruct (scheduleOutput wp) as [[[]| |] ws]; exact Hs.
Qed.

(** X15.  Whatever the outcome of a [render] call, also when the
    reconciler throws, the stream it resolved has a session in the
    registry afterwards, and every registration that existed before the
    call is still there: nothing is rolled back or replaced. *)
Theorem render_never_unregisters (fuel : nat) (v : VNode) (o : RenderArg) (w : World) :
  let w' := snd (render reconcile fuel v o w) in
  is_Some (instances w' !! ink_stdout (inkOptions o)) /\
  forall out i, instances w !! out = Some i -> instances w' !! out = Some i.
Proof.
  cbv zeta. rewrite render_instances. apply getInstance_registers.
Qed.

(** X16.  [cleanup] only removes the registry entry of the stream.  A
    [render] call on that stream after it constructs a new session, other
    than the first one, and registers it; the first session itself is
    still in the store. *)
Theorem render_after_cleanup (fuel : nat) (w w1 w3 : World) (v1 v2 : VNode)
  (o1 o2 : RenderArg) (h1 h2 : Instance) :
  Inv w ->
  ink_stdout (inkOptions o2) = ink_stdout (inkOptions o1) ->
  render reconcile fuel v1 o1 w = (Ok h1, w1) ->
  render reconcile fuel v2 o2 (snd (cleanup h1 w1)) = (Ok h2, w3) ->
  handle_instance h2 <> handle_instance h1 /\
  instances w3 !! handle_stdout h1 = Some (handle_instance h2) /\
  is_Some (inks w3 !! handle_instance h1) /\
  exists seg, trace w3 = trace w1 ++ NewInk (handle_instance h2) (handle_stdout h1) :: seg.
Proof.
  intros HI Ho H1 H3.
  pose proof (render_Inv reconcile fuel v1 o1 w HI) as HI1. rewrite H1 in HI1.
  cbn [snd] in HI1.
  destruct (render_inv _ _ _ _ _ _ _ H1)
    as (wi & ink & d & wb & Hg & Hout & Hink & Hd & Hp & Hs).
  assert (inks w1 !! handle_instance h1 = Some ink) as Hink1.
  { pose proof (prender_registry _ _ _ _ _ _ _ _ _ _ _
                  (registry_kept_refl _) Hp Hs) as [[_ Hk] _].
    rewrite Hk. exact Hink. }
  set (w2 := snd (cleanup h1 w1)) in *.
  assert (instances w2 !! ink_stdout (inkOptions o2) = None) as Hnone.
  { unfold w2, cleanup, modify. wsimpl. rewrite Ho, <- Hout. apply lookup_delete_eq. }
  destruct (render_inv _ _ _ _ _ _ _ H3)
    as (wi' & ink' & d' & wb' & Hg' & Hout' & Hink' & Hd' & Hp' & Hs').
  destruct (getInstance_inv _ _ _ _ Hg') as [[Hi _]|(_ & Hnew & ->)];
    [rewrite Hnone in Hi; discriminate|].
  pose proof (prender_registry _ _ _ _ _ _ _ _ _ _ _
                (registry_kept_refl _) Hp' Hs') as [[Hki Hkk] (seg & Ht & _)].
  assert (handle_instance h1 < next w1) as Hlt.
  { destruct HI1 as (_ & _ & _ & _ & A2). destruct (A2 _ _ Hink1). assumption. }
  assert (next w2 = next w1 /\ inks w2 = inks w1 /\ trace w2 = trace w1)
    as (Hn2 & Hk2 & Ht2) by (unfold w2, cleanup, modify; wsimpl; auto).
  assert (handle_instance h2 <> handle_instance h1) as Hne by (rewrite Hnew, Hn2; lia).
  split; [exact Hne|]. split.
  { rewrite Hki. unfold bound_to, constructed. wsimpl.
    rewrite Hout, <- Ho, <- Hnew. apply lookup_insert_eq. }
  split.
  { rewrite Hkk. unfold bound_to, constructed. wsimpl. rewrite <- Hnew.
    rewrite lookup_insert_ne by exact Hne. rewrite Hk2, Hink1. eauto. }
  rewrite Ht. unfold bound_to, constructed. wsimpl. rewrite Ht2, <- Hnew.
  rewrite Hout, <- Ho. rewrite <- !app_assoc. eexists. reflexivity.
Qed.
End RegistryFacts.

Lemma render_after_cleanup_witness :
  let r1 := render idle 8 (VText "a") NoOptions initial in
  let r3 := render idle 8 (VText "b") NoOptions (snd (cleanup (mkInstance 3 0) (snd r1))) in
  let h1 := mkInstance 3 0 in
  let h2 := mkInstance 9 0 in
  handle_instance h2 <> handle_instance h1 /\
  instances (snd r3) !! handle_stdout h1 = Some (handle_instance h2) /\
  is_Some (inks (snd r3) !! handle_instance h1) /\
  exists seg, trace (snd r3) =
              trace (snd r1) ++ NewInk (handle_instance h2) (handle_stdout h1) :: seg.
Proof.
  intros r1 r3 h1 h2.
  apply (render_after_cleanup idle 8 initial (snd r1) (snd r3) (VText "a") (VText "b")
           NoOptions NoOptions h1 h2).
  - exact Inv_initial.
  - reflexivity.
  - vm_compute; reflexivity.
  - vm_compute; reflexivity.
Defined.

(** ** The event listeners *)

Lemma on_key_inj k k' : String.append "on" k = String.append "on" k' -> k = k'.
Proof. cbv [String.append]. intros [= H]. exact H. Qed.

(** X17.  A node has one slot per event type.  [addEventListener]
    replaces the listener of the type, so that adding twice is adding the
    second; [removeEventListener] sets the slot to [undefined] whichever
    listener is in it (it takes no callback), and the slots of the other
    types and of the other nodes are not touched. *)
Theorem one_listener_per_type (w : World) (a : nat) (e : PreactElement)
  (key : string) (cb1 cb2 : nat)
  (events : gmap nat (gmap string (option Listener))) (o : gmap string (option Listener)) :
  elements w !! a = Some e ->
  events !! node e = Some o ->
  let ev1 := snd (addEventListener a key cb1 w events) in
  let ev2 := snd (addEventListener a key cb2 w ev1) in
  let ev3 := snd (removeEventListener a key w ev2) in
  ev2 = snd (addEventListener a key cb2 w events) /\
  slot ev2 (node e) key = Some (Some (mkListener a key cb2)) /\
  slot ev3 (node e) key = Some None /\
  (forall key', key' <> key -> slot ev3 (node e) key' = slot events (node e) key') /\
  (forall n key', n <> node e -> slot ev3 n key' = slot events n key').
Proof.
  intros He Ho. cbv zeta. unfold addEventListener, removeEventListener, slot.
  rewrite He, Ho. cbn [snd]. rewrite lookup_insert_eq. cbn [snd].
  rewrite lookup_insert_eq. cbn [snd]. rewrite !insert_insert_eq.
  split; [reflexivity|]. rewrite !lookup_insert_eq. cbn [mbind option_bind].
  rewrite !lookup_insert_eq. split; [reflexivity|]. split; [reflexivity|]. split.
  - intros key' Hne. cbn [mbind option_bind].
    apply lookup_insert_ne. intros E. apply Hne. symmetry. exact (on_key_inj _ _ E).
  - intros n key' Hne. rewrite lookup_insert_ne by congruence. reflexivity.
Qed.

Lemma one_listener_per_type_witness :
  let events : gmap nat (gmap string (option Listener)) :=
    {[1 := {["onkeypress" := Some (mkListener 5 "keypress" 70)]}]} in
  let ev1 := snd (addEventListener 5 "click" 71 one_session events) in
  let ev2 := snd (addEventListener 5 "click" 72 one_session ev1) in
  let ev3 := snd (removeEventListener 5 "click" one_session ev2) in
  ev2 = snd (addEventListener 5 "click" 72 one_session events) /\
  slot ev2 1 "click" = Some (Some (mkListener 5 "click" 72)) /\
  slot ev3 1 "click" = Some None /\
  (forall key', key' <> "click" -> slot ev3 1 key' = slot events 1 key') /\
  (forall n key', n <> 1 -> slot ev3 n key' = slot events n key').
Proof.
  intros events.
  apply (one_listener_per_type one_session 5 (mkElement 1 (Some ROOT_NODE) None)
           "click" 71 72 events {["onkeypress" := Some (mkListener 5 "keypress" 70)]}).
  - vm_compute; reflexivity.
  - vm_compute; reflexivity.
Defined.

(** X18.  The function [addEventListener] stores calls the callback with
    the adapter as receiver and a copy of the event object; the copy has
    [type] equal to the key unless the event object has a [type] of its
    own, which then replaces it. *)
Theorem listener_payload (w : World) (a : nat) (e : PreactElement) (key : string)
  (cb : nat) (events : gmap nat (gmap string (option Listener)))
  (o : gmap string (option Listener)) :
  elements w !! a = Some e ->
  events !! node e = Some o ->
  exists l,
    slot (snd (addEventListener a key cb w events)) (node e) key = Some (Some l) /\
    forall ev : gmap string Value,
      callee (fire l ev) = cb /\
      receiver (fire l ev) = a /\
      argument (fire l ev) !! "type" = Some (default (VString key) (ev !! "type")) /\
      forall k, k <> "type" -> argument (fire l ev) !! k = ev !! k.
Proof.
  intros He Ho. exists (mkListener a key cb). split.
  { unfold addEventListener, slot. rewrite He, Ho. cbn [snd].
    rewrite lookup_insert_eq. cbn [mbind option_bind]. apply lookup_insert_eq. }
  intros ev. unfold fire. cbn [callee receiver argument listener_callback
                                listener_this listener_type].
  split; [reflexivity|]. split; [reflexivity|]. split.
  - destruct (ev !! "type") as [t|] eqn:E; cbn [default].
    + apply lookup_union_Some_l. exact E.
    + rewrite lookup_union_r by exact E. apply lookup_singleton_eq.
  - intros k Hk. destruct (ev !! k) as [x|] eqn:E.
    + apply lookup_union_Some_l. exact E.
    + rewrite lookup_union_r by exact E. apply lookup_singleton_ne. congruence.
Qed.

Lemma listener_payload_witness :
  let events : gmap nat (gmap string (option Listener)) := {[1 := ∅]} in
  exists l,
    slot (snd (addEventListener 5 "click" 71 one_session events)) 1 "click" = Some (Some l) /\
    forall ev : gmap string Value,
      callee (fire l ev) = 71 /\
      receiver (fire l ev) = 5 /\
      argument (fire l ev) !! "type" = Some (default (VString "click") (ev !! "type")) /\
      forall k, k <> "type" -> argument (fire l ev) !! k = ev !! k.
Proof.
  intros events.
  apply (listener_payload one_session 5 (mkElement 1 (Some ROOT_NODE) None)
           "click" 71 events ∅).
  - vm_compute; reflexivity.
  - vm_compute; reflexivity.
Defined.

Example fire_keeps_own_type :
  argument (fire (mkListener 5 "click" 71) {["type" := VString "tap"; "x" := VNumber (Num 3)]})
  = {["type" := VString "tap"; "x" := VNumber (Num 3)]}.
Proof. vm_compute. reflexivity. Qed.

(** ** The adapters in the worlds the program reaches *)

Lemma name_of_alter f n h x :
  (forall d, nodeName (f d) = nodeName d) ->
  name_of (alter f n h) x = name_of h x.
Proof.
  intros Hf. unfold name_of. rewrite lookup_alter.
  destruct (decide (n = x)) as [->|]; [|reflexivity].
  destruct (h !! x) as [d|]; simpl; [|reflexivity]. rewrite Hf. reflexivity.
Qed.

Lemma name_of_detach c h x : name_of (dom.detach c h) x = name_of h x.
Proof.
  unfold dom.detach. destruct (h !! c) as [d|]; [|reflexivity].
  destruct (parentNode d); [|reflexivity].
  rewrite !name_of_alter by (intros ?; reflexivity). reflexivity.
Qed.

Lemma typed_names els h h' :
  typed els h -> (forall x, name_of h' x = name_of h x) -> typed els h'.
Proof. intros HT Hn a e He. rewrite Hn. exact (HT a e He). Qed.

Lemma typed_insert_node els h n d :
  typed els h -> (forall a e, els !! a = Some e -> node e <> n) ->
  typed els (<[n := d]> h).
Proof.
  intros HT Hn a e He. destruct (HT a e He) as (nm & H1 & H2).
  exists nm. split; [|exact H2]. unfold name_of in *.
  rewrite lookup_insert_ne; [exact H1|]. intros E. exact (Hn a e He (eq_sym E)).
Qed.

Lemma typed_insert_element els h a n d s :
  typed els h -> h !! n = Some d ->
  typed (<[a := mkElement n (nodeTypes (nodeName d)) s]> els) h.
Proof.
  intros HT Hd a0 e0 H0. destruct (decide (a0 = a)) as [->|Na].
  - rewrite lookup_insert_eq in H0. injection H0 as <-. cbn [node nodeType].
    exists (nodeName d). unfold name_of. rewrite Hd. auto.
  - rewrite lookup_insert_ne in H0 by congruence. exact (HT a0 e0 H0).
Qed.

Lemma typed_restyle els h a e s :
  typed els h -> els !! a = Some e ->
  typed (<[a := mkElement (node e) (nodeType e) s]> els) h.
Proof.
  intros HT He a0 e0 H0. destruct (decide (a0 = a)) as [->|Na].
  - rewrite lookup_insert_eq in H0. injection H0 as <-. exact (HT a e He).
  - rewrite lookup_insert_ne in H0 by congruence. exact (HT a0 e0 H0).
Qed.

Lemma adapters_kept_refl w : adapters_kept w w.
Proof. intros a e He. eauto. Qed.

Lemma adapters_kept_insert w0 (els : gmap nat PreactElement) a e :
  (forall a0 e0, elements w0 !! a0 = Some e0 ->
     exists e', els !! a0 = Some e' /\ node e' = node e0 /\ nodeType e' = nodeType e0) ->
  (forall e1, els !! a = Some e1 -> node e = node e1 /\ nodeType e = nodeType e1) ->
  forall a0 e0, elements w0 !! a0 = Some e0 ->
     exists e', <[a := e]> els !! a0 = Some e' /\ node e' = node e0 /\ nodeType e' = nodeType e0.
Proof.
  intros HK Hsame a0 e0 H0. destruct (HK a0 e0 H0) as (e' & H1 & H2 & H3).
  destruct (decide (a0 = a)) as [->|Na].
  - rewrite lookup_insert_eq. exists e. split; [reflexivity|].
    destruct (Hsame e' H1) as [-> ->]. auto.
  - rewrite lookup_insert_ne by congruence. eauto.
Qed.

Lemma unregistered_insert_table tbl ks n a nx :
  unregistered_roots tbl ks ->
  (forall i k, ks !! i = Some k -> i < nx /\ rootNode k < nx) -> nx <= n ->
  unregistered_roots (<[n := a]> tbl) ks.
Proof.
  intros HR A2 Hn m Hm. pose proof Hm as (i & k & Hk & <-).
  destruct (A2 i k Hk). rewrite lookup_insert_ne by lia. apply HR. exact Hm.
Qed.

Lemma unregistered_insert_ink tbl ks i r out :
  unregistered_roots tbl ks -> tbl !! r = None ->
  unregistered_roots tbl (<[i := mkInk r out]> ks).
Proof.
  intros HR Hr m (i0 & k0 & H0 & <-). destruct (decide (i0 = i)) as [->|Ni].
  - rewrite lookup_insert_eq in H0. injection H0 as <-. exact Hr.
  - rewrite lookup_insert_ne in H0 by congruence. apply HR. exists i0, k0. auto.
Qed.

Lemma table_below w n a : Inv w -> domNode2PreactElement w !! n = Some a -> n < next w.
Proof.
  intros (_ & T & _ & A1 & _) H. destruct (T n a H) as (e & He & <-).
  destruct (A1 a e He). assumption.
Qed.

Lemma table_fresh w n : Inv w -> next w <= n -> domNode2PreactElement w !! n = None.
Proof.
  intros HI Hn. destruct (domNode2PreactElement w !! n) as [a|] eqn:E; [|reflexivity].
  pose proof (table_below w n a HI E). exfalso. lia.
Qed.

Ltac names_tac :=
  let x := fresh "x" in
  intros x; wsimpl;
  repeat first [ rewrite name_of_alter by (intros ?; reflexivity)
               | rewrite name_of_detach ];
  reflexivity.

Ltac inv2_leaf :=
  let w := fresh "w" in let HI := fresh "HI" in let HR := fresh "HR" in
  let HT := fresh "HT" in let HK := fresh "HK" in
  intros w (HI & HR & HT & HK);
  split;
  [first [ exact HI | exact (inv_on_mono _ _ _ _ _ HI (le_S _ _ (le_n _))) ]
  |split;
   [exact HR
   |split;
    [first [ exact HT | apply (typed_names _ _ _ HT); names_tac ]
    |exact HK]]].

Lemma get_style_Inv2 w0 a : preserves (Inv2 w0) (get_style a).
Proof.
  intros w H. pose proof H as (HI & HR & HT & HK).
  pose proof (get_style_Inv a w HI) as HI'. revert HI'.
  unfold get_style, element, dom_node, bind, deref, modify, ret.
  destruct (elements w !! a) as [e|] eqn:He; [|intros _; exact H].
  destruct (_style e); [intros _; exact H|].
  destruct (nodes w !! node e); [|intros _; exact H].
  cbn. intros HI'. split; [exact HI'|]. split; [exact HR|]. split.
  - apply typed_restyle; assumption.
  - unfold adapters_kept. wsimpl. apply adapters_kept_insert; [exact HK|].
    intros e1 H1. rewrite He in H1. injection H1 as <-. auto.
Qed.

Lemma register_Inv2 w0 w W n a d s :
  Inv2 w0 w -> Inv W ->
  next w <= n -> next w <= a ->
  elements W = <[a := mkElement n (nodeTypes (nodeName d)) s]> (elements w) ->
  domNode2PreactElement W = <[n := a]> (domNode2PreactElement w) ->
  inks W = inks w ->
  nodes W = <[n := d]> (nodes w) ->
  Inv2 w0 W.
Proof.
  intros (HI & HR & HT & HK) HIW Hn Ha He Ht Hk Hh.
  pose proof HI as (_ & _ & _ & A1 & A2).
  split; [exact HIW|]. split; [|split].
  - rewrite Ht, Hk. apply (unregistered_insert_table _ _ _ _ (next w)); assumption.
  - rewrite He, Hh. apply typed_insert_element; [|apply lookup_insert_eq].
    apply typed_insert_node; [exact HT|].
    intros a0 e0 H0. destruct (A1 _ _ H0). lia.
  - unfold adapters_kept. rewrite He. apply adapters_kept_insert; [exact HK|].
    intros e1 H1. destruct (A1 _ _ H1). exfalso. lia.
Qed.

Lemma createTextNode_Inv2 w0 text : preserves (Inv2 w0) (document.createTextNode text).
Proof.
  intros w H. pose proof H as (HI & _).
  pose proof (createTextNode_Inv text w HI) as HI'. revert HI'.
  unfold document.createTextNode, dom.createTextNode, new_PreactElement.
  run_forward. rewrite lookup_insert_eq. run_forward. intros HI'.
  eapply (register_Inv2 w0 w _ (next w) (S (S (next w)))); 
    [exact H|exact HI'|lia|lia|reflexivity|reflexivity|reflexivity|reflexivity].
Qed.

Lemma createElementNS_Inv2 w0 ns qn : preserves (Inv2 w0) (document.createElementNS ns qn).
Proof.
  intros w H. pose proof H as (HI & _).
  pose proof (createElementNS_Inv ns qn w HI) as HI'. revert HI'.
  unfold document.createElementNS, dom.createNode, new_PreactElement.
  destruct (String.prefix "ink-" qn); [|intros _; exact H].
  run_forward. rewrite lookup_insert_eq. run_forward. intros HI'.
  eapply (register_Inv2 w0 w _ (next w) (S (S (next w)))); 
    [exact H|exact HI'|lia|lia|reflexivity|reflexivity|reflexivity|reflexivity].
Qed.

Ltac preserves_inv2 :=
  repeat
    (unfold perform, appendChild, insertBefore, removeChild, setAttribute,
       assign_style, set_data, assign_internal_transform, contains,
       style_set, store_and_forward, applyStyle, freeRecursive,
       when, run_op, dom.setAttribute, dom.setStyle, dom.setTextNodeValue,
       dom.removeChildNode, dom.appendChildNode, dom.insertBeforeNode,
       element, dom_node, upd_node, log, ink_render, rerender, cleanup,
       scheduleOutput;
     lazymatch goal with
     | |- preserves _ (get_style _) => apply get_style_Inv2
     | |- preserves _ (document.createTextNode _) => apply createTextNode_Inv2
     | |- preserves _ (document.createElementNS _ _) => apply createElementNS_Inv2
     | |- preserves _ (get_attributes _) => preserves_getter
     | |- preserves _ (get_childNodes _) => preserves_getter
     | |- preserves _ (get_firstChild _) => preserves_getter
     | |- preserves _ (get_nextSibling _) => preserves_getter
     | |- preserves _ (get_parentNode _) => preserves_getter
     | |- preserves _ (bind _ _) => apply preserves_bind; [|intros ?]
     | |- preserves _ (ret _) => apply preserves_ret
     | |- preserves _ (throw _) => apply preserves_throw
     | |- preserves _ diverge => apply preserves_diverge
     | |- preserves _ (gets _) => apply preserves_gets
     | |- preserves _ (deref _) => apply preserves_deref
     | |- preserves _ (modify _) => apply preserves_modify; inv2_leaf
     | |- preserves _ alloc => apply preserves_alloc; inv2_leaf
     | |- preserves _ (match ?x with _ => _ end) => destruct x
     | |- _ => idtac
     end).

Lemma scheduleOutput_Inv2 w0 : preserves (Inv2 w0) scheduleOutput.
Proof. preserves_inv2. Qed.

Lemma run_op_Inv2 w0 fuel o : preserves (Inv2 w0) (run_op fuel o).
Proof. destruct o; try destruct m; preserves_inv2. Qed.

Lemma getInstance_Inv2 w0 o :
  preserves (Inv2 w0) (getInstance (ink_stdout o) (new_Ink o)).
Proof.
  intros w H. pose proof H as (HI & HR & HT & HK).
  pose proof (getInstance_Inv o w HI) as HI'. revert HI'.
  unfold getInstance, new_Ink, dom.createNode. run_forward.
  destruct (instances w !! ink_stdout o); run_forward; [intros _; exact H|].
  intros HI'. split; [exact HI'|]. wsimpl. split; [|split].
  - apply unregistered_insert_ink; [exact HR|]. apply table_fresh; [exact HI|lia].
  - apply typed_insert_node; [exact HT|].
    intros a0 e0 H0. destruct HI as (_ & _ & _ & A1 & _). destruct (A1 _ _ H0). lia.
  - exact HK.
Qed.

Lemma run_timers_Inv2 w0 k w : Inv2 w0 w -> Inv2 w0 (run_timers k w).
Proof.
  revert w. induction k as [|k IH]; intros w Hw; simpl; [exact Hw|].
  apply IH. unfold run_timer. destruct (timers w) as [|[t c] rest]; [exact Hw|].
  cbn. destruct (closures w !! c); exact Hw.
Qed.

Section AdapterFacts.
Variable reconcile : World -> nat -> VNode -> nat -> list Op.

Lemma render_Inv2 w0 fuel v o : preserves (Inv2 w0) (render reconcile fuel v o).
Proof.
  intros w Hw. unfold render. cbv zeta.
  pose proof (getInstance_Inv2 w0 (inkOptions o) w Hw) as Hg.
  unfold bind at 1.
  destruct (getInstance _ _ w) as [[i| |] wi]; cbn [snd] in Hg; [|exact Hg..].
  assert (forall W, elements W = elements wi -> domNode2PreactElement W = domNode2PreactElement wi ->
            inks W = inks wi -> nodes W = nodes wi -> next wi <= next W -> Inv2 w0 W) as Hsame.
  { intros W E1 E2 E3 E4 E5. destruct Hg as (HI & HR & HT & HK).
    unfold Inv2, Inv, adapters_kept. rewrite E1, E2, E3, E4.
    split; [exact (inv_on_mono _ _ _ _ _ HI E5)|]. auto. }
  unfold ink_render, new_PreactElement. run_forward.
  destruct (inks wi !! i) as [ink|] eqn:Hink; run_forward;
    [|apply Hsame; wsimpl; auto].
  destruct (nodes wi !! rootNode ink) as [d|] eqn:Hd; run_forward;
    [|apply Hsame; wsimpl; auto].
  match goal with
  | |- context [prender ?rc ?f ?i ?v ?a ?W] =>
      assert (Inv2 w0 W) as HW;
      [|pose proof (prender_preserves rc (Inv2 w0) f i v a (run_op_Inv2 w0 f) W HW) as Hp;
        destruct (prender rc f i v a W) as [[[]| |] wp]; cbn [snd] in Hp;
        [|exact Hp..]]
  end.
  { destruct Hg as (HI & HR & HT & HK). pose proof HI as (_ & _ & _ & A1 & _).
    split; [|split; [|split]].
    - unfold Inv; wsimpl.
      apply (inv_on_root_adapter _ _ _ (next wi) _ _ i ink);
        [exact HI|exact Hink|lia..].
    - exact HR.
    - wsimpl. apply typed_insert_element; assumption.
    - unfold adapters_kept. wsimpl. apply adapters_kept_insert; [exact HK|].
      intros e1 H1. destruct (A1 _ _ H1). exfalso. lia. }
  pose proof (scheduleOutput_Inv2 w0 wp Hp) as Hs.
  destruct (scheduleOutput wp) as [[[]| |] ws]; exact Hs.
Qed.

Lemma call_Inv2 w0 fuel c w : Inv2 w0 w -> Inv2 w0 (call reconcile fuel c w).
Proof.
  intros Hw. destruct c; simpl.
  - apply run_op_Inv2, Hw.
  - apply render_Inv2, Hw.
  - exact Hw.
  - exact Hw.
  - apply run_timers_Inv2, Hw.
Qed.

Lemma Inv2_initial : Inv2 initial initial.
Proof.
  split; [apply Inv_initial|]. split; [|split].
  - intros n (i & k & H & _). unfold initial in H. wsimpl.
    rewrite lookup_empty in H. discriminate.
  - intros a e H. unfold initial in H. wsimpl. rewrite lookup_empty in H. discriminate.
  - apply adapters_kept_refl.
Qed.

Lemma Inv2_rebase w0 w : Inv2 w0 w -> Inv2 w w.
Proof. intros (HI & HR & HT & _). split; [|split; [|split]]; auto using adapters_kept_refl. Qed.

Lemma reachable_Inv2 w : reachable reconcile w -> Inv2 w w.
Proof.
  intros Hr. induction Hr; [apply Inv2_initial|].
  apply (Inv2_rebase w). apply call_Inv2. exact IHHr.
Qed.

(** X19.  In every world the program reaches, the adapter [render] makes
    for the root node of a session is not in the side table: [parentNode]
    of an adapter whose node lies directly under such a root is
    [undefined]. *)
Theorem parentNode_under_root_is_undefined (w : World) (x : nat) (ex : PreactElement)
  (d : DOMNode) (p : nat) :
  reachable reconcile w ->
  elements w !! x = Some ex ->
  nodes w !! node ex = Some d ->
  parentNode d = Some p ->
  root_of (inks w) p ->
  get_parentNode x w = (Ok None, w).
Proof.
  intros Hr Hx Hd Hp Hroot. destruct (reachable_Inv2 w Hr) as (_ & HR & _).
  unfold get_parentNode, element, dom_node, bind, deref, gets, WeakMap_get, ret.
  rewrite Hx, Hd, Hp. cbn [mbind option_bind]. rewrite (HR p Hroot). reflexivity.
Qed.

(** X20.  No call removes an adapter or changes what it is: after any
    factory call, adapter operation, [render], [rerender], [cleanup] or
    run of the timers, an adapter of a reachable world is still an adapter
    of the same node with the same [nodeType]. *)
Theorem adapters_are_never_rewrapped (w : World) (fuel : nat) (c : Call)
  (a : nat) (e : PreactElement) :
  reachable reconcile w ->
  elements w !! a = Some e ->
  exists e', elements (call reconcile fuel c w) !! a = Some e' /\
             node e' = node e /\ nodeType e' = nodeType e.
Proof.
  intros Hr He.
  destruct (call_Inv2 w fuel c w (reachable_Inv2 w Hr)) as (_ & _ & _ & HK).
  exact (HK a e He).
Qed.

(** X21.  In every world the program reaches, each adapter wraps a node
    that is in the tree store, and its [nodeType], fixed by the
    constructor, is the code [nodeTypes] gives the name the node has. *)
Theorem nodeType_agrees_with_node (w : World) (a : nat) (e : PreactElement) :
  reachable reconcile w ->
  elements w !! a = Some e ->
  exists d, nodes w !! node e = Some d /\ nodeType e = nodeTypes (nodeName d).
Proof.
  intros Hr He. destruct (reachable_Inv2 w Hr) as (_ & _ & HT & _).
  destruct (HT a e He) as (nm & H1 & H2). unfold name_of in H1.
  destruct (nodes w !! node e) as [d|]; [|discriminate].
  injection H1 as <-. eauto.
Qed.
End AdapterFacts.

Lemma attached_reachable : reachable idle attached.
Proof. unfold attached. repeat apply reachable_call. apply reachable_initial. Qed.

Lemma parentNode_under_root_is_undefined_witness :
  get_parentNode 9 attached = (Ok None, attached).
Proof.
  apply (parentNode_under_root_is_undefined idle attached 9 (mkElement 7 (Some TEXT_NODE) None)
           (set_parentNode (Some 1) (dom.fresh_node HashText 8 (Some (VString "hi")))) 1).
  - exact attached_reachable.
  - vm_compute; reflexivity.
  - vm_compute; reflexivity.
  - reflexivity.
  - exists 3, (mkInk 1 0). split; [vm_compute; reflexivity|reflexivity].
Defined.

Lemma adapters_are_never_rewrapped_witness :
  exists e', elements (call idle 8 (CallRender (VText "b") NoOptions) attached) !! 5 = Some e' /\
             node e' = 1 /\ nodeType e' = Some ROOT_NODE.
Proof.
  apply (adapters_are_never_rewrapped idle attached 8 (CallRender (VText "b") NoOptions) 5
           (mkElement 1 (Some ROOT_NODE) None)).
  - exact attached_reachable.
  - vm_compute; reflexivity.
Defined.

Lemma nodeType_agrees_with_node_witness :
  exists d, nodes attached !! 7 = Some d /\ Some TEXT_NODE = nodeTypes (nodeName d).
Proof.
  apply (nodeType_agrees_with_node idle attached 9 (mkElement 7 (Some TEXT_NODE) None)).
  - exact attached_reachable.
  - vm_compute; reflexivity.
Defined.

(** ** Reading the attributes back *)

Lemma attributes_of_alter f n h x :
  (forall d, attributes (f d) = attributes d) ->
  attributes_of (alter f n h) x = attributes_of h x.
Proof.
  intros Hf. unfold attributes_of. rewrite lookup_alter.
  destruct (decide (n = x)) as [->|]; [|reflexivity].
  destruct (h !! x) as [d|]; simpl; [|reflexivity]. rewrite Hf. reflexivity.
Qed.

Lemma attributes_of_set g n h :
  attributes_of (alter (set_attributes g) n h) n = g <$> attributes_of h n.
Proof.
  unfold attributes_of. rewrite lookup_alter_eq.
  destruct (h !! n); reflexivity.
Qed.

Lemma setAttribute_tree fuel w a e key value rt found :
  elements w !! a = Some e ->
  sched_wf w ->
  (key = "internal_static" ->
   root w = Some rt /\
   if truthy value then found = Some (node e)
   else searchStatic fuel (alter (set_internal_static value) (node e) (nodes w)) rt
        = Some found) ->
  exists w',
    setAttribute fuel a key value w = (Ok tt, w') /\
    nodes w' = after_setAttribute w (node e) key value rt found /\
    elements w' = elements w.
Proof.
  intros He Hwf Hst. unfold after_setAttribute.
  unfold setAttribute, element, bind at 1, deref at 1. rewrite He.
  destruct (String.eqb key "style") eqn:E1.
  - apply String.eqb_eq in E1. subst key. cbn [String.eqb Ascii.eqb Bool.eqb].
    run_forward. run_scheduleOutput Hwf.
    destruct Hso as (Hn & _ & He' & _).
    eexists. split; [reflexivity|]. rewrite Hn, He'. wsimpl. auto.
  - destruct (String.eqb key "internal_transform") eqn:E2.
    + apply String.eqb_eq in E2. subst key. cbn [String.eqb Ascii.eqb Bool.eqb].
      run_forward. run_scheduleOutput Hwf.
      destruct Hso as (Hn & _ & He' & _).
      eexists. split; [reflexivity|]. rewrite Hn, He'. wsimpl. auto.
    + destruct (String.eqb key "internal_static") eqn:E3.
      * apply String.eqb_eq in E3. subst key.
        destruct (Hst eq_refl) as [Hr Hf]. run_forward. rewrite Hr. run_forward.
        destruct (truthy value).
        -- subst found. run_forward. run_scheduleOutput Hwf.
           destruct Hso as (Hn & _ & He' & _).
           eexists. split; [reflexivity|]. rewrite Hn, He'. wsimpl. auto.
        -- run_forward. rewrite Hf. run_forward. run_scheduleOutput Hwf.
           destruct Hso as (Hn & _ & He' & _).
           eexists. split; [reflexivity|]. rewrite Hn, He'. wsimpl. auto.
      * run_forward. run_scheduleOutput Hwf.
        destruct Hso as (Hn & _ & He' & _).
        eexists. split; [reflexivity|]. rewrite Hn, He'. wsimpl. auto.
Qed.

(** X22.  After [setAttribute(key, value)] has returned, the getter
    [attributes] of the adapter gives the attributes the node had before
    with [key] bound to [value]; this holds for every key, the keys
    ['style'], ['internal_transform'] and ['internal_static'] included.
    (That [dom.setAttribute] binds the key is modelled from section 4.2.) *)
Theorem attributes_read_back (fuel : nat) (w : World) (a : nat) (e : PreactElement)
  (d : DOMNode) (key : string) (value : Value) (rt : nat) (found : option nat) :
  elements w !! a = Some e ->
  nodes w !! node e = Some d ->
  sched_wf w ->
  (key = "internal_static" ->
   root w = Some rt /\
   if truthy value then found = Some (node e)
   else searchStatic fuel (alter (set_internal_static value) (node e) (nodes w)) rt
        = Some found) ->
  exists w',
    setAttribute fuel a key value w = (Ok tt, w') /\
    get_attributes a w' = (Ok (<[key := value]> (attributes d)), w').
Proof.
  intros He Hd Hwf Hst.
  destruct (setAttribute_tree fuel w a e key value rt found He Hwf Hst)
    as (w' & Hrun & Hn & He').
  exists w'. split; [exact Hrun|].
  assert (attributes_of (nodes w') (node e) = Some (<[key := value]> (attributes d))) as Ha.
  { rewrite Hn. unfold after_setAttribute. rewrite attributes_of_set.
    assert (attributes_of (nodes w) (node e) = Some (attributes d)) as H0
      by (unfold attributes_of; rewrite Hd; reflexivity).
    destruct (String.eqb key "style");
      destruct (String.eqb key "internal_transform");
      destruct (String.eqb key "internal_static");
      rewrite ?attributes_of_alter by (intros ?; reflexivity);
      rewrite H0; reflexivity. }
  unfold get_attributes, element, dom_node, bind, deref, ret. rewrite He', He.
  unfold attributes_of in Ha. destruct (nodes w' !! node e) as [d'|]; [|discriminate].
  injection Ha as ->. reflexivity.
Qed.

Lemma attributes_read_back_witness :
  exists d, nodes laid_out !! 7 = Some d /\ attributes d = ∅ /\
  exists w',
    setAttribute 1 9 "style" (VObject [("width", VString "10px")]) laid_out = (Ok tt, w') /\
    get_attributes 9 w' =
      (Ok (<["style" := VObject [("width", VString "10px")]]> (attributes d)), w').
Proof.
  eexists. split; [vm_compute; reflexivity|]. split; [reflexivity|].
  apply (attributes_read_back 1 laid_out 9 (mkElement 7 (Some BOX_NODE) None)
           _ "style" (VObject [("width", VString "10px")]) 1 None).
  - vm_compute; reflexivity.
  - vm_compute; reflexivity.
  - vm_compute. eexists; reflexivity.
  - discriminate.
Defined.

(** ** The queue of timers in the worlds the program reaches *)

Lemma queue_ok_bump w : queue_ok w -> queue_ok (bump w).
Proof.
  intros (A & B & C). split; [|split].
  - intros c cl H. specialize (A c cl H). cbn. lia.
  - intros tc H. specialize (B tc H). cbn. lia.
  - exact C.
Qed.

Lemma scheduleOutput_queue_ok : preserves queue_ok scheduleOutput.
Proof.
  intros w H0. pose proof H0 as (A & B & C).
  unfold scheduleOutput, bind, gets, deref, alloc, log, modify, ret.
  destruct (bound_scheduleOutput w) as [c|] eqn:Hb; cbn; [|exact H0].
  destruct (C c eq_refl) as (T & i & (_ & cl & Hc & Hi & Ht) & HT).
  rewrite Hc. destruct (flush cl) as [t|] eqn:Hf; cbn; unfold queue_ok; wsimpl.
  - split; [exact A|]. split; [exact B|]. intros c' Hc'. rewrite Hb in Hc'.
    injection Hc' as <-. exists T, i. split; [|exact HT].
    split; [exact Hb|]. exists cl. rewrite Hf. auto.
  - pose proof (A c cl Hc) as Hlt. split; [|split].
    + intros c' cl' H. destruct (decide (c' = c)) as [->|Hne]; [lia|].
      rewrite lookup_insert_ne in H by congruence. specialize (A c' cl' H). lia.
    + intros tc H. apply elem_of_app in H as [H|H].
      * specialize (B tc H). lia.
      * apply list_elem_of_singleton in H. subst tc. cbn. lia.
    + intros c' Hc'. rewrite Hb in Hc'. injection Hc' as <-. exists T, i.
      split; [|exact HT]. split; [exact Hb|].
      exists (mkClosure (instance cl) (Some (next w))).
      cbn. rewrite lookup_insert_eq, Ht, app_nil_r. auto.
Qed.

Ltac queue_leaf :=
  let w := fresh "w" in let H := fresh "H" in
  intros w H; first [ exact H | exact (queue_ok_bump _ H) ].

Lemma run_op_queue_ok fuel o : preserves queue_ok (run_op fuel o).
Proof.
  destruct o; try destruct m;
    preserves_with ltac:(apply scheduleOutput_queue_ok) queue_leaf.
Qed.

Lemma run_timers_frame k : forall w,
  next (run_timers k w) = next w /\
  bound_scheduleOutput (run_timers k w) = bound_scheduleOutput w.
Proof.
  induction k as [|k IH]; intros w; [auto|]. cbn [run_timers].
  destruct (IH (run_timer w)) as [E1 E2]. rewrite E1, E2.
  unfold run_timer. destruct (timers w) as [|[t c] rest]; [auto|].
  cbn. destruct (closures w !! c); auto.
Qed.

Lemma tick_queue_ok w : queue_ok w -> queue_ok (tick w).
Proof.
  intros (A & B & C).
  destruct (run_timers_all (timers w) w eq_refl) as (I1 & _ & I3).
  fold (tick w) in I1, I3.
  destruct (run_timers_frame (length (timers w)) w) as [Hn Hb].
  fold (tick w) in Hn, Hb.
  split; [|split].
  - intros c cl H. rewrite Hn. rewrite I3 in H.
    destruct (bool_decide (c ∈ (timers w).*2)).
    + destruct (closures w !! c) as [cl0|] eqn:E; [|discriminate]. exact (A c cl0 E).
    + exact (A c cl H).
  - intros tc H. rewrite I1 in H. inversion H.
  - intros c Hc. rewrite Hb in Hc.
    destruct (C c Hc) as (T & i & (_ & cl & Hcl & Hi & Ht) & HT).
    exists [], i. split; [|constructor]. split; [rewrite Hb; exact Hc|].
    rewrite I1, I3, Hcl. destruct (flush cl) as [t|] eqn:Hf.
    + rewrite bool_decide_eq_true_2.
      * eexists. split; [reflexivity|]. split; [exact Hi|reflexivity].
      * rewrite Ht, fmap_app. apply elem_of_app. right. left.
    + rewrite bool_decide_eq_false_2.
      * exists cl. rewrite Hf. auto.
      * rewrite Ht, app_nil_r. intros Hin.
        apply list_elem_of_fmap in Hin as (tc & -> & Hin).
        rewrite Forall_forall in HT. exact (HT tc Hin eq_refl).
Qed.

Lemma queue_ok_initial : queue_ok initial.
Proof.
  split; [|split].
  - intros c cl H. unfold initial in H. cbn in H. rewrite lookup_empty in H. discriminate.
  - intros tc H. inversion H.
  - intros c H. discriminate H.
Qed.

Section QueueFacts.
Variable reconcile : World -> nat -> VNode -> nat -> list Op.

Lemma render_queue_ok fuel v o : preserves queue_ok (render reconcile fuel v o).
Proof.
  intros w Hw. unfold render. cbv zeta.
  assert (preserves queue_ok (getInstance (ink_stdout (inkOptions o))
                                (new_Ink (inkOptions o)))) as Hgp
    by (preserves_with idtac queue_leaf).
  pose proof (Hgp w Hw) as Hg. unfold bind at 1.
  destruct (getInstance _ _ w) as [[i| |] wi]; cbn [snd] in Hg; [|exact Hg..].
  assert (queue_ok (set_bound (Some (next wi))
                      (upd_closures (<[next wi := mkClosure i None]>) (bump wi)))) as H1.
  { destruct Hg as (A & B & _). split; [|split].
    - intros c cl H. cbn in H |- *. destruct (decide (c = next wi)) as [->|Hne]; [lia|].
      rewrite lookup_insert_ne in H by congruence. specialize (A c cl H). lia.
    - intros tc H. cbn in H |- *. specialize (B tc H). lia.
    - intros c Hc. cbn in Hc. injection Hc as <-. exists (timers wi), i. split.
      + split; [reflexivity|]. eexists. cbn. rewrite lookup_insert_eq.
        split; [reflexivity|]. split; [reflexivity|]. cbn. rewrite app_nil_r. reflexivity.
      + apply Forall_forall. intros tc H. specialize (B tc H). lia. }
  assert (forall W, closures W = closures (set_bound (Some (next wi))
                      (upd_closures (<[next wi := mkClosure i None]>) (bump wi))) ->
            timers W = timers wi -> bound_scheduleOutput W = Some (next wi) ->
            S (next wi) <= next W -> queue_ok W) as Hsame.
  { intros W E1 E2 E3 E4. destruct H1 as (A & B & C). split; [|split].
    - intros c cl H. rewrite E1 in H. specialize (A c cl H). cbn in A. lia.
    - intros tc H. rewrite E2 in H. specialize (B tc H). cbn in B. lia.
    - intros c Hc. rewrite E3 in Hc. injection Hc as <-.
      destruct (C (next wi) eq_refl) as (T & i0 & (_ & cl & Hcl & Hi & Ht) & HT).
      exists T, i0. split; [|exact HT]. split; [exact E3|].
      exists cl. rewrite E1, E2. auto. }
  unfold ink_render, new_PreactElement. run_forward.
  destruct (inks wi !! i) as [ink|] eqn:Hink; run_forward;
    [|apply Hsame; wsimpl; auto].
  destruct (nodes wi !! rootNode ink) as [d|] eqn:Hd; run_forward;
    [|apply Hsame; wsimpl; auto].
  match goal with
  | |- context [prender ?rc ?f ?i ?v ?a ?W] =>
      assert (queue_ok W) as HW by (apply Hsame; wsimpl; auto);
      pose proof (prender_preserves rc queue_ok f i v a (run_op_queue_ok f) W HW) as Hp;
      destruct (prender rc f i v a W) as [[[]| |] wp]; cbn [snd] in Hp;
        [|exact Hp..]
  end.
  pose proof (scheduleOutput_queue_ok wp Hp) as Hs.
  destruct (scheduleOutput wp) as [[[]| |] ws]; exact Hs.
Qed.

(** In every world the program reaches in which [scheduleOutput] is
    bound, the queue is as C1 takes it to be. *)
Lemma queue_of_reachable w c :
  reachable reconcile w -> bound_scheduleOutput w = Some c ->
  exists T i, sched_after T c i w /\ Forall (fun tc => tc.2 <> c) T.
Proof.
  intros Hr. assert (queue_ok w) as (_ & _ & C); [|exact (C c)].
  induction Hr as [|w fuel k Hr IH]; [apply queue_ok_initial|].
  destruct k; simpl.
  - apply run_op_queue_ok, IH.
  - apply render_queue_ok, IH.
  - exact IH.
  - exact IH.
  - apply tick_queue_ok, IH.
Qed.
End QueueFacts.

(** The layout engine attaching a handle does not touch the queue. *)
Lemma queue_with_handle T c i n k w :
  sched_after T c i w -> sched_after T c i (attach_handle n k w).
Proof. intros H. exact H. Qed.
